(** * Krotov-Hopfield Hebbian learning: the rule and the training engine

    A shallow embedding of
      - [src/pytorch_hebbian/learning_rules/krotov.py]   (class [KrotovsRule]),
      - [src/pytorch_hebbian/learning_engines/hebbian_engine.py] (class [HebbianEngine]),
      - [src/main.py]                                    (the schedule built in [main]).

    Numbers are exact rationals ([Q]): the development is about the algebra
    and the control flow of the rule, not about rounding.  A 2-D tensor is a
    shape together with its dense rows.  Python exceptions are values of
    [exn], carried by the error monad [result]; the engine, which mutates
    the layer weights and the scheduler, runs in a state-and-error monad
    whose final state is available also when an exception was raised. *)

From Stdlib Require Import String.
From Stdlib Require Import List ZArith QArith Qabs Qminmax Qpower Lia Lqa Bool.
From Stdlib Require Import Sorting.Sorted Sorting.Permutation.
Import ListNotations.

Set Implicit Arguments.

(** ** Exceptions and the error monad *)

Inductive exn : Type :=
| AssertionError (msg : string)
| IndexError
| RuntimeError
| ValueError
| TypeError
| ZeroDivisionError
| StopIteration.

Inductive result (A : Type) : Type :=
| Ok (a : A)
| Err (e : exn).

Arguments Ok {A} a.
Arguments Err {A} e.

Definition bind {A B : Type} (m : result A) (f : A -> result B) : result B :=
  match m with
  | Ok a => f a
  | Err e => Err e
  end.

Notation "x <- m ;; f" := (bind m (fun x => f))
  (at level 61, m at next level, right associativity).

Definition py_assert (c : bool) (msg : string) : result unit :=
  if c then Ok tt else Err (AssertionError msg).

(** ** State and exceptions

    A computation on a state [S] returns a result and the state it leaves;
    the state after a raised exception is the state at the raise. *)
Definition ST (S A : Type) : Type := S -> result A * S.

Definition retM {S A : Type} (a : A) : ST S A := fun s => (Ok a, s).

Definition bindM {S A B : Type} (m : ST S A) (f : A -> ST S B) : ST S B :=
  fun s => match m s with
           | (Ok a, s') => f a s'
           | (Err e, s') => (Err e, s')
           end.

Notation "x <~ m ;; f" := (bindM m (fun x => f))
  (at level 61, m at next level, right associativity).

Definition lift {S A : Type} (r : result A) : ST S A := fun s => (r, s).

(** ** Dense 2-D tensors *)

Record Tensor : Type := mkTensor {
  nrows : nat;
  ncols : nat;
  data : list (list Q)
}.

(** [T[i, j]]; every operation below reads its operands through [get] and
    their shape only. *)
Definition get (T : Tensor) (i j : nat) : Q := nth j (nth i (data T) []) 0.

(** The tensor of shape (r, c) with entries [f i j]. *)
Definition tabulate (r c : nat) (f : nat -> nat -> Q) : Tensor :=
  mkTensor r c (map (fun i => map (fun j => f i j) (seq 0 c)) (seq 0 r)).

Definition same_shape (A B : Tensor) : bool :=
  (nrows A =? nrows B)%nat && (ncols A =? ncols B)%nat.

Definition map_tensor (f : Q -> Q) (T : Tensor) : Tensor :=
  tabulate (nrows T) (ncols T) (fun i j => f (get T i j)).

(** Elementwise binary operations; the operands of every call in the rule
    have equal shapes, a mismatch is the backend's [RuntimeError]. *)
Definition zip_tensor (f : Q -> Q -> Q) (A B : Tensor) : result Tensor :=
  if same_shape A B
  then Ok (tabulate (nrows A) (ncols A) (fun i j => f (get A i j) (get B i j)))
  else Err RuntimeError.

(** [torch.sign] on one entry *)
Definition Qsign (q : Q) : Q :=
  match q ?= 0 with
  | Gt => 1
  | Eq => 0
  | Lt => -(1)
  end.

(** The sum of a row of products, of a row, of a column. *)
Definition Qsum (l : list Q) : Q := fold_right Qplus 0 l.

(** [x < y] *)
Definition Qltb (x y : Q) : bool := negb (Qle_bool y x).

(** All entries, row by row. *)
Definition elements (T : Tensor) : list Q :=
  flat_map (fun i => map (fun j => get T i j) (seq 0 (ncols T))) (seq 0 (nrows T)).

Definition column (T : Tensor) (j : nat) : list Q :=
  map (fun i => get T i j) (seq 0 (nrows T)).

(** *** Ranking

    [torch.topk] and [torch.argsort] rank the rows of every column.  The
    backend does not say how it orders equal values; here both are a stable
    insertion sort of the row numbers of the column, so that equal scores
    keep the order of their row numbers (top-k: the lower row first; the
    ascending sort: the lower row first as well).  Whenever the scores of a
    column are pairwise different the ranking is the only possible one, and
    the choice does not matter. *)

Section Sort.

Variable A : Type.
Variable le : A -> A -> bool.

Fixpoint insert (x : A) (l : list A) : list A :=
  match l with
  | [] => [x]
  | y :: l' => if le x y then x :: y :: l' else y :: insert x l'
  end.

Definition sort (l : list A) : list A := fold_right insert [] l.

End Sort.

(** Row numbers of [vals] by ascending value. *)
Definition argsort_col (vals : list Q) : list nat :=
  sort (fun i j => Qle_bool (nth i vals 0) (nth j vals 0)) (seq 0 (length vals)).

(** Row numbers of [vals] by descending value. *)
Definition sort_desc_col (vals : list Q) : list nat :=
  sort (fun i j => Qle_bool (nth j vals 0) (nth i vals 0)) (seq 0 (length vals)).

(** An integer tensor of shape (n, B), as its [n] rows. *)
Definition IndexTensor : Type := list (list nat).

Definition rows_of_columns (n : nat) (cs : list (list nat)) : IndexTensor :=
  map (fun i => map (fun c => nth i c O) cs) (seq 0 n).

(** *** The operations of the tensor backend used by the rule *)

Module torch.

(** [torch.zeros((r, c))] *)
Definition zeros (r c : nat) : Tensor := tabulate r c (fun _ _ => 0).

(** [torch.t] *)
Definition t (T : Tensor) : Tensor :=
  tabulate (ncols T) (nrows T) (fun i j => get T j i).

Definition sign : Tensor -> Tensor := map_tensor Qsign.

Definition abs : Tensor -> Tensor := map_tensor Qabs.

(** [T ** e] for an integer exponent; the rule uses [e = norm - 1 >= 0]. *)
Definition pow (T : Tensor) (e : Z) : Tensor := map_tensor (fun q => q ^ e) T.

Definition mul : Tensor -> Tensor -> result Tensor := zip_tensor Qmult.

Definition sub : Tensor -> Tensor -> result Tensor := zip_tensor Qminus.

(** [torch.matmul] of an (n, m) by an (m, p) tensor *)
Definition matmul (A B : Tensor) : result Tensor :=
  if (ncols A =? nrows B)%nat
  then Ok (tabulate (nrows A) (ncols B)
             (fun i j => Qsum (map (fun d => get A i d * get B d j) (seq 0 (ncols A)))))
  else Err RuntimeError.

(** [torch.sum(T, 1)]: the sum of every row *)
Definition sum (T : Tensor) : list Q :=
  map (fun i => Qsum (map (fun j => get T i j) (seq 0 (ncols T)))) (seq 0 (nrows T)).

(** [torch.max] of all entries; the backend refuses an empty tensor. *)
Definition max (T : Tensor) : result Q :=
  match elements T with
  | [] => Err RuntimeError
  | x :: l => Ok (fold_left Qmax l x)
  end.

(** [torch.true_divide(T, s)] by a scalar *)
Definition true_divide (T : Tensor) (s : Q) : Tensor := map_tensor (fun q => q / s) T.

(** [torch.argsort(T, dim=0)] *)
Definition argsort (T : Tensor) : IndexTensor :=
  rows_of_columns (nrows T)
    (map (fun j => argsort_col (column T j)) (seq 0 (ncols T))).

(** The indices returned by [torch.topk(T, k=k, dim=0)] *)
Definition topk (T : Tensor) (k : Z) : result IndexTensor :=
  if ((0 <=? k) && (k <=? Z.of_nat (nrows T)))%Z
  then Ok (rows_of_columns (Z.to_nat k)
             (map (fun j => firstn (Z.to_nat k) (sort_desc_col (column T j)))
                  (seq 0 (ncols T))))
  else Err RuntimeError.

(** [torch.arange(n)] *)
Definition arange (n : nat) : list nat := seq 0 n.

End torch.

(** [xx.view(xx.shape[0], 1).repeat((1, n))] *)
Definition view_repeat (xx : list Q) (n : nat) : Tensor :=
  tabulate (length xx) n (fun i _ => nth i xx 0).

(** Python's [rows[i]]: negative positions count from the end. *)
Definition getitem {A : Type} (rows : list A) (i : Z) : result A :=
  let n := Z.of_nat (length rows) in
  let j := if (i <? 0)%Z then (i + n)%Z else i in
  if ((0 <=? j) && (j <? n))%Z
  then match nth_error rows (Z.to_nat j) with
       | Some r => Ok r
       | None => Err IndexError
       end
  else Err IndexError.

(** [T[i]] for a 2-D tensor: its row [i], a vector of [T.shape[1]] entries. *)
Definition tensor_row (T : Tensor) (i : Z) : result (list Q) :=
  getitem (map (fun r => map (fun j => get T r j) (seq 0 (ncols T))) (seq 0 (nrows T))) i.

(** [A[ridx, cidx] = v] with two index vectors: the entries
    [(ridx[0], cidx[0]), (ridx[1], cidx[1]), ...] are overwritten by [v]. *)
Definition index_put (A : Tensor) (ridx cidx : list nat) (v : Q) : result Tensor :=
  if negb (length ridx =? length cidx)%nat then Err IndexError
  else if negb (forallb (fun i => (i <? nrows A)%nat) ridx
                && forallb (fun j => (j <? ncols A)%nat) cidx) then Err IndexError
  else Ok (tabulate (nrows A) (ncols A)
             (fun i j =>
                if existsb (fun p => (fst p =? i)%nat && (snd p =? j)%nat) (combine ridx cidx)
                then v else get A i j)).

(** ** [KrotovsRule] (krotov.py) *)

Record KrotovsRule : Type := mkKrotovsRule {
  precision : Q;
  delta : Q;
  norm : Z;
  k : Z
}.

(** The defaults of [KrotovsRule.__init__]: [1e-30], [0.4], [2], [2]. *)
Definition default_precision : Q := 1 # (10 ^ 30).
Definition default_delta : Q := 4 # 10.
Definition default_norm : Z := 2.
Definition default_k : Z := 2.

(** [KrotovsRule.__init__]: the four hyperparameters are stored, nothing is
    checked. *)
Definition __init__ (precision delta : Q) (norm k : Z) : result KrotovsRule :=
  Ok (mkKrotovsRule precision delta norm k).

Definition assert_msg : string :=
  "The amount of hidden units should be larger or equal to k!".

(** Lines 32-36 (and 65-69): the sizes, the transposed batch, the assertion.
    Returns [(batch_size, num_hidden_units, input_size, inputs)]. *)
Definition prologue (self : KrotovsRule) (inputs weights : Tensor)
  : result (nat * nat * nat * Tensor) :=
  let batch_size := nrows inputs in
  let num_hidden_units := nrows weights in
  row0 <- tensor_row inputs 0 ;;
  let input_size := length row0 in
  let inputs := torch.t inputs in
  _ <- py_assert (k self <=? Z.of_nat num_hidden_units)%Z assert_msg ;;
  Ok (batch_size, num_hidden_units, input_size, inputs).

(** Line 39 (and 72): [tot_input], the overlap of every hidden unit with
    every sample; [inputs] is the transposed batch. *)
Definition overlap (self : KrotovsRule) (weights inputs : Tensor) : result Tensor :=
  sw <- torch.mul (torch.sign weights) (torch.pow (torch.abs weights) (norm self - 1)) ;;
  torch.matmul sw inputs.

(** Lines 42-47: selection with [torch.topk]. *)
Definition activations_topk (self : KrotovsRule) (tot_input : Tensor)
    (num_hidden_units batch_size : nat) : result Tensor :=
  indices <- torch.topk tot_input (k self) ;;
  let activations := torch.zeros num_hidden_units batch_size in
  i0 <- getitem indices 0 ;;
  activations <- index_put activations i0 (torch.arange batch_size) 1 ;;
  ik <- getitem indices (k self - 1) ;;
  index_put activations ik (torch.arange batch_size) (- delta self).

(** Lines 75-80: selection with [torch.argsort]. *)
Definition activations_argsort (self : KrotovsRule) (tot_input : Tensor)
    (num_hidden_units batch_size : nat) : result Tensor :=
  let y := torch.argsort tot_input in
  let activations := torch.zeros num_hidden_units batch_size in
  y_last <- getitem y (Z.of_nat num_hidden_units - 1) ;;
  activations <- index_put activations y_last (torch.arange batch_size) 1 ;;
  y_k <- getitem y (Z.of_nat num_hidden_units - k self) ;;
  index_put activations y_k (torch.arange batch_size) (- delta self).

(** Lines 50-54 (and 83-87): the raw delta [ds]. *)
Definition raw_delta (activations tot_input inputs : Tensor) (input_size : nat)
    (weights : Tensor) : result Tensor :=
  ax <- torch.mul activations tot_input ;;
  let xx := torch.sum ax in
  norm_factor <- torch.mul (view_repeat xx input_size) weights ;;
  hebb <- torch.matmul activations (torch.t inputs) ;;
  torch.sub hebb norm_factor.

(** Lines 57-60 (and 90-93): division by the largest magnitude, or by
    [precision] when that is smaller. *)
Definition normalize (self : KrotovsRule) (ds : Tensor) : result Tensor :=
  nc <- torch.max (torch.abs ds) ;;
  let nc := if Qltb nc (precision self) then precision self else nc in
  Ok (torch.true_divide ds nc).

(** [KrotovsRule.update] *)
Definition update (self : KrotovsRule) (inputs weights : Tensor) : result Tensor :=
  p <- prologue self inputs weights ;;
  let '(batch_size, num_hidden_units, input_size, inputs) := p in
  tot_input <- overlap self weights inputs ;;
  activations <- activations_topk self tot_input num_hidden_units batch_size ;;
  ds <- raw_delta activations tot_input inputs input_size weights ;;
  normalize self ds.

(** [KrotovsRule.update_argsort] *)
Definition update_argsort (self : KrotovsRule) (inputs weights : Tensor) : result Tensor :=
  p <- prologue self inputs weights ;;
  let '(batch_size, num_hidden_units, input_size, inputs) := p in
  tot_input <- overlap self weights inputs ;;
  activations <- activations_argsort self tot_input num_hidden_units batch_size ;;
  ds <- raw_delta activations tot_input inputs input_size weights ;;
  normalize self ds.

(** The values of the locals [tot_input], [activations] and [ds] of
    [update]: the same statements, stopped after line 39, 47 and 54. *)
Definition update_tot_input (self : KrotovsRule) (inputs weights : Tensor) : result Tensor :=
  p <- prologue self inputs weights ;;
  let '(batch_size, num_hidden_units, input_size, inputs) := p in
  overlap self weights inputs.

Definition update_activations (self : KrotovsRule) (inputs weights : Tensor) : result Tensor :=
  p <- prologue self inputs weights ;;
  let '(batch_size, num_hidden_units, input_size, inputs) := p in
  tot_input <- overlap self weights inputs ;;
  activations_topk self tot_input num_hidden_units batch_size.

Definition update_ds (self : KrotovsRule) (inputs weights : Tensor) : result Tensor :=
  p <- prologue self inputs weights ;;
  let '(batch_size, num_hidden_units, input_size, inputs) := p in
  tot_input <- overlap self weights inputs ;;
  activations <- activations_topk self tot_input num_hidden_units batch_size ;;
  raw_delta activations tot_input inputs input_size weights.

(** *** The rule as a caller reaches it

    A caller holds the weights as a torch tensor or as a numpy array; both
    have a shape and can be indexed, only a tensor is accepted by the
    operations of [torch]. *)

Inductive Array : Type :=
| torch_Tensor (T : Tensor)
| np_ndarray (T : Tensor).

(** [KrotovsRule.update] on a batch that is a tensor and weights of either
    kind.  Lines 32-36 read the shapes and the batch and check [k].  Line
    39 starts with [torch.sign(weights)], which raises [TypeError] for a
    numpy array; for a tensor the method goes on as [update] above and
    returns a tensor. *)
Definition update_called (self : KrotovsRule) (inputs : Tensor) (weights : Array)
  : result Array :=
  match weights with
  | torch_Tensor W => d_w <- update self inputs W ;; Ok (torch_Tensor d_w)
  | np_ndarray W => _ <- prologue self inputs W ;; Err TypeError
  end.

(** *** Notions in which the properties of the rule are stated *)

(** A call the rule is meant for: a batch with at least one sample and one
    feature, weights over the same features, and a rank [1 <= k <= H]. *)
Definition valid_call (self : KrotovsRule) (inputs weights : Tensor) : Prop :=
  (1 <= nrows inputs)%nat /\ (1 <= ncols inputs)%nat /\
  ncols weights = ncols inputs /\
  (1 <= k self)%Z /\ (k self <= Z.of_nat (nrows weights))%Z.

(** The overlap as the specification writes it:
    [score[h,b] = sum_d sign(W[h,d]) * |W[h,d]|^(p-1) * X[b,d]]. *)
Definition score_spec (self : KrotovsRule) (weights inputs : Tensor) (h b : nat) : Q :=
  Qsum (map (fun d => Qsign (get weights h d) * Qabs (get weights h d) ^ (norm self - 1)
                      * get inputs b d)
            (seq 0 (ncols weights))).

(** The scores of [update], in the form all later stages use. *)
Definition scores (self : KrotovsRule) (inputs weights : Tensor) : Tensor :=
  tabulate (nrows weights) (nrows inputs) (score_spec self weights inputs).

Definition no_ties (vals : list Q) : Prop :=
  forall i j, (i < length vals)%nat -> (j < length vals)%nat -> i <> j ->
              ~ nth i vals 0 == nth j vals 0.

(** No two hidden units have the same score for the same sample. *)
Definition no_score_ties (self : KrotovsRule) (inputs weights : Tensor) : Prop :=
  forall b h1 h2, (b < nrows inputs)%nat ->
    (h1 < nrows weights)%nat -> (h2 < nrows weights)%nat -> h1 <> h2 ->
    ~ score_spec self weights inputs h1 b == score_spec self weights inputs h2 b.

(** The hidden unit of rank [r] (0 is the best) for sample [j]. *)
Definition ranked (S : Tensor) (r j : nat) : nat :=
  nth r (sort_desc_col (column S j)) 0%nat.

(** The same unit read from the ascending ranking, position [p]. *)
Definition ranked_asc (S : Tensor) (p j : nat) : nat :=
  nth p (argsort_col (column S j)) 0%nat.

(** The two writes of lines 46-47: [-delta] where [second] points, else
    [1] where [first] points, else the initial [0]. *)
Definition act_fn (delta : Q) (first second : nat -> nat) (i j : nat) : Q :=
  if (second j =? i)%nat then - delta
  else if (first j =? i)%nat then 1 else 0.

(** ** The training engine (hebbian_engine.py, main.py) *)

(** The interface [LearningRule]: what the engine uses of its rule, the
    method [update] called with a batch and the weights. *)
Record LearningRule : Type := mkLearningRule {
  rule_update : Tensor -> Array -> result Array
}.

Definition KrotovsRule_rule (self : KrotovsRule) : LearningRule :=
  mkLearningRule (update_called self).

(** [torch.from_numpy]: a tensor over a numpy array, [TypeError] for
    anything else. *)
Definition from_numpy (a : Array) : result Tensor :=
  match a with
  | np_ndarray T => Ok T
  | torch_Tensor _ => Err TypeError
  end.

(** Statistics returned by the evaluator: loss and accuracy. *)
Definition Stats : Type := (Q * Q)%type.

(** What a run of the engine does to its collaborators, in order:
    [logging.info] of the learning rate (line 58), the visualizer's scalar
    (line 61) and weight images (lines 52 and 70), [optimizer.local_step]
    (line 27), [lr_scheduler.step] (line 72), [self.eval] (line 78) and
    [self.checkpoint] with or without statistics (lines 84 and 86). *)
Inductive event : Type :=
| LogLearningRate (lr : Q)
| VisualizeLearningRate (lr : Q) (epoch_step : nat)
| VisualizeWeights (step : nat)
| LocalStep
| SchedulerStep
| Eval
| Checkpoint (with_stats : bool).

(** The engine's collaborators that do not change during a run, and what
    the run is given from outside: [progress_n epoch n] is the value of
    [progress_bar.n] when batch [n] of epoch [epoch] is reached.  tqdm
    counts the batches it has handed out but brings the attribute [n] up to
    date only when enough time has passed since it last drew the bar, so
    the value is some number of batches from 0 to [n] that the code does
    not determine. *)
Record HebbianEngine : Type := mkHebbianEngine {
  learning_rule : LearningRule;
  base_lr : Q;
  lr_lambda : nat -> result Q;
  evaluator : Tensor -> Stats;
  visualizer : bool;
  progress_n : nat -> nat -> nat
}.

(** The mutable state: the weight of the first layer (the one
    [_train_step] updates and, for the model of [main], the one [train]
    initialises), the learning rate of the optimizer's parameter group, the
    scheduler's epoch counter, and the events so far. *)
Record EngineState : Type := mkEngineState {
  layer_weight : Tensor;
  optimizer_lr : Q;
  last_epoch : nat;
  events : list event
}.

(** The engine's computations. *)
Definition M (A : Type) : Type := ST EngineState A.

Definition get_weight : M Tensor := fun s => (Ok (layer_weight s), s).

Definition get_last_lr : M Q := fun s => (Ok (optimizer_lr s), s).

Definition set_weight (W : Tensor) : M unit :=
  fun s => (Ok tt, mkEngineState W (optimizer_lr s) (last_epoch s) (events s)).

Definition log (e : event) : M unit :=
  fun s => (Ok tt, mkEngineState (layer_weight s) (optimizer_lr s) (last_epoch s)
                                 (events s ++ [e])).

Definition when (c : bool) (m : M unit) : M unit := if c then m else retM tt.

(** Modelled from the spec: the optimizer [Local] (pytorch_hebbian/optimizers/local.py
    is not among the sources).  [local_step(d_p)] mutates the owned weight
    tensor by [W += lr * d_p], with the learning rate of its parameter
    group. *)
Definition local_step (d_p : Tensor) : M unit :=
  fun s =>
    let W := layer_weight s in
    (Ok tt,
     mkEngineState
       (tabulate (nrows W) (ncols W) (fun i j => get W i j + optimizer_lr s * get d_p i j))
       (optimizer_lr s) (last_epoch s) (events s ++ [LocalStep])).

(** [torch.optim.lr_scheduler.LambdaLR.step]: the epoch counter advances and
    the parameter group's rate becomes [base_lr * lr_lambda(last_epoch)]. *)
Definition scheduler_step (eng : HebbianEngine) : M unit :=
  fun s =>
    let s1 := mkEngineState (layer_weight s) (optimizer_lr s) (S (last_epoch s))
                            (events s ++ [SchedulerStep]) in
    match lr_lambda eng (S (last_epoch s)) with
    | Ok f => (Ok tt, mkEngineState (layer_weight s1) (base_lr eng * f)
                                    (last_epoch s1) (events s1))
    | Err e => (Err e, s1)
    end.

(** Modelled from the spec: [LearningEngine.eval] (learning_engine.py is not
    among the sources) invokes the evaluator, which reads the weights and
    returns its statistics. *)
Definition eval (eng : HebbianEngine) : M (option Stats) :=
  _ <~ log Eval ;;
  W <~ get_weight ;;
  retM (Some (evaluator eng W)).

(** Modelled from the spec: [LearningEngine.checkpoint] hands the model, and
    the statistics when given, to the checkpoint sink. *)
Definition checkpoint (stats : option Stats) : M unit :=
  log (Checkpoint (match stats with Some _ => true | None => false end)).

(** [np.reshape(inputs.squeeze(), (inputs.shape[0], -1))].  A batch is
    represented by its samples, each already flat; the reshape leaves that
    as it is, and is refused for a batch without samples, for which the
    free dimension is undetermined. *)
Definition reshape_flat (inputs : Tensor) : result Tensor :=
  if (nrows inputs =? 0)%nat then Err ValueError else Ok inputs.

(** Python's [a % b] on integers. *)
Definition py_mod (a b : Z) : result Z :=
  if (b =? 0)%Z then Err ZeroDivisionError else Ok (a mod b)%Z.

(** [HebbianEngine._train_step]; the labels are only counted for the log.
    Line 25 hands the weights to the rule as a numpy array
    ([weight.detach().numpy()]), line 26 expects a numpy array back
    ([torch.from_numpy]). *)
Definition _train_step (eng : HebbianEngine) (inputs : Tensor) (labels : list Z) : M unit :=
  inputs <~ lift (reshape_flat inputs) ;;
  weight <~ get_weight ;;
  let weights_np := np_ndarray weight in
  d_w <~ lift (rule_update (learning_rule eng) inputs weights_np) ;;
  d_p <~ lift (from_numpy d_w) ;;
  local_step d_p.

(** [for i, x in enumerate(xs): body] *)
Fixpoint for_each {A : Type} (xs : list A) (i : nat) (body : nat -> A -> M unit) : M unit :=
  match xs with
  | [] => retM tt
  | x :: xs' => _ <~ body i x ;; for_each xs' (S i) body
  end.

Definition DataLoader : Type := list (Tensor * list Z).

(** Lines 56-86: one iteration of the training loop.  Line 66 reads
    [progress_bar.n], the counter of the tqdm bar, which tqdm brings up to
    date only when it redraws the bar; what it holds at batch [n] of the
    epoch is the engine's [progress_n epoch n]. *)
Definition train_epoch (eng : HebbianEngine) (data_loader : DataLoader)
    (eval_every checkpoint_every : option Z) (epoch : nat) : M unit :=
  let vis_epoch := (epoch + 1)%nat in
  let epoch_step := (epoch * length data_loader)%nat in
  lr <~ get_last_lr ;;
  _ <~ log (LogLearningRate lr) ;;
  _ <~ when (visualizer eng) (log (VisualizeLearningRate lr epoch_step)) ;;
  _ <~ for_each data_loader 0
         (fun n batch =>
            let step := (epoch_step + progress_n eng epoch n)%nat in
            _ <~ _train_step eng (fst batch) (snd batch) ;;
            when (visualizer eng) (log (VisualizeWeights step))) ;;
  _ <~ scheduler_step eng ;;
  stats <~ match eval_every with
           | Some every =>
               r <~ lift (py_mod (Z.of_nat vis_epoch) every) ;;
               if (r =? 0)%Z then eval eng else retM None
           | None => retM None
           end ;;
  match checkpoint_every with
  | Some every =>
      r <~ lift (py_mod (Z.of_nat vis_epoch) every) ;;
      if (r =? 0)%Z then checkpoint stats else retM tt
  | None => retM tt
  end.

(** [HebbianEngine.train].  Line 33 takes the first batch of the loader
    (the images are 4-D, as line 34 requires); lines 42-48 draw new weights
    for the trained layer, [noise] being the draw of
    [weights.data.normal_(mean=0.0, std=1.0)]. *)
Definition train (eng : HebbianEngine) (noise : nat -> nat -> Q)
    (data_loader : DataLoader) (epochs : nat)
    (eval_every checkpoint_every : option Z) : M unit :=
  _ <~ lift (match data_loader with
             | [] => Err StopIteration
             | _ :: _ => Ok tt
             end) ;;
  W <~ get_weight ;;
  _ <~ set_weight (tabulate (nrows W) (ncols W) noise) ;;
  _ <~ when (visualizer eng) (log (VisualizeWeights 0)) ;;
  for_each (seq 0 epochs) 0
    (fun _ epoch => train_epoch eng data_loader eval_every checkpoint_every epoch).

(** The schedule of [main]: [lambda epoch: 1 - epoch / epochs]. *)
Definition main_lr_lambda (epochs : nat) (epoch : nat) : result Q :=
  if (epochs =? 0)%nat then Err ZeroDivisionError
  else Ok (1 - inject_Z (Z.of_nat epoch) / inject_Z (Z.of_nat epochs)).

(** [LambdaLR(optimizer, lr_lambda)] on a fresh optimizer of rate [lr]:
    the constructor makes the initial step, to epoch 0. *)
Definition LambdaLR (lr : Q) (lr_lambda : nat -> result Q) (W : Tensor)
  : result EngineState :=
  f <- lr_lambda 0%nat ;;
  Ok (mkEngineState W (lr * f) 0 []).

(** The engine that [main] builds; [bar] is what the progress bar will
    show when it is read. *)
Definition main_engine (rule : KrotovsRule) (lr : Q) (epochs : nat)
    (evaluator : Tensor -> Stats) (bar : nat -> nat -> nat) : HebbianEngine :=
  mkHebbianEngine (KrotovsRule_rule rule) lr (main_lr_lambda epochs) evaluator true bar.

(** *** The trace of a completed run *)

(** [every is not None and vis_epoch % every == 0] *)
Definition due (every : option Z) (vis_epoch : nat) : bool :=
  match every with
  | Some n => (Z.of_nat vis_epoch mod n =? 0)%Z
  | None => false
  end.

(** The events of batch [n] of an epoch; [step n] is the step number of
    its weight image. *)
Definition batch_events (vis : bool) (step : nat -> nat) (n : nat) : list event :=
  LocalStep :: (if vis then [VisualizeWeights (step n)] else []).

(** The events one completed epoch appends: the rate is read, every batch
    is stepped, the schedule advances, then evaluation and checkpointing
    when they are due. *)
Definition epoch_events (vis : bool) (bar : nat -> nat -> nat) (nb : nat)
    (eval_every checkpoint_every : option Z) (epoch : nat) (lr : Q) : list event :=
  [LogLearningRate lr]
  ++ (if vis then [VisualizeLearningRate lr (epoch * nb)] else [])
  ++ flat_map (batch_events vis (fun n => (epoch * nb + bar epoch n)%nat)) (seq 0 nb)
  ++ [SchedulerStep]
  ++ (if due eval_every (epoch + 1) then [Eval] else [])
  ++ (if due checkpoint_every (epoch + 1)
      then [Checkpoint (due eval_every (epoch + 1))] else []).

(** The rate in force [j] epochs after state [st]: the current one, then
    what the scheduler sets. *)
Definition lr_at (eng : HebbianEngine) (st : EngineState) (j : nat) : Q :=
  match j with
  | O => optimizer_lr st
  | S _ => base_lr eng * match lr_lambda eng (last_epoch st + j) with
                         | Ok f => f
                         | Err _ => 0
                         end
  end.

(** Projections of the trace. *)
Definition is_cadence_event (e : event) : bool :=
  match e with
  | SchedulerStep | Eval | Checkpoint _ => true
  | _ => false
  end.


Definition is_schedule_event (e : event) : bool :=
  match e with
  | LogLearningRate _ | LocalStep | SchedulerStep => true
  | _ => false
  end.


(** A batch the layer of weight [W] can be trained on. *)
Definition batch_fits (W : Tensor) (batch : Tensor * list Z) : Prop :=
  (1 <= nrows (fst batch))%nat /\ (1 <= ncols (fst batch))%nat /\
  ncols (fst batch) = ncols W.

(** A batch on which a step with the rule [r] completes, whatever the
    weights of the shape of [W0] are: the batch has samples, and the rule,
    given the weights as a numpy array, returns a numpy array of their
    shape. *)
Definition rule_accepts (r : LearningRule) (W0 : Tensor) (batch : Tensor * list Z) : Prop :=
  (1 <= nrows (fst batch))%nat /\
  forall W, nrows W = nrows W0 -> ncols W = ncols W0 ->
    exists d, rule_update r (fst batch) (np_ndarray W) = Ok (np_ndarray d) /\
              nrows d = nrows W /\ ncols d = ncols W.

(** ** [update] on tensor objects

    The same statements once more, this time on references to tensor
    objects in a store, to see what a call does to the objects of its
    caller.  The store holds the objects that exist when the call starts
    ([old_objs]) and those the call creates ([new_objs]).  [torch.t] returns a
    view: a reference to the same object; every other operation of the rule
    creates its result, and the indexed assignment writes into the object it
    is applied to.  Index tensors, the row sums and scalars are values. *)

Inductive region : Type := Old | New.

Record ref : Type := mkRef {
  region_of : region;
  loc : nat;
  transposes : nat
}.

Record Store : Type := mkStore {
  old_objs : list Tensor;
  new_objs : list Tensor
}.

Definition Heap (A : Type) : Type := ST Store A.

Definition objs (st : Store) (r : region) : list Tensor :=
  match r with
  | Old => old_objs st
  | New => new_objs st
  end.

(** The tensor a reference denotes: the object, seen through its views. *)
Definition deref (st : Store) (r : ref) : option Tensor :=
  option_map (Nat.iter (transposes r) torch.t) (nth_error (objs st (region_of r)) (loc r)).

Fixpoint list_set {A : Type} (n : nat) (x : A) (l : list A) : list A :=
  match l, n with
  | [], _ => []
  | _ :: l', O => x :: l'
  | y :: l', S n' => y :: list_set n' x l'
  end.

Definition read (r : ref) : Heap Tensor :=
  fun st => match deref st r with
            | Some T => (Ok T, st)
            | None => (Err RuntimeError, st)
            end.

Definition alloc (T : Tensor) : Heap ref :=
  fun st => (Ok (mkRef New (length (new_objs st)) 0),
             mkStore (old_objs st) (new_objs st ++ [T])).

(** Overwrite the object behind [r] so that [r] now denotes [T]. *)
Definition write (r : ref) (T : Tensor) : Heap unit :=
  fun st =>
    let T' := Nat.iter (transposes r) torch.t T in
    match region_of r with
    | Old => (Ok tt, mkStore (list_set (loc r) T' (old_objs st)) (new_objs st))
    | New => (Ok tt, mkStore (old_objs st) (list_set (loc r) T' (new_objs st)))
    end.

Definition h_t (r : ref) : Heap ref :=
  retM (mkRef (region_of r) (loc r) (S (transposes r))).

Definition h_op1 (f : Tensor -> Tensor) (a : ref) : Heap ref :=
  A <~ read a ;; alloc (f A).

Definition h_op2 (f : Tensor -> Tensor -> result Tensor) (a b : ref) : Heap ref :=
  A <~ read a ;; B <~ read b ;; C <~ lift (f A B) ;; alloc C.

Definition h_index_put (a : ref) (ridx cidx : list nat) (v : Q) : Heap unit :=
  A <~ read a ;; A' <~ lift (index_put A ridx cidx v) ;; write a A'.

(** [KrotovsRule.update] on references. *)
Definition update_heap (self : KrotovsRule) (inputs weights : ref) : Heap ref :=
  X <~ read inputs ;;
  W <~ read weights ;;
  let batch_size := nrows X in
  let num_hidden_units := nrows W in
  row0 <~ lift (tensor_row X 0) ;;
  let input_size := length row0 in
  inputs <~ h_t inputs ;;
  _ <~ lift (py_assert (k self <=? Z.of_nat num_hidden_units)%Z assert_msg) ;;
  sgn <~ h_op1 torch.sign weights ;;
  ab <~ h_op1 torch.abs weights ;;
  pw <~ h_op1 (fun T => torch.pow T (norm self - 1)) ab ;;
  sw <~ h_op2 torch.mul sgn pw ;;
  tot_input <~ h_op2 torch.matmul sw inputs ;;
  S <~ read tot_input ;;
  indices <~ lift (torch.topk S (k self)) ;;
  activations <~ alloc (torch.zeros num_hidden_units batch_size) ;;
  i0 <~ lift (getitem indices 0) ;;
  _ <~ h_index_put activations i0 (torch.arange batch_size) 1 ;;
  ik <~ lift (getitem indices (k self - 1)) ;;
  _ <~ h_index_put activations ik (torch.arange batch_size) (- delta self) ;;
  ax <~ h_op2 torch.mul activations tot_input ;;
  AX <~ read ax ;;
  let xx := torch.sum AX in
  vr <~ alloc (view_repeat xx input_size) ;;
  norm_factor <~ h_op2 torch.mul vr weights ;;
  inputs_t <~ h_t inputs ;;
  hebb <~ h_op2 torch.matmul activations inputs_t ;;
  ds <~ h_op2 torch.sub hebb norm_factor ;;
  ads <~ h_op1 torch.abs ds ;;
  ADS <~ read ads ;;
  nc <~ lift (torch.max ADS) ;;
  let nc := if Qltb nc (precision self) then precision self else nc in
  h_op1 (fun T => torch.true_divide T nc) ds.

(** The tensor a call returns, read in the store the call leaves. *)
Definition returned (r : result ref * Store) : result Tensor :=
  match fst r with
  | Ok d => match deref (snd r) d with
            | Some T => Ok T
            | None => Err RuntimeError
            end
  | Err e => Err e
  end.

(** ** [KrotovsRule.update_np] (krotov.py, lines 98-127)

    The same rule on numpy arrays.  numpy raises [ValueError] where the
    tensor backend raises [RuntimeError], the method has no assertion on
    [k], and [np.argsort] is modelled by the same stable sort as
    [torch.argsort]. *)

Module np.

(** [np.transpose] of a 2-D array *)
Definition transpose (T : Tensor) : Tensor := torch.t T.

Definition sign (T : Tensor) : Tensor := torch.sign T.

Definition absolute (T : Tensor) : Tensor := torch.abs T.

(** [T ** e] *)
Definition power (T : Tensor) (e : Z) : Tensor := torch.pow T e.

(** Elementwise binary operations on arrays of equal shapes. *)
Definition zip (f : Q -> Q -> Q) (A B : Tensor) : result Tensor :=
  if same_shape A B
  then Ok (tabulate (nrows A) (ncols A) (fun i j => f (get A i j) (get B i j)))
  else Err ValueError.

Definition multiply : Tensor -> Tensor -> result Tensor := zip Qmult.

(** [A - B] *)
Definition subtract : Tensor -> Tensor -> result Tensor := zip Qminus.

(** [np.dot] of an (n, m) by an (m, p) array *)
Definition dot (A B : Tensor) : result Tensor :=
  if (ncols A =? nrows B)%nat
  then Ok (tabulate (nrows A) (ncols B)
             (fun i j => Qsum (map (fun d => get A i d * get B d j) (seq 0 (ncols A)))))
  else Err ValueError.

(** [np.argsort(T, axis=0)] *)
Definition argsort (T : Tensor) : IndexTensor :=
  rows_of_columns (nrows T)
    (map (fun j => argsort_col (column T j)) (seq 0 (ncols T))).

Definition zeros (r c : nat) : Tensor := tabulate r c (fun _ _ => 0).

Definition arange (n : nat) : list nat := seq 0 n.

(** [np.sum(T, 1)] *)
Definition sum (T : Tensor) : list Q :=
  map (fun i => Qsum (map (fun j => get T i j) (seq 0 (ncols T)))) (seq 0 (nrows T)).

(** [np.tile(xx.reshape(xx.shape[0], 1), (1, n))] *)
Definition tile (xx : list Q) (n : nat) : Tensor :=
  tabulate (length xx) n (fun i _ => nth i xx 0).

(** [np.amax] of all entries; refused for an array without entries. *)
Definition amax (T : Tensor) : result Q :=
  match elements T with
  | [] => Err ValueError
  | x :: l => Ok (fold_left Qmax l x)
  end.

Definition true_divide (T : Tensor) (s : Q) : Tensor := map_tensor (fun q => q / s) T.

End np.

(** Line 112: the overlap; [inputs] is the transposed batch. *)
Definition np_overlap (self : KrotovsRule) (synapses inputs : Tensor) : result Tensor :=
  let p := norm self in
  let sig := np.sign synapses in
  sw <- np.multiply sig (np.power (np.absolute synapses) (p - 1)) ;;
  np.dot sw inputs.

(** Lines 114-117: the selection. *)
Definition np_activations (self : KrotovsRule) (tot_input : Tensor) (hid Num : nat)
  : result Tensor :=
  let delta := delta self in
  let k := k self in
  let y := np.argsort tot_input in
  let yl := np.zeros hid Num in
  y_last <- getitem y (Z.of_nat hid - 1) ;;
  yl <- index_put yl y_last (np.arange Num) 1 ;;
  y_k <- getitem y (Z.of_nat hid - k) ;;
  index_put yl y_k (np.arange Num) (- delta).

(** Lines 119-120: the raw delta. *)
Definition np_raw_delta (yl tot_input inputs : Tensor) (N : nat) (synapses : Tensor)
  : result Tensor :=
  yt <- np.multiply yl tot_input ;;
  let xx := np.sum yt in
  hebb <- np.dot yl (np.transpose inputs) ;;
  decay <- np.multiply (np.tile xx N) synapses ;;
  np.subtract hebb decay.

(** Lines 122-125: the normalisation. *)
Definition np_normalize (self : KrotovsRule) (ds : Tensor) : result Tensor :=
  let prec := precision self in
  nc <- np.amax (np.absolute ds) ;;
  let nc := if Qltb nc prec then prec else nc in
  Ok (np.true_divide ds nc).

(** [KrotovsRule.update_np] *)
Definition update_np (self : KrotovsRule) (inputs synapses : Tensor) : result Tensor :=
  let hid := nrows synapses in
  let Num := nrows inputs in
  row0 <- tensor_row inputs 0 ;;
  let N := length row0 in
  let inputs := np.transpose inputs in
  tot_input <- np_overlap self synapses inputs ;;
  yl <- np_activations self tot_input hid Num ;;
  ds <- np_raw_delta yl tot_input inputs N synapses ;;
  np_normalize self ds.

(** *** What a call raises

    The exception of a call, in the order in which the statements of the
    method meet it; [None] when the call returns. *)

Definition update_raises (self : KrotovsRule) (inputs weights : Tensor) : option exn :=
  if (nrows inputs =? 0)%nat then Some IndexError
  else if (Z.of_nat (nrows weights) <? k self)%Z then Some (AssertionError assert_msg)
  else if negb (ncols weights =? ncols inputs)%nat then Some RuntimeError
  else if (k self <? 0)%Z then Some RuntimeError
  else if (k self =? 0)%Z then Some IndexError
  else if (ncols inputs =? 0)%nat then Some RuntimeError
  else None.

Definition update_argsort_raises (self : KrotovsRule) (inputs weights : Tensor)
  : option exn :=
  if (nrows inputs =? 0)%nat then Some IndexError
  else if (Z.of_nat (nrows weights) <? k self)%Z then Some (AssertionError assert_msg)
  else if negb (ncols weights =? ncols inputs)%nat then Some RuntimeError
  else if (k self <? 1)%Z then Some IndexError
  else if (ncols inputs =? 0)%nat then Some RuntimeError
  else None.

Definition update_np_raises (self : KrotovsRule) (inputs synapses : Tensor)
  : option exn :=
  if (nrows inputs =? 0)%nat then Some IndexError
  else if negb (ncols synapses =? ncols inputs)%nat then Some ValueError
  else if (nrows synapses =? 0)%nat then Some IndexError
  else if ((k self <? 1) || (2 * Z.of_nat (nrows synapses) <? k self))%Z
       then Some IndexError
  else if (ncols inputs =? 0)%nat then Some ValueError
  else None.

(** The rule with another rank. *)
Definition with_k (self : KrotovsRule) (k' : Z) : KrotovsRule :=
  mkKrotovsRule (precision self) (delta self) (norm self) k'.

(** *** More projections of the trace *)


(** Two states of the engine that differ at most in the events so far. *)
Definition same_but_events (s1 s2 : EngineState) : Prop :=
  layer_weight s1 = layer_weight s2 /\ optimizer_lr s1 = optimizer_lr s2 /\
  last_epoch s1 = last_epoch s2.

(** A computation whose result and whose effect on weights, rate and epoch
    counter do not depend on the events so far. *)
Definition blind_to_events {A : Type} (m : M A) : Prop :=
  forall s1 s2, same_but_events s1 s2 ->
    fst (m s1) = fst (m s2) /\ same_but_events (snd (m s1)) (snd (m s2)).

(** ** Concrete tensors, rules and runs *)

Definition X_tie : Tensor := mkTensor 1 2 [[1; 1]].

Definition W_tie : Tensor := mkTensor 2 2 [[1; 0]; [0; 1]].

Definition W_half : Tensor := mkTensor 2 2 [[1; 0]; [0; 1 # 2]].

Definition rule_default : KrotovsRule :=
  mkKrotovsRule default_precision default_delta default_norm default_k.

Definition rule_k1 : KrotovsRule :=
  mkKrotovsRule default_precision default_delta default_norm 1.

(** *** Small runs of the engine *)

Definition ev0 (W : Tensor) : Stats := (0, 0).

Definition X_one : Tensor := mkTensor 1 1 [[1]].

Definition W_one : Tensor := mkTensor 2 1 [[1]; [1 # 2]].

Definition data_one : DataLoader := [(X_one, [1%Z])].

Definition noise_one (i j : nat) : Q := inject_Z (Z.of_nat (i + 1)).

(** A progress bar that is not redrawn during an epoch. *)
Definition bar_one (epoch n : nat) : nat := 0%nat.

(** The engine as [main] builds it, with Krotov's rule. *)
Definition engine_one : HebbianEngine := main_engine rule_default 1 4 ev0 bar_one.

(** A learning rule that meets the numpy interface of the engine: it makes
    the weights a tensor, calls [update] of Krotov's rule and makes the
    delta a numpy array. *)
Definition numpy_rule (self : KrotovsRule) : LearningRule :=
  mkLearningRule
    (fun inputs weights =>
       let W := match weights with torch_Tensor W | np_ndarray W => W end in
       d_w <- update self inputs W ;;
       Ok (np_ndarray d_w)).

(** The engine of [main] with that rule. *)
Definition engine_np : HebbianEngine :=
  mkHebbianEngine (numpy_rule rule_default) 1 (main_lr_lambda 4) ev0 true bar_one.

Definition state_one : EngineState := mkEngineState W_one (1 * (1 - 0 / 4)) 0 [].

Definition store_a : list Tensor := [X_tie; W_half].

Definition store_b : list Tensor := [W_half; W_tie; X_tie].

(** *** A layer of three hidden units *)

Definition W_three : Tensor := mkTensor 3 2 [[1; 0]; [0; 1 # 2]; [0; 1 # 4]].

(** The state of [state_one] with other weights of the same shape and some
    events already logged. *)
Definition state_other : EngineState :=
  mkEngineState (mkTensor 2 1 [[5]; [7]]) (1 * (1 - 0 / 4)) 0 [Eval; LocalStep].

(** * Properties *)

(** Closed side conditions on concrete tensors and hyperparameters. *)
Ltac concrete :=
  repeat split;
  first [ reflexivity
        | vm_compute; reflexivity
        | vm_compute; lia
        | vm_compute; discriminate ].

(** ** Basic facts about tensors and the error monad *)

Lemma get_tabulate (r c : nat) (f : nat -> nat -> Q) (i j : nat) :
  (i < r)%nat -> (j < c)%nat -> get (tabulate r c f) i j = f i j.
Proof.
  intros Hi Hj. unfold get, tabulate. simpl.
  rewrite (nth_indep _ [] (map (fun j0 => f 0%nat j0) (seq 0 c)))
    by (rewrite length_map, length_seq; exact Hi).
  rewrite (map_nth (fun i0 => map (fun j0 => f i0 j0) (seq 0 c)) (seq 0 r) 0%nat i).
  rewrite seq_nth by exact Hi. simpl.
  rewrite (nth_indep _ 0 (f i 0%nat))
    by (rewrite length_map, length_seq; exact Hj).
  rewrite (map_nth (fun j0 => f i j0) (seq 0 c) 0%nat j).
  rewrite seq_nth by exact Hj. reflexivity.
Qed.

Lemma bind_Ok_inv {A B : Type} (m : result A) (f : A -> result B) (b : B) :
  bind m f = Ok b -> exists a, m = Ok a /\ f a = Ok b.
Proof.
  destruct m as [a | e]; simpl; intros H.
  - exists a. split; [reflexivity | exact H].
  - discriminate H.
Qed.

Lemma same_shape_true (A B : Tensor) :
  same_shape A B = true <-> nrows A = nrows B /\ ncols A = ncols B.
Proof.
  unfold same_shape. rewrite andb_true_iff, !Nat.eqb_eq. reflexivity.
Qed.

Lemma zip_tensor_Ok (f : Q -> Q -> Q) (A B : Tensor) :
  nrows A = nrows B -> ncols A = ncols B ->
  zip_tensor f A B =
  Ok (tabulate (nrows A) (ncols A) (fun i j => f (get A i j) (get B i j))).
Proof.
  intros Hr Hc. unfold zip_tensor.
  destruct (same_shape A B) eqn:E; [reflexivity |].
  assert (same_shape A B = true) as E' by (apply same_shape_true; split; assumption).
  congruence.
Qed.

Lemma zip_tensor_inv (f : Q -> Q -> Q) (A B C : Tensor) :
  zip_tensor f A B = Ok C ->
  nrows A = nrows B /\ ncols A = ncols B /\
  C = tabulate (nrows A) (ncols A) (fun i j => f (get A i j) (get B i j)).
Proof.
  unfold zip_tensor. destruct (same_shape A B) eqn:E; intros H; [| discriminate H].
  apply same_shape_true in E. destruct E as [Hr Hc].
  injection H as <-. repeat split; assumption.
Qed.

Lemma matmul_Ok (A B : Tensor) :
  ncols A = nrows B ->
  torch.matmul A B =
  Ok (tabulate (nrows A) (ncols B)
        (fun i j => Qsum (map (fun d => get A i d * get B d j) (seq 0 (ncols A))))).
Proof.
  intros H. unfold torch.matmul. rewrite H, Nat.eqb_refl. reflexivity.
Qed.

Lemma matmul_inv (A B C : Tensor) :
  torch.matmul A B = Ok C ->
  ncols A = nrows B /\
  C = tabulate (nrows A) (ncols B)
        (fun i j => Qsum (map (fun d => get A i d * get B d j) (seq 0 (ncols A)))).
Proof.
  unfold torch.matmul. destruct (ncols A =? nrows B)%nat eqn:E; intros H; [| discriminate H].
  apply Nat.eqb_eq in E. injection H as <-. split; [exact E | reflexivity].
Qed.

(** *** Python indexing *)

Lemma getitem_nonneg {A : Type} (rows : list A) (i : nat) (d : A) :
  (i < length rows)%nat -> getitem rows (Z.of_nat i) = Ok (nth i rows d).
Proof.
  intros Hi. unfold getitem.
  destruct (Z.of_nat i <? 0)%Z eqn:E; [apply Z.ltb_lt in E; lia |].
  assert ((0 <=? Z.of_nat i)%Z && (Z.of_nat i <? Z.of_nat (length rows))%Z = true) as ->.
  { apply andb_true_iff. split; [apply Z.leb_le | apply Z.ltb_lt]; lia. }
  rewrite Nat2Z.id. rewrite (nth_error_nth' rows d Hi). reflexivity.
Qed.

Lemma getitem_empty {A : Type} (i : Z) : getitem (@nil A) i = Err IndexError.
Proof.
  unfold getitem. simpl.
  destruct (i <? 0)%Z eqn:E.
  - rewrite Z.add_0_r.
    assert ((0 <=? i)%Z = false) as -> by (apply Z.leb_gt; apply Z.ltb_lt in E; exact E).
    reflexivity.
  - destruct ((0 <=? i)%Z && (i <? 0)%Z) eqn:E2; [| reflexivity].
    apply andb_true_iff in E2. destruct E2 as [_ E2]. congruence.
Qed.

Lemma tensor_row_0 (T : Tensor) :
  (0 < nrows T)%nat ->
  exists row, tensor_row T 0 = Ok row /\ length row = ncols T.
Proof.
  intros H. unfold tensor_row.
  exists (nth 0 (map (fun r => map (fun j => get T r j) (seq 0 (ncols T))) (seq 0 (nrows T))) []).
  split.
  - apply (getitem_nonneg _ (i := 0%nat)). rewrite length_map, length_seq. exact H.
  - destruct (nrows T) as [| n]; [lia |]. simpl. rewrite length_map, length_seq. reflexivity.
Qed.

Lemma tensor_row_empty (T : Tensor) (i : Z) : nrows T = 0%nat -> tensor_row T i = Err IndexError.
Proof.
  intros H. unfold tensor_row. rewrite H. simpl. apply getitem_empty.
Qed.

(** ** The insertion sort: a sorted permutation *)

Section SortFacts.

Variable A : Type.
Variable le : A -> A -> bool.
Hypothesis le_total : forall x y, le x y = false -> le y x = true.
Hypothesis le_trans : forall x y z, le x y = true -> le y z = true -> le x z = true.

Lemma insert_perm (x : A) (l : list A) : Permutation (insert le x l) (x :: l).
Proof.
  induction l as [| y l IH]; simpl.
  - apply Permutation_refl.
  - destruct (le x y).
    + apply Permutation_refl.
    + eapply perm_trans; [apply perm_skip, IH | apply perm_swap].
Qed.

Lemma sort_perm (l : list A) : Permutation (sort le l) l.
Proof.
  induction l as [| x l IH]; simpl.
  - apply perm_nil.
  - eapply perm_trans; [apply insert_perm | apply perm_skip, IH].
Qed.

Lemma insert_sorted (x : A) (l : list A) :
  StronglySorted (fun a b => le a b = true) l ->
  StronglySorted (fun a b => le a b = true) (insert le x l).
Proof.
  induction 1 as [| y l Hs IH Hy]; simpl.
  - constructor; constructor.
  - destruct (le x y) eqn:E.
    + constructor.
      * constructor; assumption.
      * constructor; [exact E |].
        rewrite Forall_forall in Hy. apply Forall_forall.
        intros z Hz. apply le_trans with y; [exact E | apply Hy, Hz].
    + constructor; [exact IH |].
      rewrite Forall_forall in Hy. apply Forall_forall. intros z Hz.
      apply (Permutation_in _ (insert_perm x l)) in Hz.
      destruct Hz as [<- | Hz]; [apply le_total; exact E | apply Hy, Hz].
Qed.

Lemma sort_sorted (l : list A) :
  StronglySorted (fun a b => le a b = true) (sort le l).
Proof.
  induction l as [| x l IH]; simpl; [constructor | apply insert_sorted; exact IH].
Qed.

End SortFacts.

Section SortedLists.

Variable A : Type.

Lemma StronglySorted_app (R : A -> A -> Prop) (l1 l2 : list A) :
  StronglySorted R l1 -> StronglySorted R l2 ->
  (forall x y, In x l1 -> In y l2 -> R x y) ->
  StronglySorted R (l1 ++ l2).
Proof.
  induction l1 as [| a l1 IH]; simpl; intros H1 H2 H12; [exact H2 |].
  inversion H1 as [| ? ? Hs Ha]; subst. constructor.
  - apply IH; auto.
  - apply Forall_app. split; [exact Ha |].
    apply Forall_forall. intros y Hy. apply H12; auto.
Qed.

Lemma StronglySorted_rev (R : A -> A -> Prop) (l : list A) :
  StronglySorted R l -> StronglySorted (fun a b => R b a) (rev l).
Proof.
  induction 1 as [| a l Hs IH Ha]; simpl; [constructor |].
  apply StronglySorted_app; [exact IH | repeat constructor |].
  intros x y Hx [<- | []]. rewrite Forall_forall in Ha. apply Ha, in_rev, Hx.
Qed.

(** On a duplicate-free list the order may be refined on distinct members. *)
Lemma StronglySorted_refine (R R' : A -> A -> Prop) (l : list A) :
  NoDup l ->
  (forall a b, In a l -> In b l -> a <> b -> R a b -> R' a b) ->
  StronglySorted R l -> StronglySorted R' l.
Proof.
  intros Hnd Himp Hs. induction Hs as [| a l Hs IH Ha]; [constructor |].
  inversion Hnd as [| ? ? Hnotin Hnd']; subst. constructor.
  - apply IH; [exact Hnd' |]. intros x y Hx Hy. apply Himp; right; assumption.
  - rewrite Forall_forall in *. intros y Hy. apply Himp.
    + left; reflexivity.
    + right; exact Hy.
    + intros ->. exact (Hnotin Hy).
    + apply Ha, Hy.
Qed.

(** A strict order has at most one sorted arrangement of given members. *)
Lemma sorted_perm_unique (R : A -> A -> Prop) :
  (forall a b, R a b -> R b a -> False) ->
  forall l1 l2, StronglySorted R l1 -> StronglySorted R l2 ->
                Permutation l1 l2 -> l1 = l2.
Proof.
  intros Hasym. induction l1 as [| a l1 IH]; intros l2 H1 H2 HP.
  - apply Permutation_nil in HP. symmetry; exact HP.
  - destruct l2 as [| b l2].
    + apply Permutation_sym, Permutation_nil in HP. discriminate HP.
    + inversion H1 as [| ? ? Hs1 Ha]; subst.
      inversion H2 as [| ? ? Hs2 Hb]; subst.
      rewrite Forall_forall in Ha, Hb.
      assert (a = b) as ->.
      { assert (In a (b :: l2)) as Hin1
            by (apply (Permutation_in _ HP); left; reflexivity).
        assert (In b (a :: l1)) as Hin2
            by (apply (Permutation_in _ (Permutation_sym HP)); left; reflexivity).
        destruct Hin1 as [E | Hin1]; [symmetry; exact E |].
        destruct Hin2 as [E | Hin2]; [exact E |].
        exfalso. apply (Hasym a b); [apply Ha, Hin2 | apply Hb, Hin1]. }
      f_equal. apply IH; try assumption.
      apply Permutation_cons_inv with b. exact HP.
Qed.

End SortedLists.

(** ** Ranking one column *)

Lemma Qle_bool_total (x y : Q) : Qle_bool x y = false -> Qle_bool y x = true.
Proof.
  intros H. apply Qle_bool_iff.
  destruct (Qlt_le_dec x y) as [Hlt | Hle]; [| exact Hle].
  apply Qlt_le_weak, Qle_bool_iff in Hlt. congruence.
Qed.

Lemma Qle_bool_trans (x y z : Q) :
  Qle_bool x y = true -> Qle_bool y z = true -> Qle_bool x z = true.
Proof.
  rewrite !Qle_bool_iff. apply Qle_trans.
Qed.

Lemma argsort_col_perm (vals : list Q) :
  Permutation (argsort_col vals) (seq 0 (length vals)).
Proof. apply sort_perm. Qed.

Lemma sort_desc_col_perm (vals : list Q) :
  Permutation (sort_desc_col vals) (seq 0 (length vals)).
Proof. apply sort_perm. Qed.

Lemma argsort_col_sorted (vals : list Q) :
  StronglySorted (fun i j => nth i vals 0 <= nth j vals 0) (argsort_col vals).
Proof.
  unfold argsort_col.
  eapply StronglySorted_refine with
      (R := fun i j => Qle_bool (nth i vals 0) (nth j vals 0) = true).
  - apply (Permutation_NoDup (Permutation_sym (argsort_col_perm vals))), seq_NoDup.
  - intros a b _ _ _ H. apply Qle_bool_iff, H.
  - apply sort_sorted.
    + intros x y. apply Qle_bool_total.
    + intros x y z. apply Qle_bool_trans.
Qed.

Lemma sort_desc_col_sorted (vals : list Q) :
  StronglySorted (fun i j => nth j vals 0 <= nth i vals 0) (sort_desc_col vals).
Proof.
  unfold sort_desc_col.
  eapply StronglySorted_refine with
      (R := fun i j => Qle_bool (nth j vals 0) (nth i vals 0) = true).
  - apply (Permutation_NoDup (Permutation_sym (sort_desc_col_perm vals))), seq_NoDup.
  - intros a b _ _ _ H. apply Qle_bool_iff, H.
  - apply sort_sorted.
    + intros x y. apply Qle_bool_total.
    + intros x y z H1 H2. eapply Qle_bool_trans; eassumption.
Qed.

Lemma sort_desc_col_strict (vals : list Q) :
  no_ties vals ->
  StronglySorted (fun i j => nth j vals 0 < nth i vals 0) (sort_desc_col vals).
Proof.
  intros Hnt.
  assert (forall a, In a (sort_desc_col vals) -> (a < length vals)%nat) as Hin.
  { intros a Ha. apply (Permutation_in _ (sort_desc_col_perm vals)) in Ha.
    apply in_seq in Ha. lia. }
  eapply StronglySorted_refine; [| | apply sort_desc_col_sorted].
  - apply (Permutation_NoDup (Permutation_sym (sort_desc_col_perm vals))), seq_NoDup.
  - intros a b Ha Hb Hab Hle. simpl in Hle.
    apply Qle_lt_or_eq in Hle. destruct Hle as [Hlt | Heq]; [exact Hlt |].
    exfalso. apply (Hnt b a); auto.
Qed.

Lemma argsort_col_strict (vals : list Q) :
  no_ties vals ->
  StronglySorted (fun i j => nth i vals 0 < nth j vals 0) (argsort_col vals).
Proof.
  intros Hnt.
  assert (forall a, In a (argsort_col vals) -> (a < length vals)%nat) as Hin.
  { intros a Ha. apply (Permutation_in _ (argsort_col_perm vals)) in Ha.
    apply in_seq in Ha. lia. }
  eapply StronglySorted_refine; [| | apply argsort_col_sorted].
  - apply (Permutation_NoDup (Permutation_sym (argsort_col_perm vals))), seq_NoDup.
  - intros a b Ha Hb Hab Hle. simpl in Hle.
    apply Qle_lt_or_eq in Hle. destruct Hle as [Hlt | Heq]; [exact Hlt |].
    exfalso. apply (Hnt a b); auto.
Qed.

(** Without ties the descending ranking is the ascending one read backwards. *)
Lemma sort_desc_col_rev (vals : list Q) :
  no_ties vals -> sort_desc_col vals = rev (argsort_col vals).
Proof.
  intros Hnt.
  apply sorted_perm_unique with (R := fun i j => nth j vals 0 < nth i vals 0).
  - intros a b H1 H2. apply (Qlt_irrefl (nth a vals 0)). eapply Qlt_trans; eassumption.
  - apply sort_desc_col_strict, Hnt.
  - apply (StronglySorted_rev (argsort_col_strict Hnt)).
  - eapply perm_trans; [apply sort_desc_col_perm |].
    eapply perm_trans; [apply Permutation_sym, argsort_col_perm | apply Permutation_rev].
Qed.

(** ** The stages of [update] on a valid call *)

Lemma tabulate_ext (r c : nat) (f g : nat -> nat -> Q) :
  (forall i j, (i < r)%nat -> (j < c)%nat -> f i j = g i j) ->
  tabulate r c f = tabulate r c g.
Proof.
  intros H. unfold tabulate. f_equal.
  apply map_ext_in. intros i Hi. apply map_ext_in. intros j Hj.
  apply in_seq in Hi. apply in_seq in Hj. apply H; lia.
Qed.

Lemma prologue_Ok (self : KrotovsRule) (inputs weights : Tensor) :
  (1 <= nrows inputs)%nat -> (k self <= Z.of_nat (nrows weights))%Z ->
  prologue self inputs weights =
  Ok (nrows inputs, nrows weights, ncols inputs, torch.t inputs).
Proof.
  intros HB Hk. unfold prologue.
  destruct (tensor_row_0 inputs HB) as [row [E L]]. rewrite E. simpl.
  rewrite L. apply Z.leb_le in Hk. rewrite Hk. reflexivity.
Qed.

Lemma prologue_inv (self : KrotovsRule) (inputs weights : Tensor) p :
  prologue self inputs weights = Ok p ->
  p = (nrows inputs, nrows weights, ncols inputs, torch.t inputs) /\
  (1 <= nrows inputs)%nat /\ (k self <= Z.of_nat (nrows weights))%Z.
Proof.
  intros H.
  destruct (Nat.eq_dec (nrows inputs) 0) as [E0 | E0].
  { unfold prologue in H. rewrite (tensor_row_empty inputs 0 E0) in H. discriminate H. }
  assert (1 <= nrows inputs)%nat as HB by lia.
  destruct (Z_le_gt_dec (k self) (Z.of_nat (nrows weights))) as [Hk | Hk].
  - rewrite (prologue_Ok self inputs weights HB Hk) in H. injection H as <-. auto.
  - unfold prologue in H.
    destruct (tensor_row_0 inputs HB) as [row [E L]]. rewrite E in H. simpl in H.
    assert ((k self <=? Z.of_nat (nrows weights))%Z = false) as E1 by (apply Z.leb_gt; lia).
    rewrite E1 in H. discriminate H.
Qed.

Lemma overlap_Ok (self : KrotovsRule) (weights inputs : Tensor) :
  ncols weights = ncols inputs ->
  overlap self weights (torch.t inputs) =
  Ok (tabulate (nrows weights) (nrows inputs) (score_spec self weights inputs)).
Proof.
  intros HD. unfold overlap, torch.mul.
  rewrite zip_tensor_Ok by reflexivity. simpl bind.
  rewrite matmul_Ok by (simpl; exact HD). simpl nrows. simpl ncols.
  f_equal. apply tabulate_ext. intros h b Hh Hb. unfold score_spec.
  f_equal. apply map_ext_in. intros d Hd. apply in_seq in Hd.
  rewrite get_tabulate by lia.
  unfold torch.sign, torch.pow, torch.abs, torch.t, map_tensor. simpl nrows. simpl ncols.
  rewrite !get_tabulate by lia. reflexivity.
Qed.

Lemma overlap_inv (self : KrotovsRule) (weights inputs S : Tensor) :
  overlap self weights (torch.t inputs) = Ok S ->
  ncols weights = ncols inputs /\
  S = tabulate (nrows weights) (nrows inputs) (score_spec self weights inputs).
Proof.
  intros H.
  assert (ncols weights = ncols inputs) as HD.
  { unfold overlap in H. apply bind_Ok_inv in H. destruct H as [sw [H1 H2]].
    apply zip_tensor_inv in H1. destruct H1 as [_ [_ ->]].
    apply matmul_inv in H2. destruct H2 as [H2 _]. exact H2. }
  split; [exact HD |]. rewrite (overlap_Ok self weights inputs HD) in H.
  injection H as <-. reflexivity.
Qed.

(** *** Index tensors *)

Lemma rows_of_columns_length (n : nat) (cs : list (list nat)) :
  length (rows_of_columns n cs) = n.
Proof. unfold rows_of_columns. rewrite length_map, length_seq. reflexivity. Qed.

Lemma rows_of_columns_nth (n : nat) (cs : list (list nat)) (i : nat) :
  (i < n)%nat ->
  nth i (rows_of_columns n cs) [] = map (fun c => nth i c 0%nat) cs.
Proof.
  intros Hi. unfold rows_of_columns.
  rewrite (nth_indep _ [] (map (fun c => nth 0%nat c 0%nat) cs))
    by (rewrite length_map, length_seq; exact Hi).
  rewrite (map_nth (fun i0 => map (fun c => nth i0 c 0%nat) cs) (seq 0 n) 0%nat i).
  rewrite seq_nth by exact Hi. reflexivity.
Qed.

Lemma getitem_rows_of_columns (n : nat) (cs : list (list nat)) (i : nat) :
  (i < n)%nat ->
  getitem (rows_of_columns n cs) (Z.of_nat i) = Ok (map (fun c => nth i c 0%nat) cs).
Proof.
  intros Hi.
  rewrite (getitem_nonneg (rows_of_columns n cs) (i := i) [])
    by (rewrite rows_of_columns_length; exact Hi).
  rewrite rows_of_columns_nth by exact Hi. reflexivity.
Qed.

Lemma column_length (T : Tensor) (j : nat) : length (column T j) = nrows T.
Proof. unfold column. rewrite length_map, length_seq. reflexivity. Qed.

Lemma sort_desc_col_length (vals : list Q) : length (sort_desc_col vals) = length vals.
Proof.
  rewrite (Permutation_length (sort_desc_col_perm vals)). apply length_seq.
Qed.

Lemma argsort_col_length (vals : list Q) : length (argsort_col vals) = length vals.
Proof.
  rewrite (Permutation_length (argsort_col_perm vals)). apply length_seq.
Qed.

Lemma sort_desc_col_nth_lt (vals : list Q) (i : nat) :
  (i < length vals)%nat -> (nth i (sort_desc_col vals) 0 < length vals)%nat.
Proof.
  intros Hi.
  assert (In (nth i (sort_desc_col vals) 0%nat) (sort_desc_col vals)) as Hin
      by (apply nth_In; rewrite sort_desc_col_length; exact Hi).
  apply (Permutation_in _ (sort_desc_col_perm vals)), in_seq in Hin. lia.
Qed.

Lemma argsort_col_nth_lt (vals : list Q) (i : nat) :
  (i < length vals)%nat -> (nth i (argsort_col vals) 0 < length vals)%nat.
Proof.
  intros Hi.
  assert (In (nth i (argsort_col vals) 0%nat) (argsort_col vals)) as Hin
      by (apply nth_In; rewrite argsort_col_length; exact Hi).
  apply (Permutation_in _ (argsort_col_perm vals)), in_seq in Hin. lia.
Qed.

(** *** Writing one entry per column *)

Lemma combine_map_self (g : nat -> nat) (l : list nat) :
  combine (map g l) l = map (fun x => (g x, x)) l.
Proof.
  induction l as [| x l IH]; simpl; [reflexivity | rewrite IH; reflexivity].
Qed.

Lemma existsb_combine_seq (g : nat -> nat) (i j n : nat) :
  (j < n)%nat ->
  existsb (fun p => (fst p =? i)%nat && (snd p =? j)%nat)
          (combine (map g (seq 0 n)) (seq 0 n)) = (g j =? i)%nat.
Proof.
  intros Hj. rewrite combine_map_self. apply eq_true_iff_eq.
  rewrite existsb_exists, Nat.eqb_eq. split.
  - intros [p [Hin Hp]]. apply in_map_iff in Hin. destruct Hin as [x [<- _]].
    simpl in Hp. apply andb_true_iff in Hp. destruct Hp as [H1 H2].
    apply Nat.eqb_eq in H1. apply Nat.eqb_eq in H2. subst. reflexivity.
  - intros <-. exists (g j, j). split.
    + apply in_map_iff. exists j. split; [reflexivity | apply in_seq; lia].
    + simpl. rewrite !Nat.eqb_refl. reflexivity.
Qed.

Lemma index_put_arange (A : Tensor) (g : nat -> nat) (v : Q) :
  (forall j, (j < ncols A)%nat -> (g j < nrows A)%nat) ->
  index_put A (map g (seq 0 (ncols A))) (torch.arange (ncols A)) v =
  Ok (tabulate (nrows A) (ncols A)
        (fun i j => if (g j =? i)%nat then v else get A i j)).
Proof.
  intros Hg. unfold index_put, torch.arange.
  rewrite length_map, Nat.eqb_refl. simpl negb. cbv iota.
  assert (forallb (fun i => (i <? nrows A)%nat) (map g (seq 0 (ncols A))) = true) as ->.
  { apply forallb_forall. intros x Hx. apply in_map_iff in Hx.
    destruct Hx as [j [<- Hj]]. apply in_seq in Hj. apply Nat.ltb_lt, Hg. lia. }
  assert (forallb (fun j => (j <? ncols A)%nat) (seq 0 (ncols A)) = true) as ->.
  { apply forallb_forall. intros x Hx. apply in_seq in Hx. apply Nat.ltb_lt. lia. }
  simpl. f_equal. apply tabulate_ext. intros i j Hi Hj.
  rewrite existsb_combine_seq by exact Hj. reflexivity.
Qed.

Lemma index_put_column_writes (A : Tensor) (H B : nat) (g : nat -> nat) (v : Q) :
  nrows A = H -> ncols A = B ->
  (forall j, (j < B)%nat -> (g j < H)%nat) ->
  index_put A (map g (seq 0 B)) (torch.arange B) v =
  Ok (tabulate H B (fun i j => if (g j =? i)%nat then v else get A i j)).
Proof.
  intros <- <-. apply index_put_arange.
Qed.

(** *** The activation matrix *)

Lemma ranked_lt (S : Tensor) (r j : nat) :
  (r < nrows S)%nat -> (ranked S r j < nrows S)%nat.
Proof.
  intros Hr. unfold ranked.
  pose proof (@sort_desc_col_nth_lt (column S j) r) as H.
  rewrite column_length in H. exact (H Hr).
Qed.

Lemma ranked_asc_lt (S : Tensor) (p j : nat) :
  (p < nrows S)%nat -> (ranked_asc S p j < nrows S)%nat.
Proof.
  intros Hp. unfold ranked_asc.
  pose proof (@argsort_col_nth_lt (column S j) p) as H.
  rewrite column_length in H. exact (H Hp).
Qed.

Lemma two_writes (H B : nat) (delta : Q) (first second : nat -> nat) :
  (forall j, (j < B)%nat -> (first j < H)%nat) ->
  (forall j, (j < B)%nat -> (second j < H)%nat) ->
  (activations <- index_put (torch.zeros H B) (map first (seq 0 B)) (torch.arange B) 1 ;;
   index_put activations (map second (seq 0 B)) (torch.arange B) (- delta)) =
  Ok (tabulate H B (act_fn delta first second)).
Proof.
  intros H1 H2.
  rewrite (@index_put_column_writes (torch.zeros H B) H B first 1 eq_refl eq_refl H1).
  simpl bind.
  erewrite (@index_put_column_writes _ H B second (- delta));
    [| reflexivity | reflexivity | exact H2].
  f_equal. apply tabulate_ext. intros i j Hi Hj. unfold act_fn.
  destruct (second j =? i)%nat; [reflexivity |].
  rewrite get_tabulate by assumption.
  destruct (first j =? i)%nat; [reflexivity |].
  unfold torch.zeros. rewrite get_tabulate by assumption. reflexivity.
Qed.

Lemma topk_Ok (T : Tensor) (k : Z) :
  (0 <= k)%Z -> (k <= Z.of_nat (nrows T))%Z ->
  torch.topk T k =
  Ok (rows_of_columns (Z.to_nat k)
        (map (fun j => firstn (Z.to_nat k) (sort_desc_col (column T j)))
             (seq 0 (ncols T)))).
Proof.
  intros H0 H1. unfold torch.topk.
  apply Z.leb_le in H0. apply Z.leb_le in H1. rewrite H0, H1. reflexivity.
Qed.

Lemma activations_topk_Ok (self : KrotovsRule) (S : Tensor) :
  (1 <= k self)%Z -> (k self <= Z.of_nat (nrows S))%Z ->
  activations_topk self S (nrows S) (ncols S) =
  Ok (tabulate (nrows S) (ncols S)
        (act_fn (delta self) (ranked S 0) (ranked S (Z.to_nat (k self) - 1)))).
Proof.
  intros Hk1 HkH. unfold activations_topk.
  rewrite topk_Ok by lia. simpl bind.
  change 0%Z with (Z.of_nat 0).
  rewrite getitem_rows_of_columns by lia. simpl bind.
  replace (k self - 1)%Z with (Z.of_nat (Z.to_nat (k self) - 1)) by lia.
  rewrite getitem_rows_of_columns by lia.
  rewrite !map_map.
  rewrite (map_ext _ (ranked S 0)).
  2:{ intros j. rewrite nth_firstn.
      assert ((0 <? Z.to_nat (k self))%nat = true) as -> by (apply Nat.ltb_lt; lia).
      reflexivity. }
  rewrite (map_ext (fun j => nth (Z.to_nat (k self) - 1) _ 0%nat)
                   (ranked S (Z.to_nat (k self) - 1))).
  2:{ intros j. rewrite nth_firstn.
      assert ((Z.to_nat (k self) - 1 <? Z.to_nat (k self))%nat = true) as ->
          by (apply Nat.ltb_lt; lia).
      reflexivity. }
  match goal with
  | |- bind ?m ?f = _ =>
      change (bind m f) with
        (activations <- index_put (torch.zeros (nrows S) (ncols S))
                          (map (ranked S 0) (seq 0 (ncols S)))
                          (torch.arange (ncols S)) 1 ;;
         r <- Ok (map (ranked S (Z.to_nat (k self) - 1)) (seq 0 (ncols S))) ;;
         index_put activations r (torch.arange (ncols S)) (- delta self))
  end.
  simpl (r <- Ok _ ;; _).
  apply two_writes; intros j _; apply ranked_lt; lia.
Qed.

Lemma activations_argsort_Ok (self : KrotovsRule) (S : Tensor) :
  (1 <= k self)%Z -> (k self <= Z.of_nat (nrows S))%Z ->
  activations_argsort self S (nrows S) (ncols S) =
  Ok (tabulate (nrows S) (ncols S)
        (act_fn (delta self) (ranked_asc S (nrows S - 1))
                (ranked_asc S (nrows S - Z.to_nat (k self))))).
Proof.
  intros Hk1 HkH. unfold activations_argsort, torch.argsort.
  replace (Z.of_nat (nrows S) - 1)%Z with (Z.of_nat (nrows S - 1)) by lia.
  rewrite getitem_rows_of_columns by lia. simpl bind.
  replace (Z.of_nat (nrows S) - k self)%Z
    with (Z.of_nat (nrows S - Z.to_nat (k self))) by lia.
  rewrite getitem_rows_of_columns by lia.
  rewrite !map_map.
  change (fun x : nat => nth (nrows S - 1) (argsort_col (column S x)) 0%nat)
    with (ranked_asc S (nrows S - 1)).
  change (fun x : nat => nth (nrows S - Z.to_nat (k self)) (argsort_col (column S x)) 0%nat)
    with (ranked_asc S (nrows S - Z.to_nat (k self))).
  simpl (r <- Ok _ ;; _).
  apply two_writes; intros j _; apply ranked_asc_lt; lia.
Qed.

(** Without ties both selections point at the same two units. *)
Lemma ranked_asc_ranked (S : Tensor) (r j : nat) :
  no_ties (column S j) -> (r < nrows S)%nat ->
  ranked S r j = ranked_asc S (nrows S - Datatypes.S r) j.
Proof.
  intros Hnt Hr. unfold ranked, ranked_asc.
  rewrite (sort_desc_col_rev Hnt).
  rewrite rev_nth by (rewrite argsort_col_length, column_length; exact Hr).
  rewrite argsort_col_length, column_length. reflexivity.
Qed.

Lemma activations_agree (self : KrotovsRule) (S : Tensor) (H B : nat) :
  nrows S = H -> ncols S = B ->
  (1 <= k self)%Z -> (k self <= Z.of_nat H)%Z ->
  (forall j, (j < B)%nat -> no_ties (column S j)) ->
  activations_topk self S H B = activations_argsort self S H B.
Proof.
  intros <- <- Hk1 HkH Hnt.
  rewrite activations_topk_Ok, activations_argsort_Ok by assumption.
  f_equal. apply tabulate_ext. intros i j Hi Hj. unfold act_fn.
  rewrite (@ranked_asc_ranked S 0 j (Hnt j Hj)) by lia.
  rewrite (@ranked_asc_ranked S (Z.to_nat (k self) - 1) j (Hnt j Hj)) by lia.
  replace (nrows S - Datatypes.S (Z.to_nat (k self) - 1))%nat
    with (nrows S - Z.to_nat (k self))%nat by lia.
  reflexivity.
Qed.

(** *** The raw delta and its normalisation *)

Lemma raw_delta_inv (activations tot_input inputs : Tensor) (input_size : nat)
    (weights ds : Tensor) :
  raw_delta activations tot_input inputs input_size weights = Ok ds ->
  nrows ds = nrows weights /\ ncols ds = ncols weights /\
  exists f, ds = tabulate (nrows weights) (ncols weights) f.
Proof.
  unfold raw_delta. intros H.
  apply bind_Ok_inv in H. destruct H as [ax [H1 H]].
  apply bind_Ok_inv in H. destruct H as [nf [H2 H]].
  apply bind_Ok_inv in H. destruct H as [hebb [H3 H]].
  apply zip_tensor_inv in H2. destruct H2 as [Hr [Hc ->]].
  apply zip_tensor_inv in H. destruct H as [Hr' [Hc' ->]].
  simpl in Hr, Hc, Hr', Hc'. simpl nrows. simpl ncols.
  rewrite Hr', Hc', Hr, Hc. repeat split. eexists. reflexivity.
Qed.

Lemma raw_delta_Ok (activations tot_input inputs weights : Tensor) :
  nrows activations = nrows weights -> ncols activations = nrows inputs ->
  nrows tot_input = nrows weights -> ncols tot_input = nrows inputs ->
  ncols weights = ncols inputs ->
  exists ds,
    raw_delta activations tot_input (torch.t inputs) (ncols inputs) weights = Ok ds.
Proof.
  intros HA1 HA2 HS1 HS2 HD. unfold raw_delta, torch.mul, torch.sub.
  rewrite zip_tensor_Ok by congruence. simpl bind.
  rewrite zip_tensor_Ok.
  2:{ simpl. unfold torch.sum. rewrite length_map, length_seq. simpl. exact HA1. }
  2:{ simpl. symmetry. exact HD. }
  simpl bind.
  rewrite matmul_Ok by (simpl; exact HA2). simpl bind.
  rewrite zip_tensor_Ok.
  - eexists. reflexivity.
  - simpl. unfold torch.sum. rewrite length_map, length_seq. reflexivity.
  - simpl. reflexivity.
Qed.

Lemma Qltb_lt (x y : Q) : Qltb x y = true <-> x < y.
Proof.
  unfold Qltb. rewrite negb_true_iff. split.
  - intros H. apply Qnot_le_lt. intros Hle. apply Qle_bool_iff in Hle. congruence.
  - intros H. destruct (Qle_bool y x) eqn:E; [| reflexivity].
    apply Qle_bool_iff in E. exfalso. apply (Qlt_not_le _ _ H E).
Qed.

Lemma Qltb_ge (x y : Q) : Qltb x y = false <-> y <= x.
Proof.
  unfold Qltb. rewrite negb_false_iff. apply Qle_bool_iff.
Qed.

Lemma Qmax_either (x y : Q) : Qmax x y = x \/ Qmax x y = y.
Proof.
  unfold Qmax, GenericMinMax.gmax. destruct (x ?= y); auto.
Qed.

Lemma fold_max_In (l : list Q) (x : Q) : In (fold_left Qmax l x) (x :: l).
Proof.
  revert x. induction l as [| y l IH]; intros x; simpl.
  - left. reflexivity.
  - destruct (IH (Qmax x y)) as [E | Hin].
    + destruct (Qmax_either x y) as [E' | E'].
      * left. etransitivity; [symmetry; exact E' | exact E].
      * right. left. etransitivity; [symmetry; exact E' | exact E].
    + right. right. exact Hin.
Qed.

Lemma fold_max_ge_init (l : list Q) (x : Q) : x <= fold_left Qmax l x.
Proof.
  revert x. induction l as [| y l IH]; intros x; simpl.
  - apply Qle_refl.
  - eapply Qle_trans; [apply Q.le_max_l | apply IH].
Qed.

Lemma fold_max_ge (l : list Q) (x y : Q) : In y (x :: l) -> y <= fold_left Qmax l x.
Proof.
  revert x. induction l as [| z l IH]; intros x Hin.
  - destruct Hin as [<- | []]. apply Qle_refl.
  - simpl. destruct Hin as [<- | [<- | Hin]].
    + eapply Qle_trans; [apply Q.le_max_l | apply fold_max_ge_init].
    + eapply Qle_trans; [apply Q.le_max_r | apply fold_max_ge_init].
    + apply IH. right. exact Hin.
Qed.

Lemma In_elements (T : Tensor) (q : Q) :
  In q (elements T) <->
  exists i j, (i < nrows T)%nat /\ (j < ncols T)%nat /\ q = get T i j.
Proof.
  unfold elements. rewrite in_flat_map. split.
  - intros [i [Hi Hq]]. apply in_map_iff in Hq. destruct Hq as [j [<- Hj]].
    apply in_seq in Hi. apply in_seq in Hj. exists i, j. repeat split; lia.
  - intros [i [j [Hi [Hj ->]]]]. exists i. split; [apply in_seq; lia |].
    apply in_map_iff. exists j. split; [reflexivity | apply in_seq; lia].
Qed.

Lemma elements_map_tensor (f : Q -> Q) (T : Tensor) :
  elements (map_tensor f T) = map f (elements T).
Proof.
  unfold elements, map_tensor. simpl nrows. simpl ncols.
  rewrite !flat_map_concat_map, concat_map, map_map. f_equal.
  apply map_ext_in. intros i Hi. rewrite map_map.
  apply map_ext_in. intros j Hj. apply in_seq in Hi. apply in_seq in Hj.
  apply get_tabulate; lia.
Qed.

Lemma elements_nonempty (T : Tensor) :
  (1 <= nrows T)%nat -> (1 <= ncols T)%nat -> elements T <> [].
Proof.
  intros Hr Hc E.
  assert (In (get T 0 0) (elements T)) as Hin
      by (apply In_elements; exists 0%nat, 0%nat; repeat split; lia).
  rewrite E in Hin. exact Hin.
Qed.

Lemma torch_max_Ok (T : Tensor) :
  (1 <= nrows T)%nat -> (1 <= ncols T)%nat ->
  exists m, torch.max T = Ok m /\ In m (elements T) /\
            forall q, In q (elements T) -> q <= m.
Proof.
  intros Hr Hc. unfold torch.max.
  pose proof (elements_nonempty T Hr Hc) as Hne.
  destruct (elements T) as [| x l]; [congruence |].
  exists (fold_left Qmax l x). split; [reflexivity |]. split.
  - apply fold_max_In.
  - intros q Hq. apply fold_max_ge, Hq.
Qed.

Lemma normalize_inv (self : KrotovsRule) (ds d_w : Tensor) :
  normalize self ds = Ok d_w ->
  nrows d_w = nrows ds /\ ncols d_w = ncols ds /\
  exists f, d_w = tabulate (nrows ds) (ncols ds) f.
Proof.
  unfold normalize. intros H. apply bind_Ok_inv in H. destruct H as [nc [_ H]].
  injection H as <-. simpl. repeat split. eexists. reflexivity.
Qed.

Lemma update_unfold (self : KrotovsRule) (inputs weights : Tensor) :
  update self inputs weights =
  (ds <- update_ds self inputs weights ;; normalize self ds).
Proof.
  unfold update, update_ds.
  destruct (prologue self inputs weights) as [[[[b h] d] xt] | e]; simpl; [| reflexivity].
  destruct (overlap self weights xt) as [S | e]; simpl; [| reflexivity].
  destruct (activations_topk self S h b) as [A | e]; simpl; reflexivity.
Qed.

Lemma update_ds_unfold (self : KrotovsRule) (inputs weights : Tensor) :
  update_ds self inputs weights =
  (p <- prologue self inputs weights ;;
   let '(batch_size, num_hidden_units, input_size, inputs) := p in
   tot_input <- overlap self weights inputs ;;
   activations <- activations_topk self tot_input num_hidden_units batch_size ;;
   raw_delta activations tot_input inputs input_size weights).
Proof. reflexivity. Qed.

(** *** The whole of [update] on a valid call *)

Lemma column_nth (T : Tensor) (i j : nat) :
  (i < nrows T)%nat -> nth i (column T j) 0 = get T i j.
Proof.
  intros Hi. unfold column.
  rewrite (nth_indep _ 0 (get T 0%nat j)) by (rewrite length_map, length_seq; exact Hi).
  rewrite (map_nth (fun i0 => get T i0 j) (seq 0 (nrows T)) 0%nat i).
  rewrite seq_nth by exact Hi. reflexivity.
Qed.

Lemma update_tot_input_Ok (self : KrotovsRule) (inputs weights : Tensor) :
  (1 <= nrows inputs)%nat -> (k self <= Z.of_nat (nrows weights))%Z ->
  ncols weights = ncols inputs ->
  update_tot_input self inputs weights = Ok (scores self inputs weights).
Proof.
  intros HB Hk HD. unfold update_tot_input.
  rewrite prologue_Ok by assumption. simpl bind.
  apply overlap_Ok, HD.
Qed.

Lemma update_activations_Ok (self : KrotovsRule) (inputs weights : Tensor) :
  (1 <= nrows inputs)%nat -> ncols weights = ncols inputs ->
  (1 <= k self)%Z -> (k self <= Z.of_nat (nrows weights))%Z ->
  update_activations self inputs weights =
  Ok (tabulate (nrows weights) (nrows inputs)
        (act_fn (delta self) (ranked (scores self inputs weights) 0)
                (ranked (scores self inputs weights) (Z.to_nat (k self) - 1)))).
Proof.
  intros HB HD Hk1 HkH. unfold update_activations.
  rewrite prologue_Ok by assumption. simpl bind.
  rewrite overlap_Ok by exact HD. simpl bind.
  exact (@activations_topk_Ok self (scores self inputs weights) Hk1 HkH).
Qed.

Lemma update_ds_Ok (self : KrotovsRule) (inputs weights : Tensor) :
  valid_call self inputs weights ->
  exists ds, update_ds self inputs weights = Ok ds /\
             nrows ds = nrows weights /\ ncols ds = ncols weights.
Proof.
  intros (HB & HD1 & HD & Hk1 & HkH).
  pose proof (update_activations_Ok self inputs weights HB HD Hk1 HkH) as HA.
  unfold update_activations in HA. unfold update_ds.
  rewrite prologue_Ok in * by assumption. simpl bind in *.
  rewrite overlap_Ok in * by exact HD. simpl bind in *.
  rewrite HA. simpl bind.
  destruct (@raw_delta_Ok
              (tabulate (nrows weights) (nrows inputs)
                 (act_fn (delta self) (ranked (scores self inputs weights) 0)
                    (ranked (scores self inputs weights) (Z.to_nat (k self) - 1))))
              (tabulate (nrows weights) (nrows inputs) (score_spec self weights inputs))
              inputs weights eq_refl eq_refl eq_refl eq_refl HD) as [ds Hds].
  exists ds. split; [exact Hds |].
  apply raw_delta_inv in Hds. destruct Hds as [H1 [H2 _]]. split; assumption.
Qed.

Lemma normalize_Ok (self : KrotovsRule) (ds : Tensor) :
  (1 <= nrows ds)%nat -> (1 <= ncols ds)%nat ->
  exists d_w, normalize self ds = Ok d_w.
Proof.
  intros Hr Hc. unfold normalize.
  destruct (@torch_max_Ok (torch.abs ds) Hr Hc) as [m [Hm _]].
  rewrite Hm. simpl. eexists. reflexivity.
Qed.

Lemma update_Ok (self : KrotovsRule) (inputs weights : Tensor) :
  valid_call self inputs weights ->
  exists d_w, update self inputs weights = Ok d_w.
Proof.
  intros Hv. destruct (update_ds_Ok Hv) as [ds [Hds [Hr Hc]]].
  destruct Hv as (HB & HD1 & HD & Hk1 & HkH).
  rewrite update_unfold, Hds. simpl bind.
  apply normalize_Ok; lia.
Qed.

Lemma scores_column_nth (self : KrotovsRule) (inputs weights : Tensor) (h b : nat) :
  (h < nrows weights)%nat -> (b < nrows inputs)%nat ->
  nth h (column (scores self inputs weights) b) 0 = score_spec self weights inputs h b.
Proof.
  intros Hh Hb. rewrite column_nth by exact Hh.
  unfold scores. apply get_tabulate; assumption.
Qed.

Lemma no_score_ties_columns (self : KrotovsRule) (inputs weights : Tensor) :
  no_score_ties self inputs weights ->
  forall b, (b < ncols (scores self inputs weights))%nat ->
            no_ties (column (scores self inputs weights) b).
Proof.
  intros Hnt b Hb i j Hi Hj Hij. rewrite column_length in Hi, Hj.
  simpl in Hb, Hi, Hj. rewrite !scores_column_nth by assumption.
  apply Hnt; assumption.
Qed.

(** ** Properties of the rule *)

(** C1 (as amended).  When no two hidden units have exactly the same score
    for the same sample and [1 <= k], [update] (top-k selection) and
    [update_argsort] (full sort) behave alike: they return the same delta
    matrix or raise the same exception; and on a valid call (a batch with
    samples and features, weights over the same features, [k <= H]) they do
    return a delta. *)
Theorem C1_update_argsort_agree (self : KrotovsRule) (inputs weights : Tensor) :
  (1 <= k self)%Z ->
  no_score_ties self inputs weights ->
  update self inputs weights = update_argsort self inputs weights /\
  (valid_call self inputs weights ->
   exists d_w, update self inputs weights = Ok d_w /\
               update_argsort self inputs weights = Ok d_w).
Proof.
  intros Hk1 Hnt.
  assert (update self inputs weights = update_argsort self inputs weights) as Heq.
  { unfold update, update_argsort.
    destruct (prologue self inputs weights) as [p | e] eqn:Ep; [| reflexivity].
    apply prologue_inv in Ep. destruct Ep as (-> & HB & HkH). simpl bind.
    destruct (overlap self weights (torch.t inputs)) as [S | e] eqn:Eo; [| reflexivity].
    apply overlap_inv in Eo. destruct Eo as [HD ->]. simpl bind.
    fold (scores self inputs weights).
    rewrite (@activations_agree self (scores self inputs weights)
               (nrows weights) (nrows inputs) eq_refl eq_refl Hk1 HkH
               (no_score_ties_columns Hnt)).
    reflexivity. }
  split; [exact Heq |].
  intros Hv. destruct (update_Ok Hv) as [d_w Hd]. exists d_w.
  split; [exact Hd | rewrite <- Heq; exact Hd].
Qed.

(** C1 without the condition on ties fails: for the batch
    [[1, 1]] and the weights [[1, 0], [0, 1]] both scores are 1, the top-k
    search ranks unit 0 first and the full sort ranks unit 1 last, and the
    two deltas differ. *)
Lemma C1_counterexample :
  valid_call rule_default X_tie W_tie /\
  exists d1 d2, update rule_default X_tie W_tie = Ok d1 /\
                update_argsort rule_default X_tie W_tie = Ok d2 /\
                get d1 0 1 == 1 /\ get d2 0 1 == - (4 # 10).
Proof.
  split.
  - unfold valid_call. concrete.
  - eexists. eexists. split; [vm_compute; reflexivity |].
    split; [vm_compute; reflexivity |]. split; vm_compute; reflexivity.
Qed.

Lemma C1_witness :
  update rule_default X_tie W_half = update_argsort rule_default X_tie W_half /\
  (valid_call rule_default X_tie W_half ->
   exists d_w, update rule_default X_tie W_half = Ok d_w /\
               update_argsort rule_default X_tie W_half = Ok d_w).
Proof.
  apply C1_update_argsort_agree.
  - vm_compute. discriminate.
  - intros b h1 h2 Hb H1 H2 Hne. simpl in Hb, H1, H2.
    assert (b = 0%nat) as -> by lia.
    destruct h1 as [| [| h1]]; destruct h2 as [| [| h2]]; try lia;
      vm_compute; discriminate.
Defined.

(** The two best units of a column without ties. *)
Lemma top_two (vals : list Q) :
  no_ties vals -> (2 <= length vals)%nat ->
  let w := nth 0 (sort_desc_col vals) 0%nat in
  let s := nth 1 (sort_desc_col vals) 0%nat in
  (w < length vals)%nat /\ (s < length vals)%nat /\ w <> s /\
  (forall h, (h < length vals)%nat -> h <> w -> nth h vals 0 < nth w vals 0) /\
  (forall h, (h < length vals)%nat -> h <> w -> h <> s -> nth h vals 0 < nth s vals 0).
Proof.
  intros Hnt Hlen.
  pose proof (sort_desc_col_strict Hnt) as Hs.
  pose proof (sort_desc_col_perm vals) as HP.
  pose proof (sort_desc_col_length vals) as HL.
  destruct (sort_desc_col vals) as [| w [| s rest]]; simpl in HL; try lia.
  simpl.
  assert (forall h, (h < length vals)%nat -> In h (w :: s :: rest)) as Hall.
  { intros h Hh. apply (Permutation_in _ (Permutation_sym HP)), in_seq. lia. }
  assert (forall h, In h (w :: s :: rest) -> (h < length vals)%nat) as Hlt.
  { intros h Hh. apply (Permutation_in _ HP), in_seq in Hh. lia. }
  inversion Hs as [| ? ? Hs1 Hw]; subst.
  inversion Hs1 as [| ? ? Hs2 Hsnd]; subst.
  rewrite Forall_forall in Hw, Hsnd.
  assert (w <> s) as Hws.
  { intros ->. apply (Qlt_irrefl (nth s vals 0)). apply Hw. left. reflexivity. }
  split; [apply Hlt; left; reflexivity |].
  split; [apply Hlt; right; left; reflexivity |].
  split; [exact Hws |]. split.
  - intros h Hh Hne. destruct (Hall h Hh) as [E | Hin]; [congruence |].
    apply Hw, Hin.
  - intros h Hh Hne1 Hne2. destruct (Hall h Hh) as [E | [E | Hin]]; try congruence.
    apply Hsnd, Hin.
Qed.

(** C3.  For k = 2 and scores without exact ties, the activation matrix
    built inside [update] has, in every sample's column, the value +1 at
    the highest-scoring unit, the value -delta at a second, distinct unit
    (the one ranked second) and 0 at every other hidden unit. *)
Theorem C3_k2_activations (self : KrotovsRule) (inputs weights : Tensor) :
  k self = 2%Z ->
  (1 <= nrows inputs)%nat -> (2 <= nrows weights)%nat ->
  ncols weights = ncols inputs ->
  no_score_ties self inputs weights ->
  exists A,
    update_activations self inputs weights = Ok A /\
    nrows A = nrows weights /\ ncols A = nrows inputs /\
    forall b, (b < nrows inputs)%nat ->
      exists w s,
        (w < nrows weights)%nat /\ (s < nrows weights)%nat /\ w <> s /\
        (forall h, (h < nrows weights)%nat -> h <> w ->
           score_spec self weights inputs h b < score_spec self weights inputs w b) /\
        (forall h, (h < nrows weights)%nat -> h <> w -> h <> s ->
           score_spec self weights inputs h b < score_spec self weights inputs s b) /\
        get A w b = 1 /\
        get A s b = - delta self /\
        (forall h, (h < nrows weights)%nat -> h <> w -> h <> s -> get A h b = 0).
Proof.
  intros Hk HB HH HD Hnt.
  rewrite update_activations_Ok by (try assumption; lia).
  eexists. split; [reflexivity |]. split; [reflexivity |]. split; [reflexivity |].
  intros b Hb. rewrite Hk. change (Z.to_nat 2 - 1)%nat with 1%nat.
  pose proof (@top_two (column (scores self inputs weights) b)) as Htop.
  rewrite column_length in Htop. simpl nrows in Htop.
  specialize (Htop (@no_score_ties_columns self inputs weights Hnt b Hb) HH).
  cbv zeta in Htop. fold (ranked (scores self inputs weights) 0 b) in Htop.
  fold (ranked (scores self inputs weights) 1 b) in Htop.
  set (w := ranked (scores self inputs weights) 0 b) in *.
  set (s := ranked (scores self inputs weights) 1 b) in *.
  destruct Htop as (Hw & Hs & Hws & Hbest & Hsecond).
  exists w, s. split; [exact Hw |]. split; [exact Hs |]. split; [exact Hws |].
  split; [| split; [| split; [| split]]].
  - intros h Hh Hne. rewrite <- !scores_column_nth by assumption. apply Hbest; assumption.
  - intros h Hh Hne1 Hne2. rewrite <- !scores_column_nth by assumption.
    apply Hsecond; assumption.
  - rewrite get_tabulate by assumption. unfold act_fn. fold w. fold s.
    destruct (Nat.eqb_spec s w) as [E | _]; [congruence |].
    rewrite Nat.eqb_refl. reflexivity.
  - rewrite get_tabulate by assumption. unfold act_fn. fold s.
    rewrite Nat.eqb_refl. reflexivity.
  - intros h Hh Hne1 Hne2. rewrite get_tabulate by assumption. unfold act_fn.
    fold w. fold s.
    destruct (Nat.eqb_spec s h) as [E | _]; [congruence |].
    destruct (Nat.eqb_spec w h) as [E | _]; [congruence |]. reflexivity.
Qed.

Lemma C3_witness :
  exists A,
    update_activations rule_default X_tie W_half = Ok A /\
    nrows A = nrows W_half /\ ncols A = nrows X_tie /\
    forall b, (b < nrows X_tie)%nat ->
      exists w s,
        (w < nrows W_half)%nat /\ (s < nrows W_half)%nat /\ w <> s /\
        (forall h, (h < nrows W_half)%nat -> h <> w ->
           score_spec rule_default W_half X_tie h b
           < score_spec rule_default W_half X_tie w b) /\
        (forall h, (h < nrows W_half)%nat -> h <> w -> h <> s ->
           score_spec rule_default W_half X_tie h b
           < score_spec rule_default W_half X_tie s b) /\
        get A w b = 1 /\
        get A s b = - delta rule_default /\
        (forall h, (h < nrows W_half)%nat -> h <> w -> h <> s -> get A h b = 0).
Proof.
  apply C3_k2_activations; try solve [concrete].
  intros b h1 h2 Hb H1 H2 Hne. simpl in Hb, H1, H2.
  assert (b = 0%nat) as -> by lia.
  destruct h1 as [| [| h1]]; destruct h2 as [| [| h2]]; try lia;
    vm_compute; discriminate.
Defined.

(** C4.  The overlap computed inside [update] is, for every hidden unit [h]
    and sample [b],
    [sum_d sign(W[h,d]) * |W[h,d]|^(p-1) * X[b,d]] with [p] the rule's norm. *)
Theorem C4_overlap_score (self : KrotovsRule) (inputs weights : Tensor) :
  (1 <= nrows inputs)%nat ->
  (k self <= Z.of_nat (nrows weights))%Z ->
  ncols weights = ncols inputs ->
  exists tot_input,
    update_tot_input self inputs weights = Ok tot_input /\
    nrows tot_input = nrows weights /\ ncols tot_input = nrows inputs /\
    forall h b, (h < nrows weights)%nat -> (b < nrows inputs)%nat ->
      get tot_input h b =
      Qsum (map (fun d => Qsign (get weights h d)
                          * Qabs (get weights h d) ^ (norm self - 1)
                          * get inputs b d)
                (seq 0 (ncols inputs))).
Proof.
  intros HB Hk HD. exists (scores self inputs weights).
  split; [apply update_tot_input_Ok; assumption |].
  split; [reflexivity |]. split; [reflexivity |].
  intros h b Hh Hb. unfold scores. rewrite get_tabulate by assumption.
  unfold score_spec. rewrite HD. reflexivity.
Qed.

Lemma C4_witness :
  exists tot_input,
    update_tot_input rule_default X_tie W_half = Ok tot_input /\
    nrows tot_input = nrows W_half /\ ncols tot_input = nrows X_tie /\
    forall h b, (h < nrows W_half)%nat -> (b < nrows X_tie)%nat ->
      get tot_input h b =
      Qsum (map (fun d => Qsign (get W_half h d)
                          * Qabs (get W_half h d) ^ (norm rule_default - 1)
                          * get X_tie b d)
                (seq 0 (ncols X_tie))).
Proof.
  apply C4_overlap_score; concrete.
Defined.

(** *** Normalisation *)

Lemma Qabs_div_pos (a n : Q) : 0 < n -> Qabs (a / n) == Qabs a / n.
Proof.
  intros Hn. unfold Qdiv. rewrite Qabs_Qmult, Qabs_Qinv.
  rewrite (Qabs_pos n) by (apply Qlt_le_weak, Hn). reflexivity.
Qed.

Lemma Qabs_div_le1 (a n : Q) : 0 < n -> Qabs a <= n -> Qabs (a / n) <= 1.
Proof.
  intros Hn Ha. rewrite (Qabs_div_pos a Hn).
  apply Qle_shift_div_r; [exact Hn |]. rewrite Qmult_1_l. exact Ha.
Qed.

Lemma Qabs_div_self (a : Q) : 0 < Qabs a -> Qabs (a / Qabs a) == 1.
Proof.
  intros Ha. rewrite (Qabs_div_pos a Ha). field.
  intros E. rewrite E in Ha. exact (Qlt_irrefl 0 Ha).
Qed.

Lemma abs_elements (T : Tensor) : elements (torch.abs T) = map Qabs (elements T).
Proof. apply elements_map_tensor. Qed.

Lemma normalize_large (self : KrotovsRule) (ds : Tensor) :
  0 < precision self ->
  (exists i j, (i < nrows ds)%nat /\ (j < ncols ds)%nat /\
               precision self <= Qabs (get ds i j)) ->
  exists d_w m, normalize self ds = Ok d_w /\
                torch.max (torch.abs d_w) = Ok m /\ m == 1.
Proof.
  intros Hp (i & j & Hi & Hj & Hbig).
  assert (1 <= nrows ds)%nat as Hr by lia.
  assert (1 <= ncols ds)%nat as Hc by lia.
  destruct (@torch_max_Ok (torch.abs ds) Hr Hc) as (nc & Hnc & Hin & Hmax).
  rewrite abs_elements in Hin, Hmax.
  assert (precision self <= nc) as Hge.
  { eapply Qle_trans; [exact Hbig |]. apply Hmax, in_map, In_elements.
    exists i, j. auto. }
  assert (0 < nc) as Hpos by (eapply Qlt_le_trans; eassumption).
  unfold normalize. rewrite Hnc. simpl bind.
  assert (Qltb nc (precision self) = false) as -> by (apply Qltb_ge, Hge).
  exists (torch.true_divide ds nc).
  destruct (@torch_max_Ok (torch.abs (torch.true_divide ds nc)) Hr Hc)
    as (m & Hm & Hmin & Hmmax).
  exists m. split; [reflexivity |]. split; [exact Hm |].
  rewrite abs_elements in Hmin, Hmmax.
  unfold torch.true_divide in Hmin, Hmmax. rewrite elements_map_tensor in Hmin, Hmmax.
  rewrite map_map in Hmin, Hmmax.
  apply Qle_antisym.
  - apply in_map_iff in Hmin. destruct Hmin as [e [<- He]].
    apply Qabs_div_le1; [exact Hpos |]. apply Hmax, in_map, He.
  - apply in_map_iff in Hin. destruct Hin as [e [Ee He]].
    assert (Qabs (e / nc) <= m) as Hle
        by (apply Hmmax, in_map_iff; exists e; split; [reflexivity | exact He]).
    eapply Qle_trans; [| exact Hle].
    rewrite <- Ee. rewrite <- Ee in Hpos.
    rewrite (Qabs_div_self e Hpos). apply Qle_refl.
Qed.

Lemma normalize_small (self : KrotovsRule) (ds : Tensor) :
  (1 <= nrows ds)%nat -> (1 <= ncols ds)%nat ->
  (forall i j, (i < nrows ds)%nat -> (j < ncols ds)%nat ->
               Qabs (get ds i j) < precision self) ->
  normalize self ds = Ok (torch.true_divide ds (precision self)).
Proof.
  intros Hr Hc Hsmall.
  destruct (@torch_max_Ok (torch.abs ds) Hr Hc) as (nc & Hnc & Hin & _).
  rewrite abs_elements in Hin. apply in_map_iff in Hin. destruct Hin as [e [<- He]].
  apply In_elements in He. destruct He as (i & j & Hi & Hj & ->).
  unfold normalize. rewrite Hnc. simpl bind.
  assert (Qltb (Qabs (get ds i j)) (precision self) = true) as ->
      by (apply Qltb_lt, Hsmall; assumption).
  reflexivity.
Qed.

(** C2.  On a valid call (with a positive [precision]): if some entry of
    the raw delta [ds] has magnitude at least [precision], the largest
    magnitude in the returned delta is exactly 1; if every entry of [ds] is
    below [precision] in magnitude, the returned delta is [ds] divided by
    [precision].  In both cases [update] returns. *)
Theorem C2_normalized_delta (self : KrotovsRule) (inputs weights : Tensor) :
  valid_call self inputs weights ->
  0 < precision self ->
  exists ds d_w,
    update_ds self inputs weights = Ok ds /\
    update self inputs weights = Ok d_w /\
    ((exists i j, (i < nrows ds)%nat /\ (j < ncols ds)%nat /\
                  precision self <= Qabs (get ds i j)) ->
     exists m, torch.max (torch.abs d_w) = Ok m /\ m == 1) /\
    ((forall i j, (i < nrows ds)%nat -> (j < ncols ds)%nat ->
                  Qabs (get ds i j) < precision self) ->
     d_w = torch.true_divide ds (precision self)).
Proof.
  intros Hv Hp.
  destruct (update_ds_Ok Hv) as (ds & Hds & Hr & Hc).
  destruct (update_Ok Hv) as [d_w Hd].
  exists ds, d_w. split; [exact Hds |]. split; [exact Hd |].
  rewrite update_unfold, Hds in Hd. simpl bind in Hd.
  destruct Hv as (HB & HD1 & HD & Hk1 & HkH).
  split.
  - intros Hbig. destruct (normalize_large self ds Hp Hbig) as (d & m & Hn & Hm & H1).
    rewrite Hn in Hd. injection Hd as <-. exists m. split; assumption.
  - intros Hsmall. rewrite normalize_small in Hd by (try exact Hsmall; lia).
    injection Hd as <-. reflexivity.
Qed.

Lemma C2_witness :
  exists ds d_w,
    update_ds rule_default X_tie W_half = Ok ds /\
    update rule_default X_tie W_half = Ok d_w /\
    ((exists i j, (i < nrows ds)%nat /\ (j < ncols ds)%nat /\
                  precision rule_default <= Qabs (get ds i j)) ->
     exists m, torch.max (torch.abs d_w) = Ok m /\ m == 1) /\
    ((forall i j, (i < nrows ds)%nat -> (j < ncols ds)%nat ->
                  Qabs (get ds i j) < precision rule_default) ->
     d_w = torch.true_divide ds (precision rule_default)).
Proof.
  apply C2_normalized_delta.
  - unfold valid_call. concrete.
  - concrete.
Defined.

(** *** The assertion on [k] *)

Lemma prologue_assert (self : KrotovsRule) (inputs weights : Tensor) :
  (1 <= nrows inputs)%nat -> (Z.of_nat (nrows weights) < k self)%Z ->
  prologue self inputs weights = Err (AssertionError assert_msg).
Proof.
  intros HB Hk. unfold prologue.
  destruct (tensor_row_0 inputs HB) as [row [E L]]. rewrite E. simpl.
  assert ((k self <=? Z.of_nat (nrows weights))%Z = false) as -> by (apply Z.leb_gt; lia).
  reflexivity.
Qed.

Lemma prologue_empty_batch (self : KrotovsRule) (inputs weights : Tensor) :
  nrows inputs = 0%nat -> prologue self inputs weights = Err IndexError.
Proof.
  intros HB. unfold prologue. rewrite (tensor_row_empty inputs 0 HB). reflexivity.
Qed.

(** C5 (as amended).  Constructing a rule never fails, whatever [k] is: the
    constructor does not know the weight matrix.  The check is made by every
    call of [update] and [update_argsort]: with [k] greater than the number
    of hidden units (and a batch with at least one sample) the call fails
    with the [AssertionError] of line 36 (69), before the scores, the
    activations or the delta are computed. *)
Theorem C5_k_exceeds_hidden_units
    (precision delta : Q) (norm k : Z) (inputs weights : Tensor) :
  (Z.of_nat (nrows weights) < k)%Z ->
  (1 <= nrows inputs)%nat ->
  exists self,
    __init__ precision delta norm k = Ok self /\
    update self inputs weights = Err (AssertionError assert_msg) /\
    update_argsort self inputs weights = Err (AssertionError assert_msg) /\
    update_tot_input self inputs weights = Err (AssertionError assert_msg) /\
    update_activations self inputs weights = Err (AssertionError assert_msg) /\
    update_ds self inputs weights = Err (AssertionError assert_msg).
Proof.
  intros Hk HB. eexists. split; [reflexivity |].
  unfold update, update_argsort, update_tot_input, update_activations, update_ds.
  rewrite prologue_assert by (simpl; assumption).
  repeat split; reflexivity.
Qed.

(** C5 for the constructor fails: a rule with [k = 5] is constructed
    without error although the layer it is then applied to has 2 hidden
    units. *)
Lemma C5_counterexample :
  exists self,
    __init__ default_precision default_delta default_norm 5 = Ok self /\
    (Z.of_nat (nrows W_tie) < k self)%Z.
Proof.
  eexists. split; [reflexivity | concrete].
Qed.

Lemma C5_witness :
  exists self,
    __init__ default_precision default_delta default_norm 5 = Ok self /\
    update self X_tie W_tie = Err (AssertionError assert_msg) /\
    update_argsort self X_tie W_tie = Err (AssertionError assert_msg) /\
    update_tot_input self X_tie W_tie = Err (AssertionError assert_msg) /\
    update_activations self X_tie W_tie = Err (AssertionError assert_msg) /\
    update_ds self X_tie W_tie = Err (AssertionError assert_msg).
Proof.
  apply C5_k_exceeds_hidden_units; concrete.
Defined.

(** *** k = 1 *)

Lemma top_one (vals : list Q) :
  (1 <= length vals)%nat ->
  let w := nth 0 (sort_desc_col vals) 0%nat in
  (w < length vals)%nat /\
  (forall h, (h < length vals)%nat -> nth h vals 0 <= nth w vals 0).
Proof.
  intros Hlen.
  pose proof (sort_desc_col_sorted vals) as Hs.
  pose proof (sort_desc_col_perm vals) as HP.
  pose proof (sort_desc_col_length vals) as HL.
  destruct (sort_desc_col vals) as [| w rest]; simpl in HL; try lia.
  simpl. inversion Hs as [| ? ? _ Hw]; subst. rewrite Forall_forall in Hw.
  split.
  - assert (In w (w :: rest)) as Hin by (left; reflexivity).
    apply (Permutation_in _ HP), in_seq in Hin. lia.
  - intros h Hh.
    assert (In h (w :: rest)) as Hin
        by (apply (Permutation_in _ (Permutation_sym HP)), in_seq; lia).
    destruct Hin as [<- | Hin]; [apply Qle_refl | apply Hw, Hin].
Qed.

(** C6 (as amended).  For k = 1, [update] returns on every valid call, and
    for each sample the anti-Hebbian unit is the winner itself: the second
    write replaces the +1 of the first, so the winner's activation is
    -delta and every other unit's is 0. *)
Theorem C6_k1_winner_gets_minus_delta (self : KrotovsRule) (inputs weights : Tensor) :
  k self = 1%Z ->
  valid_call self inputs weights ->
  exists A d_w,
    update_activations self inputs weights = Ok A /\
    update self inputs weights = Ok d_w /\
    forall b, (b < nrows inputs)%nat ->
      exists w,
        (w < nrows weights)%nat /\
        (forall h, (h < nrows weights)%nat ->
           score_spec self weights inputs h b <= score_spec self weights inputs w b) /\
        get A w b = - delta self /\
        (forall h, (h < nrows weights)%nat -> h <> w -> get A h b = 0).
Proof.
  intros Hk Hv. destruct (update_Ok Hv) as [d_w Hd].
  destruct Hv as (HB & HD1 & HD & Hk1 & HkH).
  rewrite update_activations_Ok by assumption.
  eexists. exists d_w. split; [reflexivity |]. split; [exact Hd |].
  intros b Hb. rewrite Hk. change (Z.to_nat 1 - 1)%nat with 0%nat.
  pose proof (@top_one (column (scores self inputs weights) b)) as Htop.
  rewrite column_length in Htop. simpl nrows in Htop.
  assert (1 <= nrows weights)%nat as HH by lia.
  specialize (Htop HH). cbv zeta in Htop.
  fold (ranked (scores self inputs weights) 0 b) in Htop.
  set (w := ranked (scores self inputs weights) 0 b) in *.
  destruct Htop as [Hw Hbest].
  exists w. split; [exact Hw |]. split; [| split].
  - intros h Hh. rewrite <- !scores_column_nth by assumption. apply Hbest, Hh.
  - rewrite get_tabulate by assumption. unfold act_fn. fold w.
    rewrite Nat.eqb_refl. reflexivity.
  - intros h Hh Hne. rewrite get_tabulate by assumption. unfold act_fn. fold w.
    destruct (Nat.eqb_spec w h) as [E | _]; [congruence | reflexivity].
Qed.

(** C6 with a zero contribution fails: with k = 1 and delta = 0.4 the sample
    [[1, 1]] leaves the activation -0.4 at the winner (unit 0), not 0, and
    the raw delta has the non-zero entry -0.4. *)
Lemma C6_counterexample :
  valid_call rule_k1 X_tie W_half /\
  exists A ds,
    update_activations rule_k1 X_tie W_half = Ok A /\
    update_ds rule_k1 X_tie W_half = Ok ds /\
    get A 0 0 == - (4 # 10) /\ ~ get A 0 0 == 0 /\
    get ds 0 1 == - (4 # 10) /\ ~ get ds 0 1 == 0.
Proof.
  split.
  - unfold valid_call. concrete.
  - eexists. eexists. split; [vm_compute; reflexivity |].
    split; [vm_compute; reflexivity |]. concrete.
Qed.

Lemma C6_witness :
  exists A d_w,
    update_activations rule_k1 X_tie W_half = Ok A /\
    update rule_k1 X_tie W_half = Ok d_w /\
    forall b, (b < nrows X_tie)%nat ->
      exists w,
        (w < nrows W_half)%nat /\
        (forall h, (h < nrows W_half)%nat ->
           score_spec rule_k1 W_half X_tie h b <= score_spec rule_k1 W_half X_tie w b) /\
        get A w b = - delta rule_k1 /\
        (forall h, (h < nrows W_half)%nat -> h <> w -> get A h b = 0).
Proof.
  apply C6_k1_winner_gets_minus_delta.
  - reflexivity.
  - unfold valid_call. concrete.
Defined.

(** ** The engine: what a step and an epoch do to the state *)

Lemma bindM_Ok_inv {S A B : Type} (m : ST S A) (f : A -> ST S B) (s s' : S) (b : B) :
  bindM m f s = (Ok b, s') ->
  exists a s1, m s = (Ok a, s1) /\ f a s1 = (Ok b, s').
Proof.
  unfold bindM. destruct (m s) as [[a | e] s1]; intros H.
  - exists a, s1. split; [reflexivity | exact H].
  - discriminate H.
Qed.

Ltac invM H :=
  let a := fresh "a" in
  let s := fresh "s" in
  let Hm := fresh "Hm" in
  apply bindM_Ok_inv in H; destruct H as (a & s & Hm & H).

Lemma when_log_Ok (c : bool) (e : event) (s s' : EngineState) (u : unit) :
  when c (log e) s = (Ok u, s') ->
  layer_weight s' = layer_weight s /\ optimizer_lr s' = optimizer_lr s /\
  last_epoch s' = last_epoch s /\
  events s' = events s ++ (if c then [e] else []).
Proof.
  destruct c; simpl; unfold log, retM; intros H; injection H as _ <-; simpl.
  - auto.
  - rewrite app_nil_r. auto.
Qed.

Lemma train_step_Ok (eng : HebbianEngine) (inputs : Tensor) (labels : list Z)
    (s s' : EngineState) (u : unit) :
  _train_step eng inputs labels s = (Ok u, s') ->
  nrows (layer_weight s') = nrows (layer_weight s) /\
  ncols (layer_weight s') = ncols (layer_weight s) /\
  optimizer_lr s' = optimizer_lr s /\ last_epoch s' = last_epoch s /\
  events s' = events s ++ [LocalStep].
Proof.
  unfold _train_step. intros H.
  invM H. unfold lift in Hm. injection Hm as _ <-.
  invM H. unfold get_weight in Hm. injection Hm as _ <-.
  invM H. unfold lift in Hm. injection Hm as _ <-.
  invM H. unfold lift in Hm. injection Hm as _ <-.
  unfold local_step in H. injection H as _ <-. simpl. repeat split; reflexivity.
Qed.

Lemma batches_Ok (eng : HebbianEngine) (step : nat -> nat) (data_loader : DataLoader) :
  forall (i : nat) (s s' : EngineState) (u : unit),
    for_each data_loader i
      (fun n batch =>
         _ <~ _train_step eng (fst batch) (snd batch) ;;
         when (visualizer eng) (log (VisualizeWeights (step n)))) s = (Ok u, s') ->
    nrows (layer_weight s') = nrows (layer_weight s) /\
    ncols (layer_weight s') = ncols (layer_weight s) /\
    optimizer_lr s' = optimizer_lr s /\ last_epoch s' = last_epoch s /\
    events s' = events s
                ++ flat_map (batch_events (visualizer eng) step)
                            (seq i (length data_loader)).
Proof.
  induction data_loader as [| batch rest IH]; intros i s s' u H; simpl in H.
  - unfold retM in H. injection H as _ <-. simpl. rewrite app_nil_r. auto.
  - invM H. invM Hm.
    apply train_step_Ok in Hm0. destruct Hm0 as (Hr & Hc & Hlr & Hle & Hev).
    apply when_log_Ok in Hm. destruct Hm as (Hw1 & Hlr1 & Hle1 & Hev1).
    apply IH in H. destruct H as (Hr2 & Hc2 & Hlr2 & Hle2 & Hev2).
    rewrite Hr2, Hc2, Hlr2, Hle2, Hev2, Hw1, Hlr1, Hle1, Hev1, Hr, Hc, Hlr, Hle, Hev.
    repeat split. simpl. unfold batch_events at 2. rewrite <- !app_assoc. reflexivity.
Qed.

Lemma scheduler_step_Ok (eng : HebbianEngine) (s s' : EngineState) (u : unit) :
  scheduler_step eng s = (Ok u, s') ->
  exists f, lr_lambda eng (S (last_epoch s)) = Ok f /\
            layer_weight s' = layer_weight s /\
            optimizer_lr s' = base_lr eng * f /\
            last_epoch s' = S (last_epoch s) /\
            events s' = events s ++ [SchedulerStep].
Proof.
  unfold scheduler_step. destruct (lr_lambda eng (S (last_epoch s))) as [f | e]; intros H.
  - injection H as _ <-. exists f. simpl. repeat split; reflexivity.
  - discriminate H.
Qed.

Lemma py_mod_Ok (a b r : Z) : py_mod a b = Ok r -> r = (a mod b)%Z.
Proof.
  unfold py_mod. destruct (b =? 0)%Z; intros H; [discriminate H |].
  injection H as <-. reflexivity.
Qed.

Lemma eval_phase_Ok (eng : HebbianEngine) (eval_every : option Z) (vis_epoch : nat)
    (s s' : EngineState) (stats : option Stats) :
  match eval_every with
  | Some every =>
      r <~ lift (py_mod (Z.of_nat vis_epoch) every) ;;
      if (r =? 0)%Z then eval eng else retM None
  | None => retM None
  end s = (Ok stats, s') ->
  layer_weight s' = layer_weight s /\ optimizer_lr s' = optimizer_lr s /\
  last_epoch s' = last_epoch s /\
  events s' = events s ++ (if due eval_every vis_epoch then [Eval] else []) /\
  match stats with Some _ => true | None => false end = due eval_every vis_epoch.
Proof.
  destruct eval_every as [every |]; simpl; intros H.
  - invM H. unfold lift in Hm. injection Hm as Hr <-. apply py_mod_Ok in Hr. subst a.
    destruct (Z.of_nat vis_epoch mod every =? 0)%Z.
    + unfold eval, bindM, log, get_weight, retM in H. simpl in H.
      injection H as <- <-. simpl. repeat split; reflexivity.
    + unfold retM in H. injection H as <- <-. rewrite app_nil_r. repeat split; reflexivity.
  - unfold retM in H. injection H as <- <-. rewrite app_nil_r. repeat split; reflexivity.
Qed.

Lemma checkpoint_phase_Ok (checkpoint_every : option Z) (vis_epoch : nat)
    (stats : option Stats) (s s' : EngineState) (u : unit) :
  match checkpoint_every with
  | Some every =>
      r <~ lift (py_mod (Z.of_nat vis_epoch) every) ;;
      if (r =? 0)%Z then checkpoint stats else retM tt
  | None => retM tt
  end s = (Ok u, s') ->
  layer_weight s' = layer_weight s /\ optimizer_lr s' = optimizer_lr s /\
  last_epoch s' = last_epoch s /\
  events s' = events s
              ++ (if due checkpoint_every vis_epoch
                  then [Checkpoint (match stats with Some _ => true | None => false end)]
                  else []).
Proof.
  destruct checkpoint_every as [every |]; simpl; intros H.
  - invM H. unfold lift in Hm. injection Hm as Hr <-. apply py_mod_Ok in Hr. subst a.
    destruct (Z.of_nat vis_epoch mod every =? 0)%Z.
    + unfold checkpoint, log in H. injection H as _ <-. simpl. repeat split; reflexivity.
    + unfold retM in H. injection H as _ <-. rewrite app_nil_r. repeat split; reflexivity.
  - unfold retM in H. injection H as _ <-. rewrite app_nil_r. repeat split; reflexivity.
Qed.

Lemma train_epoch_Ok (eng : HebbianEngine) (data_loader : DataLoader)
    (eval_every checkpoint_every : option Z) (epoch : nat)
    (s s' : EngineState) (u : unit) :
  train_epoch eng data_loader eval_every checkpoint_every epoch s = (Ok u, s') ->
  exists f, lr_lambda eng (S (last_epoch s)) = Ok f /\
            nrows (layer_weight s') = nrows (layer_weight s) /\
            ncols (layer_weight s') = ncols (layer_weight s) /\
            optimizer_lr s' = base_lr eng * f /\
            last_epoch s' = S (last_epoch s) /\
            events s' = events s
                        ++ epoch_events (visualizer eng) (progress_n eng)
                             (length data_loader)
                             eval_every checkpoint_every epoch (optimizer_lr s).
Proof.
  unfold train_epoch. intros H.
  invM H. unfold get_last_lr in Hm. injection Hm as <- <-.
  invM H. unfold log in Hm. injection Hm as _ <-.
  invM H. apply when_log_Ok in Hm. destruct Hm as (Hw1 & Hlr1 & Hle1 & Hev1).
  invM H. apply batches_Ok in Hm. destruct Hm as (Hr2 & Hc2 & Hlr2 & Hle2 & Hev2).
  invM H. apply scheduler_step_Ok in Hm. destruct Hm as (f & Hf & Hw3 & Hlr3 & Hle3 & Hev3).
  invM H. apply eval_phase_Ok in Hm. destruct Hm as (Hw4 & Hlr4 & Hle4 & Hev4 & Hst).
  apply checkpoint_phase_Ok in H. destruct H as (Hw5 & Hlr5 & Hle5 & Hev5).
  simpl in Hw1, Hlr1, Hle1, Hev1.
  exists f. split.
  { rewrite <- Hf. f_equal. f_equal. rewrite Hle2, Hle1. reflexivity. }
  split; [rewrite Hw5, Hw4, Hw3, Hr2, Hw1; reflexivity |].
  split; [rewrite Hw5, Hw4, Hw3, Hc2, Hw1; reflexivity |].
  split; [rewrite Hlr5, Hlr4, Hlr3; reflexivity |].
  split; [rewrite Hle5, Hle4, Hle3, Hle2, Hle1; reflexivity |].
  rewrite Hev5, Hev4, Hev3, Hev2, Hev1, Hst. unfold epoch_events.
  rewrite <- !app_assoc. reflexivity.
Qed.

Lemma flat_map_seq_shift {A : Type} (f : nat -> list A) (n : nat) :
  forall a, flat_map f (seq (S a) n) = flat_map (fun j => f (S j)) (seq a n).
Proof.
  induction n as [| n IH]; intros a; simpl; [reflexivity |].
  rewrite IH. reflexivity.
Qed.

Lemma epochs_Ok (eng : HebbianEngine) (data_loader : DataLoader)
    (eval_every checkpoint_every : option Z) (n : nat) :
  forall (e0 i : nat) (s s' : EngineState) (u : unit),
    for_each (seq e0 n) i
      (fun _ epoch => train_epoch eng data_loader eval_every checkpoint_every epoch) s
    = (Ok u, s') ->
    nrows (layer_weight s') = nrows (layer_weight s) /\
    ncols (layer_weight s') = ncols (layer_weight s) /\
    last_epoch s' = (last_epoch s + n)%nat /\
    events s' = events s
                ++ flat_map (fun j => epoch_events (visualizer eng) (progress_n eng)
                                        (length data_loader)
                                        eval_every checkpoint_every (e0 + j) (lr_at eng s j))
                            (seq 0 n).
Proof.
  induction n as [| n IH]; intros e0 i s s' u H; simpl in H.
  - unfold retM in H. injection H as _ <-. simpl. rewrite app_nil_r, Nat.add_0_r. auto.
  - invM H. apply train_epoch_Ok in Hm.
    destruct Hm as (f & Hf & Hr & Hc & Hlr & Hle & Hev).
    apply IH in H. destruct H as (Hr2 & Hc2 & Hle2 & Hev2).
    split; [rewrite Hr2, Hr; reflexivity |].
    split; [rewrite Hc2, Hc; reflexivity |].
    split; [rewrite Hle2, Hle; lia |].
    rewrite Hev2, Hev. rewrite <- app_assoc. f_equal.
    change (seq 0 (S n)) with (0%nat :: seq 1 n).
    change (flat_map ?g (0%nat :: seq 1 n)) with (g 0%nat ++ flat_map g (seq 1 n)).
    cbv beta. rewrite flat_map_seq_shift, Nat.add_0_r.
    apply (f_equal (app _)).
    apply flat_map_ext. intros j.
    replace (S e0 + j)%nat with (e0 + S j)%nat by lia. f_equal.
    unfold lr_at. destruct j as [| j].
    + rewrite Hlr. rewrite Nat.add_1_r. rewrite Hf. reflexivity.
    + rewrite Hle. replace (S (last_epoch s) + S j)%nat with (last_epoch s + S (S j))%nat by lia.
      reflexivity.
Qed.

Lemma train_Ok (eng : HebbianEngine) (noise : nat -> nat -> Q) (data_loader : DataLoader)
    (epochs : nat) (eval_every checkpoint_every : option Z)
    (s s' : EngineState) (u : unit) :
  train eng noise data_loader epochs eval_every checkpoint_every s = (Ok u, s') ->
  events s' = events s
              ++ (if visualizer eng then [VisualizeWeights 0] else [])
              ++ flat_map (fun e => epoch_events (visualizer eng) (progress_n eng)
                                      (length data_loader)
                                      eval_every checkpoint_every e (lr_at eng s e))
                          (seq 0 epochs).
Proof.
  unfold train. intros H.
  invM H. unfold lift in Hm. injection Hm as _ <-.
  invM H. unfold get_weight in Hm. injection Hm as <- <-.
  invM H. unfold set_weight in Hm. injection Hm as _ <-.
  invM H. apply when_log_Ok in Hm. destruct Hm as (Hw1 & Hlr1 & Hle1 & Hev1).
  apply epochs_Ok in H. destruct H as (_ & _ & _ & Hev).
  simpl in Hlr1, Hle1, Hev1.
  rewrite Hev, Hev1, <- app_assoc. f_equal. f_equal.
  apply flat_map_ext. intros e. simpl. f_equal.
  unfold lr_at. rewrite Hlr1, Hle1. reflexivity.
Qed.

(** *** Reading the trace *)

Lemma filter_flat_map {A B : Type} (p : B -> bool) (f : A -> list B) (l : list A) :
  filter p (flat_map f l) = flat_map (fun x => filter p (f x)) l.
Proof.
  induction l as [| x l IH]; simpl; [reflexivity |].
  rewrite filter_app, IH. reflexivity.
Qed.


Lemma flat_map_singleton {A B : Type} (b : B) (l : list A) :
  flat_map (fun _ : A => [b]) l = repeat b (length l).
Proof. induction l as [| x l IH]; simpl; [reflexivity | rewrite IH; reflexivity]. Qed.


Lemma schedule_of_epoch (vis : bool) (bar : nat -> nat -> nat) (nb : nat)
    (eval_every checkpoint_every : option Z) (epoch : nat) (lr : Q) :
  filter is_schedule_event
         (epoch_events vis bar nb eval_every checkpoint_every epoch lr) =
  LogLearningRate lr :: repeat LocalStep nb ++ [SchedulerStep].
Proof.
  unfold epoch_events. rewrite !filter_app, filter_flat_map.
  rewrite (flat_map_ext _ (fun _ => [LocalStep])) by (intros n; destruct vis; reflexivity).
  rewrite flat_map_singleton, length_seq.
  destruct vis, (due eval_every (epoch + 1)), (due checkpoint_every (epoch + 1));
    simpl; rewrite ?app_nil_r; reflexivity.
Qed.

(** *** Computations that call the checkpoint sink not at all *)










(** *** Steps and runs that complete *)

Lemma bindM_Ok {S A B : Type} (m : ST S A) (f : A -> ST S B) (s s1 : S) (a : A) :
  m s = (Ok a, s1) -> bindM m f s = f a s1.
Proof. unfold bindM. intros ->. reflexivity. Qed.

Lemma bindM_Err {S A B : Type} (m : ST S A) (f : A -> ST S B) (s s1 : S) (e : exn) :
  m s = (Err e, s1) -> bindM m f s = (Err e, s1).
Proof. unfold bindM. intros ->. reflexivity. Qed.

Lemma rule_accepts_shape (r : LearningRule) (W0 W1 : Tensor) (batch : Tensor * list Z) :
  nrows W1 = nrows W0 -> ncols W1 = ncols W0 ->
  rule_accepts r W0 batch -> rule_accepts r W1 batch.
Proof.
  intros Hr Hc [HB Hacc]. split; [exact HB |].
  intros W HWr HWc. apply Hacc; congruence.
Qed.

Lemma train_step_total (eng : HebbianEngine) (inputs : Tensor) (labels : list Z)
    (s : EngineState) :
  rule_accepts (learning_rule eng) (layer_weight s) (inputs, labels) ->
  exists s1, _train_step eng inputs labels s = (Ok tt, s1).
Proof.
  intros [HB Hacc]. simpl in HB, Hacc.
  destruct (Hacc (layer_weight s) eq_refl eq_refl) as (d & Hd & _).
  unfold _train_step, bindM, lift, reshape_flat, get_weight.
  destruct (Nat.eqb_spec (nrows inputs) 0) as [E | _]; [lia |].
  rewrite Hd. unfold from_numpy, local_step.
  eexists. reflexivity.
Qed.

Lemma when_log_total (c : bool) (e : event) (s : EngineState) :
  exists s1, when c (log e) s = (Ok tt, s1).
Proof. destruct c; simpl; eexists; reflexivity. Qed.

Lemma batches_total (eng : HebbianEngine) (step : nat -> nat) (data_loader : DataLoader) :
  forall (i : nat) (s : EngineState),
    Forall (rule_accepts (learning_rule eng) (layer_weight s)) data_loader ->
    exists s1,
      for_each data_loader i
        (fun n batch =>
           _ <~ _train_step eng (fst batch) (snd batch) ;;
           when (visualizer eng) (log (VisualizeWeights (step n)))) s = (Ok tt, s1).
Proof.
  induction data_loader as [| batch rest IH]; intros i s Hfit.
  - eexists. reflexivity.
  - inversion Hfit as [| ? ? Hb Hrest]; subst.
    destruct (@train_step_total eng (fst batch) (snd batch) s) as [s1 H1].
    { destruct batch. exact Hb. }
    pose proof (train_step_Ok _ _ _ _ H1) as (Hr1 & Hc1 & _).
    destruct (when_log_total (visualizer eng) (VisualizeWeights (step i)) s1) as [s2 H2].
    pose proof (when_log_Ok _ _ _ H2) as (Hw2 & _).
    destruct (IH (S i) s2) as [s3 H3].
    + eapply Forall_impl; [| exact Hrest]. intros b Hb'.
      apply (@rule_accepts_shape _ (layer_weight s)); [| | exact Hb']; congruence.
    + exists s3. simpl for_each.
      erewrite bindM_Ok; [exact H3 |].
      erewrite bindM_Ok; [exact H2 | exact H1].
Qed.

Lemma train_epoch_total (eng : HebbianEngine)
    (data_loader : DataLoader) (eval_every checkpoint_every : option Z)
    (epoch : nat) (s : EngineState) :
  Forall (rule_accepts (learning_rule eng) (layer_weight s)) data_loader ->
  (forall e, exists f, lr_lambda eng e = Ok f) ->
  eval_every <> Some 0%Z -> checkpoint_every <> Some 0%Z ->
  exists s1,
    train_epoch eng data_loader eval_every checkpoint_every epoch s = (Ok tt, s1).
Proof.
  intros Hfit Hlam Hee Hce. unfold train_epoch.
  unfold bindM at 1. unfold get_last_lr at 1.
  unfold bindM at 1. unfold log at 1.
  set (s0 := mkEngineState (layer_weight s) (optimizer_lr s) (last_epoch s)
                           (events s ++ [LogLearningRate (optimizer_lr s)])).
  destruct (when_log_total (visualizer eng)
              (VisualizeLearningRate (optimizer_lr s) (epoch * length data_loader)) s0)
    as [s1 H1].
  pose proof (when_log_Ok _ _ _ H1) as (Hw1 & _).
  rewrite (@bindM_Ok _ _ _ _ _ _ _ _ H1).
  destruct (@batches_total eng
              (fun n => (epoch * length data_loader + progress_n eng epoch n)%nat)
              data_loader 0%nat s1) as [s2 H2].
  { rewrite Hw1. exact Hfit. }
  rewrite (@bindM_Ok _ _ _ _ _ _ _ _ H2).
  destruct (Hlam (S (last_epoch s2))) as [f Hf].
  assert (exists s3, scheduler_step eng s2 = (Ok tt, s3)) as [s3 H3]
      by (unfold scheduler_step; rewrite Hf; eexists; reflexivity).
  rewrite (@bindM_Ok _ _ _ _ _ _ _ _ H3).
  assert (exists stats s4,
             match eval_every with
             | Some every =>
                 r <~ lift (py_mod (Z.of_nat (epoch + 1)) every) ;;
                 if (r =? 0)%Z then eval eng else retM None
             | None => retM None
             end s3 = (Ok stats, s4)) as (stats & s4 & H4).
  { destruct eval_every as [every |]; [| eexists; eexists; reflexivity].
    unfold bindM, lift, py_mod.
    destruct (Z.eqb_spec every 0) as [-> | _]; [congruence |].
    destruct (Z.of_nat (epoch + 1) mod every =? 0)%Z; eexists; eexists; reflexivity. }
  rewrite (@bindM_Ok _ _ _ _ _ _ _ _ H4).
  destruct checkpoint_every as [every |]; [| eexists; reflexivity].
  unfold bindM, lift, py_mod.
  destruct (Z.eqb_spec every 0) as [-> | _]; [congruence |].
  destruct (Z.of_nat (epoch + 1) mod every =? 0)%Z; eexists; reflexivity.
Qed.

Lemma epochs_total (eng : HebbianEngine)
    (data_loader : DataLoader) (eval_every checkpoint_every : option Z) :
  (forall e, exists f, lr_lambda eng e = Ok f) ->
  eval_every <> Some 0%Z -> checkpoint_every <> Some 0%Z ->
  forall (es : list nat) (i : nat) (s : EngineState),
    Forall (rule_accepts (learning_rule eng) (layer_weight s)) data_loader ->
    exists s1,
      for_each es i
        (fun _ epoch => train_epoch eng data_loader eval_every checkpoint_every epoch) s
      = (Ok tt, s1).
Proof.
  intros Hlam Hee Hce. induction es as [| e es IH]; intros i s Hfit.
  - eexists. reflexivity.
  - destruct (@train_epoch_total eng data_loader eval_every checkpoint_every e s
                Hfit Hlam Hee Hce) as [s1 H1].
    pose proof (train_epoch_Ok _ _ _ _ _ _ H1) as (f & _ & Hr & Hc & _).
    destruct (IH (S i) s1) as [s2 H2].
    + eapply Forall_impl; [| exact Hfit]. intros b Hb.
      apply (@rule_accepts_shape _ (layer_weight s)); [| | exact Hb]; assumption.
    + exists s2. simpl for_each. rewrite (@bindM_Ok _ _ _ _ _ _ _ _ H1). exact H2.
Qed.

(** [train] completes when the data loader is not empty, the rule accepts
    every batch, the schedule's factor is defined and no cadence is 0. *)
Lemma train_total (eng : HebbianEngine) (noise : nat -> nat -> Q)
    (data_loader : DataLoader) (epochs : nat) (eval_every checkpoint_every : option Z)
    (s : EngineState) :
  data_loader <> [] ->
  Forall (rule_accepts (learning_rule eng) (layer_weight s)) data_loader ->
  (forall e, exists f, lr_lambda eng e = Ok f) ->
  eval_every <> Some 0%Z -> checkpoint_every <> Some 0%Z ->
  exists s1,
    train eng noise data_loader epochs eval_every checkpoint_every s = (Ok tt, s1).
Proof.
  intros Hne Hfit Hlam Hee Hce. unfold train.
  destruct data_loader as [| b0 rest]; [congruence |].
  unfold bindM at 1. unfold lift at 1.
  unfold bindM at 1. unfold get_weight at 1.
  unfold bindM at 1. unfold set_weight at 1.
  set (s0 := mkEngineState _ _ _ _).
  destruct (when_log_total (visualizer eng) (VisualizeWeights 0) s0) as [s1 H1].
  pose proof (when_log_Ok _ _ _ H1) as (Hw1 & _).
  rewrite (@bindM_Ok _ _ _ _ _ _ _ _ H1).
  apply (@epochs_total eng (b0 :: rest) eval_every checkpoint_every Hlam Hee Hce).
  rewrite Hw1. eapply Forall_impl; [| exact Hfit]. intros b Hb.
  apply (@rule_accepts_shape _ (layer_weight s)); [| | exact Hb]; reflexivity.
Qed.

(** *** Steps and runs with Krotov's rule itself *)

(** Weights that are a numpy array pass the lines that read shapes and
    check [k], and are refused by [torch.sign]. *)
Lemma update_called_ndarray (self : KrotovsRule) (inputs W : Tensor) :
  (1 <= nrows inputs)%nat -> (k self <= Z.of_nat (nrows W))%Z ->
  update_called self inputs (np_ndarray W) = Err TypeError.
Proof.
  intros HB HkH. unfold update_called. rewrite prologue_Ok by assumption. reflexivity.
Qed.

Lemma train_step_krotov (rule : KrotovsRule) (eng : HebbianEngine)
    (inputs : Tensor) (labels : list Z) (s : EngineState) :
  learning_rule eng = KrotovsRule_rule rule ->
  (1 <= nrows inputs)%nat -> (k rule <= Z.of_nat (nrows (layer_weight s)))%Z ->
  _train_step eng inputs labels s = (Err TypeError, s).
Proof.
  intros Hrule HB HkH.
  unfold _train_step, bindM, lift, reshape_flat, get_weight.
  destruct (Nat.eqb_spec (nrows inputs) 0) as [E | _]; [lia |].
  rewrite Hrule. cbn [rule_update KrotovsRule_rule].
  rewrite update_called_ndarray by assumption. reflexivity.
Qed.

Lemma train_epoch_krotov (rule : KrotovsRule) (eng : HebbianEngine)
    (inputs : Tensor) (labels : list Z) (rest : DataLoader)
    (eval_every checkpoint_every : option Z) (epoch : nat) (s : EngineState) :
  learning_rule eng = KrotovsRule_rule rule ->
  (1 <= nrows inputs)%nat -> (k rule <= Z.of_nat (nrows (layer_weight s)))%Z ->
  exists s',
    train_epoch eng ((inputs, labels) :: rest) eval_every checkpoint_every epoch s
    = (Err TypeError, s') /\
    layer_weight s' = layer_weight s /\
    optimizer_lr s' = optimizer_lr s /\
    last_epoch s' = last_epoch s /\
    events s' = events s
                ++ [LogLearningRate (optimizer_lr s)]
                ++ (if visualizer eng
                    then [VisualizeLearningRate (optimizer_lr s)
                            (epoch * length ((inputs, labels) :: rest))]
                    else []).
Proof.
  intros Hrule HB HkH. unfold train_epoch.
  unfold bindM at 1. unfold get_last_lr at 1.
  unfold bindM at 1. unfold log at 1.
  set (s0 := mkEngineState (layer_weight s) (optimizer_lr s) (last_epoch s)
                           (events s ++ [LogLearningRate (optimizer_lr s)])).
  destruct (when_log_total (visualizer eng)
              (VisualizeLearningRate (optimizer_lr s)
                 (epoch * length ((inputs, labels) :: rest))) s0)
    as [s1 H1].
  pose proof (when_log_Ok _ _ _ H1) as (Hw1 & Hlr1 & Hle1 & Hev1).
  rewrite (@bindM_Ok _ _ _ _ _ _ _ _ H1).
  exists s1. split.
  - apply bindM_Err. simpl for_each. apply bindM_Err. apply bindM_Err.
    apply (@train_step_krotov rule eng inputs labels s1 Hrule HB). rewrite Hw1. exact HkH.
  - rewrite Hw1, Hlr1, Hle1, Hev1. simpl. rewrite <- !app_assoc.
    repeat split; reflexivity.
Qed.

(** A run with Krotov's rule raises in the first step of the first epoch:
    the weights have been drawn and the rate has been read, nothing else
    has happened. *)
Lemma train_krotov (rule : KrotovsRule) (eng : HebbianEngine)
    (noise : nat -> nat -> Q) (inputs : Tensor) (labels : list Z) (rest : DataLoader)
    (epochs : nat) (eval_every checkpoint_every : option Z) (s : EngineState) :
  learning_rule eng = KrotovsRule_rule rule ->
  (1 <= nrows inputs)%nat -> (k rule <= Z.of_nat (nrows (layer_weight s)))%Z ->
  (1 <= epochs)%nat ->
  exists s',
    train eng noise ((inputs, labels) :: rest) epochs eval_every checkpoint_every s
    = (Err TypeError, s') /\
    layer_weight s' = tabulate (nrows (layer_weight s)) (ncols (layer_weight s)) noise /\
    optimizer_lr s' = optimizer_lr s /\
    last_epoch s' = last_epoch s /\
    events s' = events s
                ++ (if visualizer eng then [VisualizeWeights 0] else [])
                ++ [LogLearningRate (optimizer_lr s)]
                ++ (if visualizer eng
                    then [VisualizeLearningRate (optimizer_lr s) 0] else []).
Proof.
  intros Hrule HB HkH Hep. destruct epochs as [| n]; [lia |]. unfold train.
  unfold bindM at 1. unfold lift at 1.
  unfold bindM at 1. unfold get_weight at 1.
  unfold bindM at 1. unfold set_weight at 1.
  set (s0 := mkEngineState _ _ _ _).
  destruct (when_log_total (visualizer eng) (VisualizeWeights 0) s0) as [s1 H1].
  pose proof (when_log_Ok _ _ _ H1) as (Hw1 & Hlr1 & Hle1 & Hev1).
  rewrite (@bindM_Ok _ _ _ _ _ _ _ _ H1).
  change (seq 0 (S n)) with (0%nat :: seq 1 n). simpl for_each.
  destruct (@train_epoch_krotov rule eng inputs labels rest eval_every checkpoint_every
              0 s1 Hrule HB) as (s2 & Hrun & Hw2 & Hlr2 & Hle2 & Hev2).
  { rewrite Hw1. exact HkH. }
  exists s2. split; [apply bindM_Err; exact Hrun |].
  rewrite Hw2, Hlr2, Hle2, Hev2, Hw1, Hlr1, Hle1, Hev1. simpl.
  rewrite <- !app_assoc. repeat split; reflexivity.
Qed.

(** ** Properties of the engine *)

(** C7.  A training step on a batch without samples, or with [k] greater
    than the number of hidden units, raises (the reshape's [ValueError],
    respectively the [AssertionError] of the rule) and leaves the engine's
    state, the layer weight in particular, exactly as it was; the rule
    itself raises on both inputs, so no delta reaches the optimizer. *)
Theorem C7_failed_step_keeps_weights (self : KrotovsRule) (eng : HebbianEngine)
    (inputs : Tensor) (labels : list Z) (st : EngineState) :
  learning_rule eng = KrotovsRule_rule self ->
  nrows inputs = 0%nat \/ (Z.of_nat (nrows (layer_weight st)) < k self)%Z ->
  exists e,
    _train_step eng inputs labels st = (Err e, st) /\
    (e = ValueError \/ e = AssertionError assert_msg) /\
    exists e', update self inputs (layer_weight st) = Err e' /\
               (e' = IndexError \/ e' = AssertionError assert_msg).
Proof.
  intros Hrule Hbad. unfold _train_step, bindM, lift, reshape_flat, get_weight.
  rewrite Hrule. simpl rule_update. unfold update_called.
  destruct (Nat.eqb_spec (nrows inputs) 0) as [E0 | E0].
  - exists ValueError. split; [reflexivity |]. split; [left; reflexivity |].
    exists IndexError. split; [| left; reflexivity].
    unfold update. rewrite prologue_empty_batch by exact E0. reflexivity.
  - destruct Hbad as [Hbad | Hbad]; [contradiction |].
    assert (prologue self inputs (layer_weight st) = Err (AssertionError assert_msg))
      as Hpro by (apply prologue_assert; [lia | exact Hbad]).
    exists (AssertionError assert_msg). rewrite Hpro.
    split; [reflexivity |]. split; [right; reflexivity |].
    exists (AssertionError assert_msg). split; [| right; reflexivity].
    unfold update. rewrite Hpro. reflexivity.
Qed.

Lemma C7_witness :
  exists e,
    _train_step engine_one (mkTensor 0 1 []) [] state_one = (Err e, state_one) /\
    (e = ValueError \/ e = AssertionError assert_msg) /\
    exists e', update rule_default (mkTensor 0 1 []) (layer_weight state_one) = Err e' /\
               (e' = IndexError \/ e' = AssertionError assert_msg).
Proof.
  apply C7_failed_step_keeps_weights.
  - reflexivity.
  - left. reflexivity.
Defined.

(** C8.  What the code does in the scenario of the claim when the engine
    has Krotov's rule, the one rule there is: [train] over 4 epochs with
    [eval_every = 2] and [checkpoint_every = None], on a loader whose first
    batch has samples and with [k <= H], raises [TypeError] in the first
    training step (line 25 hands the weights over as a numpy array, line 39
    of [update] applies [torch.sign] to them).  No epoch is completed, and
    the evaluator is invoked not at all, where the claim has two
    evaluations; the checkpoint sink is not invoked either. *)
Theorem C8_krotov_run_never_evaluates (rule : KrotovsRule) (eng : HebbianEngine)
    (noise : nat -> nat -> Q) (inputs : Tensor) (labels : list Z) (rest : DataLoader)
    (st : EngineState) :
  learning_rule eng = KrotovsRule_rule rule ->
  (1 <= nrows inputs)%nat -> (k rule <= Z.of_nat (nrows (layer_weight st)))%Z ->
  exists st',
    train eng noise ((inputs, labels) :: rest) 4 (Some 2%Z) None st
    = (Err TypeError, st') /\
    filter is_cadence_event (events st') = filter is_cadence_event (events st) /\
    last_epoch st' = last_epoch st.
Proof.
  intros Hrule HB HkH.
  destruct (@train_krotov rule eng noise inputs labels rest 4 (Some 2%Z) None st
              Hrule HB HkH) as (st' & Hrun & _ & _ & Hle & Hev); [lia |].
  exists st'. split; [exact Hrun |]. split; [| exact Hle].
  rewrite Hev, !filter_app.
  destruct (visualizer eng); simpl; rewrite ?app_nil_r; reflexivity.
Qed.

Lemma C8_witness :
  exists st',
    train engine_one noise_one data_one 4 (Some 2%Z) None state_one
    = (Err TypeError, st') /\
    filter is_cadence_event (events st') = filter is_cadence_event (events state_one) /\
    last_epoch st' = last_epoch state_one.
Proof.
  apply (@C8_krotov_run_never_evaluates rule_default engine_one noise_one
           X_one [1%Z] [] state_one).
  - reflexivity.
  - vm_compute. lia.
  - vm_compute. discriminate.
Defined.

(** C9.  What the code does with the objects [main] constructs: the
    scheduler with the factor [1 - epoch / epochs] and Krotov's rule.  The
    rate read at the start of epoch 0 is [lr * (1 - 0 / epochs)], as the
    claim has it; then the first training step raises [TypeError] (line 25
    hands the weights over as a numpy array, line 39 of [update] applies
    [torch.sign] to them), so no batch is stepped, the schedule is never
    advanced, and no later epoch is started. *)
Theorem C9_main_schedule_never_advances (rule : KrotovsRule) (lr : Q) (epochs : nat)
    (evaluator : Tensor -> Stats) (bar : nat -> nat -> nat) (W : Tensor)
    (noise : nat -> nat -> Q) (inputs : Tensor) (labels : list Z) (rest : DataLoader)
    (eval_every checkpoint_every : option Z) (st0 : EngineState) :
  LambdaLR lr (main_lr_lambda epochs) W = Ok st0 ->
  (1 <= nrows inputs)%nat -> (k rule <= Z.of_nat (nrows W))%Z ->
  exists st',
    train (main_engine rule lr epochs evaluator bar) noise ((inputs, labels) :: rest)
          epochs eval_every checkpoint_every st0 = (Err TypeError, st') /\
    filter is_schedule_event (events st') =
      [LogLearningRate (lr * (1 - inject_Z (Z.of_nat 0) / inject_Z (Z.of_nat epochs)))] /\
    last_epoch st' = 0%nat.
Proof.
  intros Hinit HB HkH. unfold LambdaLR, main_lr_lambda in Hinit.
  destruct (Nat.eqb_spec epochs 0) as [E0 | E0]; [discriminate Hinit |].
  simpl in Hinit. injection Hinit as <-.
  match goal with
  | |- exists st', train ?eng _ _ _ _ _ ?s0 = _ /\ _ =>
      destruct (@train_krotov rule eng noise inputs labels rest epochs eval_every
                  checkpoint_every s0 eq_refl HB HkH)
        as (st' & Hrun & _ & _ & Hle & Hev); [lia |]
  end.
  exists st'. split; [exact Hrun |]. split; [| exact Hle].
  rewrite Hev. reflexivity.
Qed.

Lemma C9_witness :
  exists st',
    train (main_engine rule_default 1 4 ev0 bar_one) noise_one ((X_one, [1%Z]) :: [])
          4 (Some 50%Z) None state_one = (Err TypeError, st') /\
    filter is_schedule_event (events st') =
      [LogLearningRate (1 * (1 - inject_Z (Z.of_nat 0) / inject_Z (Z.of_nat 4)))] /\
    last_epoch st' = 0%nat.
Proof.
  apply (@C9_main_schedule_never_advances rule_default 1 4 ev0 bar_one W_one noise_one
           X_one [1%Z] [] (Some 50%Z) None state_one).
  - vm_compute. reflexivity.
  - vm_compute. lia.
  - vm_compute. discriminate.
Defined.

(** ** [update] and the objects of its caller *)

Ltac heap_step :=
  cbv beta iota zeta delta
      [bindM bind read deref h_t h_op1 h_op2 h_index_put alloc write lift retM
       objs region_of loc transposes old_objs new_objs option_map
       Nat.iter nat_rect fst snd returned py_assert];
  cbn [nth_error app length list_set].

Ltac heap_case :=
  match goal with
  | |- context [match ?op with Ok _ => _ | Err _ => _ end] =>
      lazymatch op with
      | context [match _ with Ok _ => _ | Err _ => _ end] => fail
      | _ => let E := fresh "E" in destruct op eqn:E
      end
  | |- context [if ?c then Ok tt else Err _] =>
      let E := fresh "E" in destruct c eqn:E
  end.

Ltac heap_run HX HW :=
  repeat first [ progress (rewrite ?HX, ?HW) | progress heap_step | heap_case ].

Lemma update_heap_spec (self : KrotovsRule) (old : list Tensor) (li lw : nat)
    (X W : Tensor) :
  nth_error old li = Some X -> nth_error old lw = Some W ->
  old_objs (snd (update_heap self (mkRef Old li 0) (mkRef Old lw 0) (mkStore old []))) = old /\
  returned (update_heap self (mkRef Old li 0) (mkRef Old lw 0) (mkStore old []))
  = update self X W.
Proof.
  intros HX HW.
  unfold update_heap, update, prologue, overlap, activations_topk, raw_delta, normalize.
  heap_run HX HW; (split; [reflexivity | congruence]).
Qed.

Lemma tabulate_rows (r c : nat) (f : nat -> nat -> Q) :
  length (data (tabulate r c f)) = r /\
  Forall (fun row => length row = c) (data (tabulate r c f)).
Proof.
  unfold tabulate. simpl. split.
  - rewrite length_map, length_seq. reflexivity.
  - apply Forall_forall. intros row Hrow. apply in_map_iff in Hrow.
    destruct Hrow as [i [<- _]]. rewrite length_map, length_seq. reflexivity.
Qed.

Lemma update_shape (self : KrotovsRule) (inputs weights d_w : Tensor) :
  update self inputs weights = Ok d_w ->
  nrows d_w = nrows weights /\ ncols d_w = ncols weights /\
  length (data d_w) = nrows weights /\
  Forall (fun row => length row = ncols weights) (data d_w).
Proof.
  intros H. rewrite update_unfold in H.
  apply bind_Ok_inv in H. destruct H as [ds [Hds Hn]].
  rewrite update_ds_unfold in Hds.
  apply bind_Ok_inv in Hds. destruct Hds as [[[[b h] d] xt] [_ Hds]].
  apply bind_Ok_inv in Hds. destruct Hds as [S [_ Hds]].
  apply bind_Ok_inv in Hds. destruct Hds as [A [_ Hds]].
  apply raw_delta_inv in Hds. destruct Hds as (Hr & Hc & _).
  apply normalize_inv in Hn. destruct Hn as (Hr' & Hc' & f & ->).
  rewrite Hr, Hc. simpl nrows. simpl ncols.
  split; [reflexivity |]. split; [reflexivity |]. apply tabulate_rows.
Qed.

(** C10.  [update] is a function of its arguments and the hyperparameters
    only.  A call on the tensor objects [li] and [lw] of any store leaves
    every object that existed before the call as it was (the inputs and the
    weights among them) and returns the value [update self X W] of the pure
    reading, so that two calls with equal inputs, weights and
    hyperparameters return equal deltas; the delta has the shape of the
    weights, and a valid call returns one. *)
Theorem C10_update_is_pure (self : KrotovsRule) (old1 old2 : list Tensor)
    (li1 lw1 li2 lw2 : nat) (X W : Tensor) :
  nth_error old1 li1 = Some X -> nth_error old1 lw1 = Some W ->
  nth_error old2 li2 = Some X -> nth_error old2 lw2 = Some W ->
  let call1 := update_heap self (mkRef Old li1 0) (mkRef Old lw1 0) (mkStore old1 []) in
  let call2 := update_heap self (mkRef Old li2 0) (mkRef Old lw2 0) (mkStore old2 []) in
  old_objs (snd call1) = old1 /\
  old_objs (snd call2) = old2 /\
  returned call1 = update self X W /\
  returned call2 = returned call1 /\
  (forall d_w, returned call1 = Ok d_w ->
     nrows d_w = nrows W /\ ncols d_w = ncols W /\
     length (data d_w) = nrows W /\
     Forall (fun row => length row = ncols W) (data d_w)) /\
  (valid_call self X W -> exists d_w, returned call1 = Ok d_w).
Proof.
  intros HX1 HW1 HX2 HW2 call1 call2.
  destruct (update_heap_spec self old1 li1 lw1 HX1 HW1) as [Hf1 Hr1].
  destruct (update_heap_spec self old2 li2 lw2 HX2 HW2) as [Hf2 Hr2].
  fold call1 in Hf1, Hr1. fold call2 in Hf2, Hr2.
  split; [exact Hf1 |]. split; [exact Hf2 |]. split; [exact Hr1 |].
  split; [rewrite Hr1; exact Hr2 |]. split.
  - intros d_w Hd. rewrite Hr1 in Hd. exact (@update_shape self X W d_w Hd).
  - intros Hv. rewrite Hr1. apply update_Ok, Hv.
Qed.

Lemma C10_witness :
  let call1 := update_heap rule_default (mkRef Old 0 0) (mkRef Old 1 0) (mkStore store_a []) in
  let call2 := update_heap rule_default (mkRef Old 2 0) (mkRef Old 0 0) (mkStore store_b []) in
  old_objs (snd call1) = store_a /\
  old_objs (snd call2) = store_b /\
  returned call1 = update rule_default X_tie W_half /\
  returned call2 = returned call1 /\
  (forall d_w, returned call1 = Ok d_w ->
     nrows d_w = nrows W_half /\ ncols d_w = ncols W_half /\
     length (data d_w) = nrows W_half /\
     Forall (fun row => length row = ncols W_half) (data d_w)) /\
  (valid_call rule_default X_tie W_half -> exists d_w, returned call1 = Ok d_w).
Proof.
  apply (@C10_update_is_pure rule_default store_a store_b 0 1 2 0 X_tie W_half);
    reflexivity.
Defined.

(** * Further properties *)

(** ** What [update] and [update_argsort] raise *)

Lemma overlap_mismatch (self : KrotovsRule) (weights inputs : Tensor) :
  ncols weights <> ncols inputs ->
  overlap self weights (torch.t inputs) = Err RuntimeError.
Proof.
  intros HD. unfold overlap, torch.mul.
  rewrite zip_tensor_Ok by reflexivity. simpl bind.
  unfold torch.matmul. simpl ncols. simpl nrows.
  destruct (Nat.eqb_spec (ncols weights) (ncols inputs)) as [E | _]; [contradiction |].
  reflexivity.
Qed.

Lemma elements_no_columns (T : Tensor) : ncols T = 0%nat -> elements T = [].
Proof.
  intros H. unfold elements. rewrite H. simpl.
  induction (seq 0 (nrows T)) as [| i l IH]; simpl; [reflexivity | exact IH].
Qed.

Lemma normalize_no_columns (self : KrotovsRule) (ds : Tensor) :
  ncols ds = 0%nat -> normalize self ds = Err RuntimeError.
Proof.
  intros H. unfold normalize, torch.max.
  rewrite (@elements_no_columns (torch.abs ds)) by exact H. reflexivity.
Qed.

Lemma activations_topk_negative (self : KrotovsRule) (S : Tensor) (H B : nat) :
  (k self < 0)%Z -> activations_topk self S H B = Err RuntimeError.
Proof.
  intros Hk. unfold activations_topk, torch.topk.
  assert ((0 <=? k self)%Z = false) as -> by (apply Z.leb_gt; exact Hk).
  reflexivity.
Qed.

Lemma activations_topk_zero (self : KrotovsRule) (S : Tensor) (H B : nat) :
  k self = 0%Z -> activations_topk self S H B = Err IndexError.
Proof.
  intros Hk. unfold activations_topk, torch.topk. rewrite Hk.
  assert ((0 <=? Z.of_nat (nrows S))%Z = true) as -> by (apply Z.leb_le; lia).
  reflexivity.
Qed.

(** The raw delta of [update] needs no feature: only its normalisation
    does. *)
Lemma update_ds_Ok_any_width (self : KrotovsRule) (inputs weights : Tensor) :
  (1 <= nrows inputs)%nat -> ncols weights = ncols inputs ->
  (1 <= k self)%Z -> (k self <= Z.of_nat (nrows weights))%Z ->
  exists ds, update_ds self inputs weights = Ok ds /\
             nrows ds = nrows weights /\ ncols ds = ncols weights.
Proof.
  intros HB HD Hk1 HkH.
  pose proof (update_activations_Ok self inputs weights HB HD Hk1 HkH) as HA.
  unfold update_activations in HA. unfold update_ds.
  rewrite prologue_Ok in * by assumption. simpl bind in *.
  rewrite overlap_Ok in * by exact HD. simpl bind in *.
  rewrite HA. simpl bind.
  destruct (@raw_delta_Ok
              (tabulate (nrows weights) (nrows inputs)
                 (act_fn (delta self) (ranked (scores self inputs weights) 0)
                    (ranked (scores self inputs weights) (Z.to_nat (k self) - 1))))
              (tabulate (nrows weights) (nrows inputs) (score_spec self weights inputs))
              inputs weights eq_refl eq_refl eq_refl eq_refl HD) as [ds Hds].
  exists ds. split; [exact Hds |].
  apply raw_delta_inv in Hds. destruct Hds as [H1 [H2 _]]. split; assumption.
Qed.

(** X1.  The exceptions of [update], in the order in which the method
    meets them: an empty batch is an [IndexError] (line 34), then [k > H]
    the [AssertionError] (line 36), then different feature counts a
    [RuntimeError] of the product (line 39), then [k < 0] a [RuntimeError]
    of the top-k search and [k = 0] an [IndexError] (lines 42 and 46), then
    a batch without features a [RuntimeError] of the maximum (line 57);
    every other call returns a delta of the shape of the weights. *)
Theorem X1_update_raises (self : KrotovsRule) (inputs weights : Tensor) :
  match update_raises self inputs weights with
  | Some e => update self inputs weights = Err e
  | None => exists d_w, update self inputs weights = Ok d_w /\
                        nrows d_w = nrows weights /\ ncols d_w = ncols weights
  end.
Proof.
  unfold update_raises.
  destruct (Nat.eqb_spec (nrows inputs) 0) as [HB | HB].
  { unfold update. rewrite prologue_empty_batch by exact HB. reflexivity. }
  destruct (Z.ltb_spec (Z.of_nat (nrows weights)) (k self)) as [HkH | HkH].
  { unfold update. rewrite prologue_assert by (try assumption; lia). reflexivity. }
  destruct (Nat.eqb_spec (ncols weights) (ncols inputs)) as [HD | HD]; simpl negb; cbv iota.
  2:{ unfold update. rewrite prologue_Ok by (try assumption; lia). simpl bind.
      rewrite overlap_mismatch by exact HD. reflexivity. }
  destruct (Z.ltb_spec (k self) 0) as [Hneg | Hneg].
  { unfold update. rewrite prologue_Ok by (try assumption; lia). simpl bind.
    rewrite overlap_Ok by exact HD. simpl bind.
    rewrite activations_topk_negative by exact Hneg. reflexivity. }
  destruct (Z.eqb_spec (k self) 0) as [H0 | H0].
  { unfold update. rewrite prologue_Ok by (try assumption; lia). simpl bind.
    rewrite overlap_Ok by exact HD. simpl bind.
    rewrite activations_topk_zero by exact H0. reflexivity. }
  destruct (Nat.eqb_spec (ncols inputs) 0) as [HD0 | HD0].
  { destruct (@update_ds_Ok_any_width self inputs weights) as (ds & Hds & Hr & Hc);
      try assumption; try lia.
    rewrite update_unfold, Hds. simpl bind.
    apply normalize_no_columns. lia. }
  assert (valid_call self inputs weights) as Hv by (unfold valid_call; lia).
  destruct (update_Ok Hv) as [d_w Hd]. exists d_w. split; [exact Hd |].
  destruct (@update_shape self inputs weights d_w Hd) as (Hr & Hc & _). auto.
Qed.

(** *** The numpy operations, where the tensor operations return *)

Lemma np_zip_Ok (f : Q -> Q -> Q) (A B C : Tensor) :
  zip_tensor f A B = Ok C -> np.zip f A B = Ok C.
Proof.
  unfold zip_tensor, np.zip. destruct (same_shape A B); [auto | discriminate].
Qed.

Lemma np_dot_Ok (A B C : Tensor) : torch.matmul A B = Ok C -> np.dot A B = Ok C.
Proof.
  unfold torch.matmul, np.dot. destruct (ncols A =? nrows B)%nat; [auto | discriminate].
Qed.

Lemma np_amax_Ok (T : Tensor) (m : Q) : torch.max T = Ok m -> np.amax T = Ok m.
Proof.
  unfold torch.max, np.amax. destruct (elements T); [discriminate | auto].
Qed.

Lemma np_amax_no_columns (T : Tensor) : ncols T = 0%nat -> np.amax T = Err ValueError.
Proof.
  intros H. unfold np.amax. rewrite (elements_no_columns T H). reflexivity.
Qed.

Lemma getitem_too_large {A : Type} (rows : list A) (i : Z) :
  (Z.of_nat (length rows) <= i)%Z -> getitem rows i = Err IndexError.
Proof.
  intros Hi. unfold getitem.
  destruct (Z.ltb_spec i 0) as [Hneg | _]; [lia |].
  destruct (Z.ltb_spec i (Z.of_nat (length rows))) as [Hlt | _]; [lia |].
  rewrite andb_false_r. reflexivity.
Qed.

Lemma getitem_too_small {A : Type} (rows : list A) (i : Z) :
  (i < - Z.of_nat (length rows))%Z -> getitem rows i = Err IndexError.
Proof.
  intros Hi. unfold getitem.
  destruct (Z.ltb_spec i 0) as [_ | Hpos]; [| lia].
  destruct (Z.leb_spec 0 (i + Z.of_nat (length rows))) as [Hle | _]; [lia |].
  reflexivity.
Qed.

(** Python's negative positions: [rows[-j]] is [rows[len(rows) - j]]. *)
Lemma getitem_negative {A : Type} (rows : list A) (j : Z) :
  (1 <= j <= Z.of_nat (length rows))%Z ->
  getitem rows (- j) = getitem rows (Z.of_nat (length rows) - j).
Proof.
  intros Hj. unfold getitem.
  destruct (Z.ltb_spec (- j) 0) as [_ | Hpos]; [| lia].
  destruct (Z.ltb_spec (Z.of_nat (length rows) - j) 0) as [Hneg | _]; [lia |].
  replace (- j + Z.of_nat (length rows))%Z with (Z.of_nat (length rows) - j)%Z by lia.
  reflexivity.
Qed.

(** *** The stages of [update_argsort] and [update_np] *)

Lemma np_overlap_Ok (self : KrotovsRule) (synapses inputs : Tensor) :
  ncols synapses = ncols inputs ->
  np_overlap self synapses (np.transpose inputs) = Ok (scores self inputs synapses).
Proof.
  intros HD. pose proof (overlap_Ok self synapses inputs HD) as Hov.
  unfold overlap in Hov. apply bind_Ok_inv in Hov. destruct Hov as [sw [Hsw Hdot]].
  unfold np_overlap, np.multiply, np.sign, np.power, np.absolute, np.transpose.
  rewrite (np_zip_Ok _ _ _ Hsw). simpl bind. apply np_dot_Ok, Hdot.
Qed.

Lemma np_overlap_mismatch (self : KrotovsRule) (synapses inputs : Tensor) :
  ncols synapses <> ncols inputs ->
  np_overlap self synapses (np.transpose inputs) = Err ValueError.
Proof.
  intros HD. unfold np_overlap, np.multiply.
  erewrite np_zip_Ok by (apply zip_tensor_Ok; reflexivity). simpl bind.
  unfold np.dot. simpl ncols. simpl nrows.
  destruct (Nat.eqb_spec (ncols synapses) (ncols inputs)) as [E | _]; [contradiction |].
  reflexivity.
Qed.

Lemma np_activations_argsort (self : KrotovsRule) (S : Tensor) (H B : nat) :
  np_activations self S H B = activations_argsort self S H B.
Proof. reflexivity. Qed.

Lemma np_raw_delta_Ok (A S inputs weights ds : Tensor) (n : nat) :
  raw_delta A S (torch.t inputs) n weights = Ok ds ->
  np_raw_delta A S (np.transpose inputs) n weights = Ok ds.
Proof.
  unfold raw_delta, np_raw_delta. intros Hds.
  apply bind_Ok_inv in Hds. destruct Hds as [ax [Hax Hds]].
  apply bind_Ok_inv in Hds. destruct Hds as [nf [Hnf Hds]].
  apply bind_Ok_inv in Hds. destruct Hds as [hebb [Hhebb Hds]].
  unfold np.multiply, np.subtract.
  rewrite (np_zip_Ok _ _ _ Hax). simpl bind.
  unfold np.transpose. rewrite (np_dot_Ok _ _ Hhebb). simpl bind.
  change (np.tile (np.sum ax) n) with (view_repeat (torch.sum ax) n).
  rewrite (np_zip_Ok _ _ _ Hnf). simpl bind.
  apply np_zip_Ok, Hds.
Qed.

Lemma np_normalize_Ok (self : KrotovsRule) (ds d_w : Tensor) :
  normalize self ds = Ok d_w -> np_normalize self ds = Ok d_w.
Proof.
  unfold normalize, np_normalize. intros H.
  apply bind_Ok_inv in H. destruct H as [nc [Hnc H]].
  unfold np.absolute. rewrite (np_amax_Ok _ Hnc). exact H.
Qed.

Lemma np_normalize_no_columns (self : KrotovsRule) (ds : Tensor) :
  ncols ds = 0%nat -> np_normalize self ds = Err ValueError.
Proof.
  intros H. unfold np_normalize.
  rewrite (@np_amax_no_columns (np.absolute ds)) by exact H. reflexivity.
Qed.

(** With [1 <= k <= H] both methods reach the normalisation, of the same
    raw delta. *)
Lemma argsort_stages (self : KrotovsRule) (inputs weights : Tensor) :
  (1 <= nrows inputs)%nat -> ncols weights = ncols inputs ->
  (1 <= k self)%Z -> (k self <= Z.of_nat (nrows weights))%Z ->
  exists ds,
    nrows ds = nrows weights /\ ncols ds = ncols weights /\
    update_argsort self inputs weights = normalize self ds /\
    update_np self inputs weights = np_normalize self ds.
Proof.
  intros HB HD Hk1 HkH.
  pose proof (overlap_Ok self weights inputs HD) as Hov.
  fold (scores self inputs weights) in Hov.
  pose proof (@activations_argsort_Ok self (scores self inputs weights) Hk1 HkH) as HA.
  simpl nrows in HA. simpl ncols in HA.
  set (A := tabulate (nrows weights) (nrows inputs)
              (act_fn (delta self)
                 (ranked_asc (scores self inputs weights) (nrows weights - 1))
                 (ranked_asc (scores self inputs weights)
                    (nrows weights - Z.to_nat (k self))))) in *.
  destruct (@raw_delta_Ok A (scores self inputs weights) inputs weights
              eq_refl eq_refl eq_refl eq_refl HD) as [ds Hds].
  exists ds.
  destruct (raw_delta_inv _ _ _ _ _ Hds) as (Hr & Hc & _).
  split; [exact Hr |]. split; [exact Hc |]. split.
  - unfold update_argsort. rewrite prologue_Ok by assumption. simpl bind.
    rewrite Hov. simpl bind. rewrite HA. simpl bind. rewrite Hds. reflexivity.
  - unfold update_np.
    destruct (tensor_row_0 inputs HB) as [row [Erow Lrow]]. rewrite Erow. simpl bind.
    rewrite Lrow. rewrite np_overlap_Ok by exact HD. simpl bind.
    rewrite np_activations_argsort, HA. simpl bind.
    rewrite (np_raw_delta_Ok _ _ _ _ _ Hds). reflexivity.
Qed.

(** *** The selection by full sort outside [1 <= k <= H] *)

Lemma argsort_length (S : Tensor) : length (torch.argsort S) = nrows S.
Proof. unfold torch.argsort. apply rows_of_columns_length. Qed.

Lemma argsort_first_write (S : Tensor) :
  (1 <= nrows S)%nat ->
  exists y_last A,
    getitem (torch.argsort S) (Z.of_nat (nrows S) - 1) = Ok y_last /\
    index_put (torch.zeros (nrows S) (ncols S)) y_last (torch.arange (ncols S)) 1 = Ok A.
Proof.
  intros HH. unfold torch.argsort.
  replace (Z.of_nat (nrows S) - 1)%Z with (Z.of_nat (nrows S - 1)) by lia.
  rewrite getitem_rows_of_columns by lia.
  eexists. eexists. split; [reflexivity |].
  rewrite map_map.
  change (fun x : nat => nth (nrows S - 1) (argsort_col (column S x)) 0%nat)
    with (ranked_asc S (nrows S - 1)).
  apply (@index_put_column_writes (torch.zeros (nrows S) (ncols S)) (nrows S) (ncols S)
           (ranked_asc S (nrows S - 1)) 1 eq_refl eq_refl).
  intros j _. apply ranked_asc_lt. lia.
Qed.

(** Line 79 with [k < 1]: the position [H - k] is past the last row. *)
Lemma activations_argsort_small_k (self : KrotovsRule) (S : Tensor) :
  (k self < 1)%Z ->
  activations_argsort self S (nrows S) (ncols S) = Err IndexError.
Proof.
  intros Hk. unfold activations_argsort.
  destruct (Nat.eq_dec (nrows S) 0) as [H0 | H0].
  - rewrite (@getitem_too_small _ (torch.argsort S)); [reflexivity |].
    rewrite argsort_length. lia.
  - destruct (@argsort_first_write S) as (y_last & A & E1 & E2); [lia |].
    rewrite E1. simpl bind. rewrite E2. simpl bind.
    rewrite (@getitem_too_large _ (torch.argsort S)); [reflexivity |].
    rewrite argsort_length. lia.
Qed.

(** Line 116 with [2 * H < k]: the position [hid - k] is before the first
    row even after the wrap of negative positions. *)
Lemma np_activations_large_k (self : KrotovsRule) (S : Tensor) :
  (2 * Z.of_nat (nrows S) < k self)%Z ->
  np_activations self S (nrows S) (ncols S) = Err IndexError.
Proof.
  intros Hk. rewrite np_activations_argsort. unfold activations_argsort.
  destruct (Nat.eq_dec (nrows S) 0) as [H0 | H0].
  - rewrite (@getitem_too_small _ (torch.argsort S)); [reflexivity |].
    rewrite argsort_length. lia.
  - destruct (@argsort_first_write S) as (y_last & A & E1 & E2); [lia |].
    rewrite E1. simpl bind. rewrite E2. simpl bind.
    rewrite (@getitem_too_small _ (torch.argsort S)); [reflexivity |].
    rewrite argsort_length. lia.
Qed.

(** Line 116 with [H < k <= 2 * H]: the negative position [hid - k] counts
    from the end, which is the position of the rank [k - H]. *)
Lemma np_activations_wrap (self : KrotovsRule) (S : Tensor) (B : nat) (j : Z) :
  (1 <= j)%Z -> (j <= Z.of_nat (nrows S))%Z ->
  np_activations (with_k self (Z.of_nat (nrows S) + j)) S (nrows S) B =
  np_activations (with_k self j) S (nrows S) B.
Proof.
  intros Hj1 HjH. unfold np_activations. simpl k. simpl delta.
  replace (Z.of_nat (nrows S) - (Z.of_nat (nrows S) + j))%Z with (- j)%Z by lia.
  rewrite (@getitem_negative _ (np.argsort S) j)
    by (change (np.argsort S) with (torch.argsort S); rewrite argsort_length; lia).
  change (np.argsort S) with (torch.argsort S). rewrite argsort_length.
  reflexivity.
Qed.

(** X2.  What a call of [update_argsort] raises, in the order in which the
    method meets it: an empty batch is an [IndexError] (line 67), then
    [k > H] the [AssertionError] (line 69), then different feature counts a
    [RuntimeError] of the product (line 72), then [k < 1] an [IndexError]
    of the row [H - k] of the sorted positions (line 79; unlike [update],
    which has a [RuntimeError] for [k < 0]), then a batch without features
    a [RuntimeError] of the maximum (line 90); every other call returns a
    delta of the shape of the weights. *)
Theorem X2_update_argsort_raises (self : KrotovsRule) (inputs weights : Tensor) :
  match update_argsort_raises self inputs weights with
  | Some e => update_argsort self inputs weights = Err e
  | None => exists d_w, update_argsort self inputs weights = Ok d_w /\
                        nrows d_w = nrows weights /\ ncols d_w = ncols weights
  end.
Proof.
  unfold update_argsort_raises.
  destruct (Nat.eqb_spec (nrows inputs) 0) as [HB | HB].
  { unfold update_argsort. rewrite prologue_empty_batch by exact HB. reflexivity. }
  destruct (Z.ltb_spec (Z.of_nat (nrows weights)) (k self)) as [HkH | HkH].
  { unfold update_argsort. rewrite prologue_assert by (try assumption; lia). reflexivity. }
  destruct (Nat.eqb_spec (ncols weights) (ncols inputs)) as [HD | HD]; simpl negb; cbv iota.
  2:{ unfold update_argsort. rewrite prologue_Ok by (try assumption; lia). simpl bind.
      rewrite overlap_mismatch by exact HD. reflexivity. }
  destruct (Z.ltb_spec (k self) 1) as [Hk1 | Hk1].
  { unfold update_argsort. rewrite prologue_Ok by (try assumption; lia). simpl bind.
    rewrite overlap_Ok by exact HD. simpl bind.
    fold (scores self inputs weights).
    pose proof (@activations_argsort_small_k self (scores self inputs weights) Hk1) as HA.
    simpl nrows in HA. simpl ncols in HA. rewrite HA. reflexivity. }
  destruct (@argsort_stages self inputs weights) as (ds & Hr & Hc & Ha & _);
    try assumption; try lia.
  rewrite Ha.
  destruct (Nat.eqb_spec (ncols inputs) 0) as [HD0 | HD0].
  { apply normalize_no_columns. lia. }
  destruct (@normalize_Ok self ds) as [d_w Hd]; try lia.
  exists d_w. split; [exact Hd |].
  destruct (normalize_inv _ _ Hd) as (Hr' & Hc' & _). lia.
Qed.

(** X3.  What a call of the numpy version [update_np] raises.  It has no
    assertion on [k]: an empty batch is an [IndexError] (line 100), then
    different feature counts a [ValueError] of the product (line 112), then
    a layer without hidden units an [IndexError] (line 115), then [k < 1]
    or [k > 2 * hid] an [IndexError] of the row [hid - k] (line 116), then
    a batch without features a [ValueError] of the maximum (line 122);
    every other call, so every [k] from [1] to [2 * hid], returns a delta
    of the shape of the synapses. *)
Theorem X3_update_np_raises (self : KrotovsRule) (inputs synapses : Tensor) :
  match update_np_raises self inputs synapses with
  | Some e => update_np self inputs synapses = Err e
  | None => exists ds, update_np self inputs synapses = Ok ds /\
                       nrows ds = nrows synapses /\ ncols ds = ncols synapses
  end.
Proof.
  unfold update_np_raises.
  destruct (Nat.eqb_spec (nrows inputs) 0) as [HB | HB].
  { unfold update_np. rewrite (tensor_row_empty inputs 0 HB). reflexivity. }
  destruct (tensor_row_0 inputs) as [row [Erow Lrow]]; [lia |].
  destruct (Nat.eqb_spec (ncols synapses) (ncols inputs)) as [HD | HD]; simpl negb; cbv iota.
  2:{ unfold update_np. rewrite Erow. simpl bind.
      rewrite np_overlap_mismatch by exact HD. reflexivity. }
  assert (forall r : KrotovsRule, norm r = norm self /\ precision r = precision self ->
            update_np r inputs synapses =
            (yl <- np_activations r (scores self inputs synapses)
                     (nrows synapses) (nrows inputs) ;;
             ds <- np_raw_delta yl (scores self inputs synapses)
                     (np.transpose inputs) (ncols inputs) synapses ;;
             np_normalize self ds)) as Hun.
  { intros r [Hn Hp]. unfold update_np. rewrite Erow. simpl bind. rewrite Lrow.
    replace (np_overlap r synapses (np.transpose inputs))
      with (np_overlap self synapses (np.transpose inputs))
      by (unfold np_overlap; rewrite Hn; reflexivity).
    rewrite np_overlap_Ok by exact HD. simpl bind.
    unfold np_normalize. rewrite Hp. reflexivity. }
  destruct (Nat.eqb_spec (nrows synapses) 0) as [HH | HH].
  { rewrite (Hun self) by (split; reflexivity).
    rewrite np_activations_argsort. unfold activations_argsort.
    rewrite (@getitem_too_small _ (torch.argsort (scores self inputs synapses)));
      [reflexivity |].
    rewrite argsort_length. simpl nrows. lia. }
  destruct (Z.ltb_spec (k self) 1) as [Hk1 | Hk1]; cbn [orb].
  { rewrite (Hun self) by (split; reflexivity).
    rewrite np_activations_argsort.
    pose proof (@activations_argsort_small_k self (scores self inputs synapses) Hk1) as HA.
    simpl nrows in HA. simpl ncols in HA. rewrite HA. reflexivity. }
  destruct (Z.ltb_spec (2 * Z.of_nat (nrows synapses)) (k self)) as [Hk2 | Hk2]; cbv iota.
  { rewrite (Hun self) by (split; reflexivity).
    pose proof (@np_activations_large_k self (scores self inputs synapses) Hk2) as HA.
    simpl nrows in HA. simpl ncols in HA. rewrite HA. reflexivity. }
  assert (exists j, (1 <= j)%Z /\ (j <= Z.of_nat (nrows synapses))%Z /\
                    update_np self inputs synapses =
                    update_np (with_k self j) inputs synapses) as (j & Hj1 & HjH & Hwrap).
  { destruct (Z.leb_spec (k self) (Z.of_nat (nrows synapses))) as [Hle | Hgt].
    - exists (k self). split; [exact Hk1 |]. split; [exact Hle |].
      destruct self. reflexivity.
    - exists (k self - Z.of_nat (nrows synapses))%Z.
      split; [lia |]. split; [lia |].
      rewrite (Hun self) by (split; reflexivity).
      rewrite (Hun (with_k self (k self - Z.of_nat (nrows synapses))))
        by (split; reflexivity).
      pose proof (@np_activations_wrap self (scores self inputs synapses) (nrows inputs)
                    (k self - Z.of_nat (nrows synapses))) as Hw.
      simpl nrows in Hw.
      rewrite <- Hw by lia.
      replace (Z.of_nat (nrows synapses) + (k self - Z.of_nat (nrows synapses)))%Z
        with (k self) by lia.
      destruct self. reflexivity. }
  rewrite Hwrap.
  destruct (@argsort_stages (with_k self j) inputs synapses) as (ds & Hr & Hc & _ & Hnp);
    try assumption; try lia.
  rewrite Hnp.
  destruct (Nat.eqb_spec (ncols inputs) 0) as [HD0 | HD0].
  { apply np_normalize_no_columns. lia. }
  destruct (@normalize_Ok (with_k self j) ds) as [d_w Hd]; try lia.
  exists d_w. split; [apply np_normalize_Ok; exact Hd |].
  destruct (normalize_inv _ _ Hd) as (Hr' & Hc' & _). lia.
Qed.

(** *** The numpy version against the tensor versions *)

Lemma update_np_stages (self : KrotovsRule) (inputs synapses : Tensor) :
  (1 <= nrows inputs)%nat -> ncols synapses = ncols inputs ->
  update_np self inputs synapses =
  (yl <- np_activations self (scores self inputs synapses)
           (nrows synapses) (nrows inputs) ;;
   ds <- np_raw_delta yl (scores self inputs synapses)
           (np.transpose inputs) (ncols inputs) synapses ;;
   np_normalize self ds).
Proof.
  intros HB HD. unfold update_np.
  destruct (tensor_row_0 inputs HB) as [row [Erow Lrow]].
  rewrite Erow. simpl bind. rewrite Lrow.
  rewrite np_overlap_Ok by exact HD. reflexivity.
Qed.

(** X4.  The numpy version [update_np] does not check [k] against the
    number of hidden units, and line 116 reads the row [hid - k] of the
    sorted positions, which for [hid < k <= 2 * hid] is a negative position
    and counts from the end: the call with [k = hid + j] behaves as the call
    with [k = j], for every [1 <= j <= hid] (it returns the same delta or
    raises the same exception). *)
Theorem X4_update_np_rank_wraps (self : KrotovsRule) (inputs synapses : Tensor) (j : Z) :
  (1 <= j)%Z -> (j <= Z.of_nat (nrows synapses))%Z ->
  update_np (with_k self (Z.of_nat (nrows synapses) + j)) inputs synapses =
  update_np (with_k self j) inputs synapses.
Proof.
  intros Hj1 HjH.
  destruct (Nat.eq_dec (nrows inputs) 0) as [HB | HB].
  { unfold update_np. rewrite (tensor_row_empty inputs 0 HB). reflexivity. }
  destruct (Nat.eq_dec (ncols synapses) (ncols inputs)) as [HD | HD].
  - rewrite !update_np_stages by (try assumption; lia).
    pose proof (@np_activations_wrap self (scores self inputs synapses)
                  (nrows inputs) j Hj1 HjH) as Hw.
    simpl nrows in Hw.
    change (scores (with_k self (Z.of_nat (nrows synapses) + j)) inputs synapses)
      with (scores self inputs synapses).
    change (scores (with_k self j) inputs synapses) with (scores self inputs synapses).
    rewrite Hw. reflexivity.
  - unfold update_np.
    destruct (tensor_row_0 inputs) as [row [Erow Lrow]]; [lia |].
    rewrite Erow. simpl bind.
    rewrite !np_overlap_mismatch by exact HD. reflexivity.
Qed.

Lemma X4_witness :
  update_np (with_k rule_default (Z.of_nat (nrows W_half) + 2)) X_tie W_half =
  update_np (with_k rule_default 2) X_tie W_half.
Proof.
  apply (@X4_update_np_rank_wraps rule_default X_tie W_half 2).
  - lia.
  - vm_compute. discriminate.
Defined.

(** Without ties the top-k search and the full sort select alike. *)
Lemma selections_agree (self : KrotovsRule) (inputs weights : Tensor) :
  (1 <= k self)%Z ->
  no_score_ties self inputs weights ->
  update self inputs weights = update_argsort self inputs weights.
Proof.
  intros Hk1 Hnt. unfold update, update_argsort.
  destruct (prologue self inputs weights) as [p | e] eqn:Ep; [| reflexivity].
  apply prologue_inv in Ep. destruct Ep as (-> & HB & HkH). simpl bind.
  destruct (overlap self weights (torch.t inputs)) as [S | e] eqn:Eo; [| reflexivity].
  apply overlap_inv in Eo. destruct Eo as [HD ->]. simpl bind.
  fold (scores self inputs weights).
  rewrite (@activations_agree self (scores self inputs weights)
             (nrows weights) (nrows inputs) eq_refl eq_refl Hk1 HkH
             (no_score_ties_columns Hnt)).
  reflexivity.
Qed.

Lemma no_score_ties_half : no_score_ties rule_default X_tie W_half.
Proof.
  intros b h1 h2 Hb H1 H2 Hne. simpl in Hb, H1, H2.
  assert (b = 0%nat) as -> by lia.
  destruct h1 as [| [| h1]]; destruct h2 as [| [| h2]]; try lia;
    vm_compute; discriminate.
Qed.

(** X5.  On a valid call without tied scores the three methods of the
    rule, [update] (top-k search), [update_argsort] (full sort) and the
    numpy version [update_np], return one and the same delta. *)
Theorem X5_update_np_agrees (self : KrotovsRule) (inputs weights : Tensor) :
  valid_call self inputs weights ->
  no_score_ties self inputs weights ->
  exists d_w,
    update_np self inputs weights = Ok d_w /\
    update_argsort self inputs weights = Ok d_w /\
    update self inputs weights = Ok d_w.
Proof.
  intros (HB & HD1 & HD & Hk1 & HkH) Hnt.
  destruct (@argsort_stages self inputs weights HB HD Hk1 HkH)
    as (ds & Hr & Hc & Ha & Hnp).
  destruct (@normalize_Ok self ds) as [d_w Hd]; try lia.
  exists d_w. split; [rewrite Hnp; apply np_normalize_Ok; exact Hd |].
  split; [rewrite Ha; exact Hd |].
  rewrite (selections_agree Hk1 Hnt), Ha. exact Hd.
Qed.

Lemma X5_witness :
  exists d_w,
    update_np rule_default X_tie W_half = Ok d_w /\
    update_argsort rule_default X_tie W_half = Ok d_w /\
    update rule_default X_tie W_half = Ok d_w.
Proof.
  apply (@X5_update_np_agrees rule_default X_tie W_half).
  - unfold valid_call. concrete.
  - exact no_score_ties_half.
Defined.

(** ** The delta, entry by entry *)

Lemma nth_map_seq (f : nat -> Q) (n i : nat) :
  (i < n)%nat -> nth i (map f (seq 0 n)) 0 = f i.
Proof.
  intros Hi. rewrite (nth_indep _ 0 (f 0%nat)) by (rewrite length_map, length_seq; exact Hi).
  rewrite (map_nth f (seq 0 n) 0%nat i). rewrite seq_nth by exact Hi. reflexivity.
Qed.

(** Lines 50-54: the Hebbian term minus the weights scaled by the summed
    activation-weighted scores of the unit. *)
Lemma raw_delta_entry (A S X W ds : Tensor) (n : nat) :
  raw_delta A S (torch.t X) n W = Ok ds ->
  forall h d, (h < nrows W)%nat -> (d < ncols W)%nat ->
    get ds h d =
    Qsum (map (fun b => get A h b * get X b d) (seq 0 (ncols A)))
    - Qsum (map (fun b => get A h b * get S h b) (seq 0 (ncols A))) * get W h d.
Proof.
  unfold raw_delta. intros H h d Hh Hd.
  apply bind_Ok_inv in H. destruct H as [ax [Hax H]].
  apply bind_Ok_inv in H. destruct H as [nf [Hnf H]].
  apply bind_Ok_inv in H. destruct H as [hebb [Hhebb H]].
  apply zip_tensor_inv in Hax. destruct Hax as (_ & _ & ->).
  apply zip_tensor_inv in Hnf. destruct Hnf as (Hr1 & Hc1 & ->).
  apply matmul_inv in Hhebb. destruct Hhebb as (HAX & ->).
  apply zip_tensor_inv in H. destruct H as (Hr2 & Hc2 & ->).
  unfold view_repeat, torch.sum in *. simpl nrows in *. simpl ncols in *.
  rewrite length_map, length_seq in Hr1.
  rewrite length_map, length_seq.
  rewrite Hr1 in Hr2.
  rewrite get_tabulate by lia.
  rewrite (@get_tabulate (nrows A) (ncols X)) by lia.
  rewrite (@get_tabulate (nrows A) n) by lia.
  rewrite (@get_tabulate (nrows A) n) by lia.
  rewrite nth_map_seq by lia.
  rewrite (map_ext_in (fun d0 => get A h d0 * get (torch.t (torch.t X)) d0 d)
                      (fun b => get A h b * get X b d)).
  2:{ intros b Hb. apply in_seq in Hb. unfold torch.t. simpl nrows. simpl ncols.
      rewrite get_tabulate by lia. rewrite get_tabulate by lia. reflexivity. }
  rewrite (map_ext_in (fun j => get (tabulate (nrows A) (ncols A)
                                       (fun i j0 => get A i j0 * get S i j0)) h j)
                      (fun b => get A h b * get S h b)).
  2:{ intros b Hb. apply in_seq in Hb. apply get_tabulate; lia. }
  reflexivity.
Qed.

Lemma Qsum_zero {A : Type} (f : A -> Q) (l : list A) :
  (forall x, In x l -> f x == 0) -> Qsum (map f l) == 0.
Proof.
  intros H. induction l as [| x l IH]; simpl; [reflexivity |].
  rewrite (H x) by (left; reflexivity).
  rewrite IH by (intros y Hy; apply H; right; exact Hy).
  reflexivity.
Qed.

Lemma update_stages (self : KrotovsRule) (inputs weights : Tensor) :
  valid_call self inputs weights ->
  exists A ds d_w,
    update_tot_input self inputs weights = Ok (scores self inputs weights) /\
    update_activations self inputs weights = Ok A /\
    nrows A = nrows weights /\ ncols A = nrows inputs /\
    raw_delta A (scores self inputs weights) (torch.t inputs) (ncols inputs) weights = Ok ds /\
    update_ds self inputs weights = Ok ds /\
    nrows ds = nrows weights /\ ncols ds = ncols weights /\
    normalize self ds = Ok d_w /\
    update self inputs weights = Ok d_w.
Proof.
  intros Hv. destruct (update_ds_Ok Hv) as (ds & Hds & Hr & Hc).
  destruct (update_Ok Hv) as [d_w Hd].
  destruct Hv as (HB & HD1 & HD & Hk1 & HkH).
  pose proof (update_activations_Ok self inputs weights HB HD Hk1 HkH) as HA.
  eexists. exists ds, d_w.
  split; [apply update_tot_input_Ok; assumption |].
  split; [exact HA |]. split; [reflexivity |]. split; [reflexivity |].
  assert (raw_delta
            (tabulate (nrows weights) (nrows inputs)
               (act_fn (delta self) (ranked (scores self inputs weights) 0)
                  (ranked (scores self inputs weights) (Z.to_nat (k self) - 1))))
            (scores self inputs weights) (torch.t inputs) (ncols inputs) weights = Ok ds)
    as Hraw.
  { unfold update_activations in HA. rewrite update_ds_unfold in Hds.
    rewrite prologue_Ok in * by assumption. simpl bind in *.
    rewrite overlap_Ok in * by exact HD. simpl bind in *.
    rewrite HA in Hds. exact Hds. }
  split; [exact Hraw |]. split; [exact Hds |]. split; [exact Hr |]. split; [exact Hc |].
  split; [| exact Hd].
  rewrite update_unfold, Hds in Hd. exact Hd.
Qed.

(** X6.  The raw delta of [update] (lines 50-54), entry by entry: on a
    valid call, with the scores [S] and the activations [A] of the call,
    [ds[h, d] = sum_b A[h, b] * X[b, d] - (sum_b A[h, b] * S[h, b]) * W[h, d]]:
    the Hebbian term of the unit minus its weights scaled by its summed
    activation-weighted scores. *)
Theorem X6_raw_delta_formula (self : KrotovsRule) (inputs weights : Tensor) :
  valid_call self inputs weights ->
  exists S A ds,
    update_tot_input self inputs weights = Ok S /\
    update_activations self inputs weights = Ok A /\
    update_ds self inputs weights = Ok ds /\
    forall h d, (h < nrows weights)%nat -> (d < ncols weights)%nat ->
      get ds h d =
      Qsum (map (fun b => get A h b * get inputs b d) (seq 0 (nrows inputs)))
      - Qsum (map (fun b => get A h b * get S h b) (seq 0 (nrows inputs)))
        * get weights h d.
Proof.
  intros Hv.
  destruct (update_stages Hv) as (A & ds & d_w & HS & HA & Hr & Hc & Hraw & Hds & _).
  exists (scores self inputs weights), A, ds.
  split; [exact HS |]. split; [exact HA |]. split; [exact Hds |].
  intros h d Hh Hd. rewrite <- Hc. apply (@raw_delta_entry _ _ _ _ _ _ Hraw); assumption.
Qed.

Lemma X6_witness :
  exists S A ds,
    update_tot_input rule_default X_tie W_half = Ok S /\
    update_activations rule_default X_tie W_half = Ok A /\
    update_ds rule_default X_tie W_half = Ok ds /\
    forall h d, (h < nrows W_half)%nat -> (d < ncols W_half)%nat ->
      get ds h d =
      Qsum (map (fun b => get A h b * get X_tie b d) (seq 0 (nrows X_tie)))
      - Qsum (map (fun b => get A h b * get S h b) (seq 0 (nrows X_tie)))
        * get W_half h d.
Proof.
  apply (@X6_raw_delta_formula rule_default X_tie W_half).
  unfold valid_call. concrete.
Defined.

Lemma normalize_entry (self : KrotovsRule) (ds d_w : Tensor) :
  normalize self ds = Ok d_w ->
  exists nc n,
    torch.max (torch.abs ds) = Ok nc /\
    n = (if Qltb nc (precision self) then precision self else nc) /\
    forall i j, (i < nrows ds)%nat -> (j < ncols ds)%nat ->
                get d_w i j = get ds i j / n.
Proof.
  unfold normalize. intros H. apply bind_Ok_inv in H. destruct H as [nc [Hnc H]].
  injection H as <-. exists nc. eexists. split; [exact Hnc |]. split; [reflexivity |].
  intros i j Hi Hj. unfold torch.true_divide, map_tensor. apply get_tabulate; assumption.
Qed.

(** X7.  A hidden unit that no sample of the batch selects, neither as the
    winner nor as the unit of rank [k] (its row of the activation matrix is
    zero), gets a zero row in the delta that [update] returns: the batch
    does not change its weights. *)
Theorem X7_unselected_unit_unchanged (self : KrotovsRule) (inputs weights A : Tensor)
    (h : nat) :
  valid_call self inputs weights ->
  (h < nrows weights)%nat ->
  update_activations self inputs weights = Ok A ->
  (forall b, (b < nrows inputs)%nat -> get A h b == 0) ->
  exists d_w, update self inputs weights = Ok d_w /\
              forall d, (d < ncols weights)%nat -> get d_w h d == 0.
Proof.
  intros Hv Hh HA Hzero.
  destruct (update_stages Hv) as (A' & ds & d_w & _ & HA' & Hr & Hc & Hraw & _ & Hdr & Hdc & Hn & Hd).
  rewrite HA in HA'. injection HA' as <-.
  exists d_w. split; [exact Hd |]. intros d Hdlt.
  destruct (normalize_entry _ _ Hn) as (nc & n & _ & _ & Hent).
  rewrite Hent by lia.
  rewrite (@raw_delta_entry _ _ _ _ _ _ Hraw) by assumption.
  rewrite Hc.
  rewrite (@Qsum_zero nat (fun b => get A h b * get inputs b d)).
  2:{ intros b Hb. apply in_seq in Hb. rewrite Hzero by lia. ring. }
  rewrite (@Qsum_zero nat (fun b => get A h b * get (scores self inputs weights) h b)).
  2:{ intros b Hb. apply in_seq in Hb. rewrite Hzero by lia. ring. }
  unfold Qdiv. ring.
Qed.

Lemma X7_witness :
  exists d_w, update rule_default X_tie W_three = Ok d_w /\
              forall d, (d < ncols W_three)%nat -> get d_w 2 d == 0.
Proof.
  apply (@X7_unselected_unit_unchanged rule_default X_tie W_three
           (mkTensor 3 1 [[1]; [- default_delta]; [0]]) 2).
  - unfold valid_call. concrete.
  - vm_compute. lia.
  - vm_compute. reflexivity.
  - intros b Hb. simpl in Hb. assert (b = 0%nat) as -> by lia. vm_compute. reflexivity.
Defined.

Lemma normalize_bounded (self : KrotovsRule) (ds d_w : Tensor) :
  0 < precision self ->
  normalize self ds = Ok d_w ->
  forall i j, (i < nrows ds)%nat -> (j < ncols ds)%nat -> Qabs (get d_w i j) <= 1.
Proof.
  intros Hp Hn i j Hi Hj.
  destruct (normalize_entry _ _ Hn) as (nc & n & Hnc & Hdiv & Hent).
  rewrite Hent by assumption.
  destruct (@torch_max_Ok (torch.abs ds)) as (m & Hm & _ & Hmax);
    [simpl; lia | simpl; lia |].
  rewrite Hnc in Hm. injection Hm as <-.
  assert (Qabs (get ds i j) <= nc) as Hle.
  { apply Hmax. rewrite abs_elements. apply in_map, In_elements.
    exists i, j. auto. }
  subst n. destruct (Qltb nc (precision self)) eqn:E.
  - apply Qltb_lt in E. apply Qabs_div_le1; [exact Hp |].
    eapply Qle_trans; [exact Hle | apply Qlt_le_weak, E].
  - apply Qltb_ge in E. apply Qabs_div_le1; [| exact Hle].
    eapply Qlt_le_trans; [exact Hp | exact E].
Qed.

(** X8.  With a positive [precision] no entry of the delta that [update]
    returns on a valid call is larger than 1 in magnitude (lines 57-62). *)
Theorem X8_delta_entries_bounded (self : KrotovsRule) (inputs weights : Tensor) :
  valid_call self inputs weights ->
  0 < precision self ->
  exists d_w, update self inputs weights = Ok d_w /\
              forall i j, (i < nrows weights)%nat -> (j < ncols weights)%nat ->
                          Qabs (get d_w i j) <= 1.
Proof.
  intros Hv Hp.
  destruct (update_stages Hv) as (A & ds & d_w & _ & _ & _ & _ & _ & _ & Hr & Hc & Hn & Hd).
  exists d_w. split; [exact Hd |]. intros i j Hi Hj.
  apply (@normalize_bounded _ _ _ Hp Hn); lia.
Qed.

Lemma X8_witness :
  exists d_w, update rule_default X_tie W_half = Ok d_w /\
              forall i j, (i < nrows W_half)%nat -> (j < ncols W_half)%nat ->
                          Qabs (get d_w i j) <= 1.
Proof.
  apply (@X8_delta_entries_bounded rule_default X_tie W_half).
  - unfold valid_call. concrete.
  - concrete.
Defined.

(** ** The two selected units for any rank *)

Lemma ranked_distinct (S : Tensor) (r1 r2 j : nat) :
  (r1 < nrows S)%nat -> (r2 < nrows S)%nat -> r1 <> r2 ->
  ranked S r1 j <> ranked S r2 j.
Proof.
  intros H1 H2 Hne E. unfold ranked in E.
  assert (NoDup (sort_desc_col (column S j))) as Hnd
      by (apply (Permutation_NoDup (Permutation_sym (sort_desc_col_perm _))), seq_NoDup).
  rewrite (NoDup_nth _ 0%nat) in Hnd. apply Hne.
  apply (Hnd r1 r2); [| | exact E]; rewrite sort_desc_col_length, column_length; assumption.
Qed.

Lemma ranked_le_best (S : Tensor) (r j : nat) :
  (r < nrows S)%nat ->
  get S (ranked S r j) j <= get S (ranked S 0 j) j.
Proof.
  intros Hr.
  pose proof (@top_one (column S j)) as Htop. rewrite column_length in Htop.
  assert (1 <= nrows S)%nat as HH by lia.
  specialize (Htop HH). cbv zeta in Htop.
  fold (ranked S 0 j) in Htop. destruct Htop as [Hw Hbest].
  pose proof (ranked_lt S j Hr) as Hs.
  specialize (Hbest _ Hs). rewrite !column_nth in Hbest by assumption. exact Hbest.
Qed.

(** X9.  For every rank [k >= 2], and whether or not scores are tied, the
    activation matrix of a valid call has in every column exactly two
    entries that are written: [1] at a unit [w] whose score no unit exceeds
    and [-delta] at another unit [s], whose score is not above that of [w];
    all other units of the column have [0]. *)
Theorem X9_two_units_any_rank (self : KrotovsRule) (inputs weights : Tensor) :
  valid_call self inputs weights ->
  (2 <= k self)%Z ->
  exists A,
    update_activations self inputs weights = Ok A /\
    forall b, (b < nrows inputs)%nat ->
      exists w s,
        (w < nrows weights)%nat /\ (s < nrows weights)%nat /\ w <> s /\
        (forall h, (h < nrows weights)%nat ->
           score_spec self weights inputs h b <= score_spec self weights inputs w b) /\
        score_spec self weights inputs s b <= score_spec self weights inputs w b /\
        get A w b = 1 /\
        get A s b = - delta self /\
        (forall h, (h < nrows weights)%nat -> h <> w -> h <> s -> get A h b = 0).
Proof.
  intros (HB & HD1 & HD & Hk1 & HkH) Hk2.
  rewrite update_activations_Ok by assumption.
  eexists. split; [reflexivity |]. intros b Hb.
  set (S := scores self inputs weights).
  set (w := ranked S 0 b). set (s := ranked S (Z.to_nat (k self) - 1) b).
  assert (nrows S = nrows weights) as HS by reflexivity.
  assert (w < nrows weights)%nat as Hw by (rewrite <- HS; apply ranked_lt; lia).
  assert (s < nrows weights)%nat as Hs by (rewrite <- HS; apply ranked_lt; lia).
  assert (w <> s) as Hws by (apply ranked_distinct; lia).
  assert (forall h, (h < nrows weights)%nat -> get S h b = score_spec self weights inputs h b)
    as Hget by (intros h Hh; unfold S, scores; apply get_tabulate; assumption).
  exists w, s. split; [exact Hw |]. split; [exact Hs |]. split; [exact Hws |].
  split; [| split; [| split; [| split]]].
  - intros h Hh.
    pose proof (@top_one (column S b)) as Htop. rewrite column_length in Htop.
    assert (1 <= nrows S)%nat as HH by lia.
    specialize (Htop HH). cbv zeta in Htop.
    fold (ranked S 0 b) in Htop. fold w in Htop. destruct Htop as [_ Hbest].
    specialize (Hbest h Hh). rewrite !column_nth in Hbest by assumption.
    rewrite !Hget in Hbest by assumption. exact Hbest.
  - rewrite <- !Hget by assumption. apply ranked_le_best. lia.
  - rewrite get_tabulate by assumption. unfold act_fn. fold S. fold w. fold s.
    destruct (Nat.eqb_spec s w) as [E | _]; [congruence |].
    rewrite Nat.eqb_refl. reflexivity.
  - rewrite get_tabulate by assumption. unfold act_fn. fold S. fold s.
    rewrite Nat.eqb_refl. reflexivity.
  - intros h Hh Hnw Hns. rewrite get_tabulate by assumption.
    unfold act_fn. fold S. fold w. fold s.
    destruct (Nat.eqb_spec s h) as [E | _]; [congruence |].
    destruct (Nat.eqb_spec w h) as [E | _]; [congruence | reflexivity].
Qed.

Lemma X9_witness :
  exists A,
    update_activations (with_k rule_default 3) X_tie W_three = Ok A /\
    forall b, (b < nrows X_tie)%nat ->
      exists w s,
        (w < nrows W_three)%nat /\ (s < nrows W_three)%nat /\ w <> s /\
        (forall h, (h < nrows W_three)%nat ->
           score_spec (with_k rule_default 3) W_three X_tie h b
           <= score_spec (with_k rule_default 3) W_three X_tie w b) /\
        score_spec (with_k rule_default 3) W_three X_tie s b
        <= score_spec (with_k rule_default 3) W_three X_tie w b /\
        get A w b = 1 /\
        get A s b = - delta (with_k rule_default 3) /\
        (forall h, (h < nrows W_three)%nat -> h <> w -> h <> s -> get A h b = 0).
Proof.
  apply (@X9_two_units_any_rank (with_k rule_default 3) X_tie W_three).
  - unfold valid_call. concrete.
  - vm_compute. discriminate.
Defined.

(** ** A rule that meets the numpy interface *)

(** Krotov's [update] behind the conversions accepts the batches that fit
    the layer. *)
Lemma numpy_rule_accepts (self : KrotovsRule) (W0 : Tensor) (batch : Tensor * list Z) :
  (1 <= k self)%Z -> (k self <= Z.of_nat (nrows W0))%Z ->
  batch_fits W0 batch ->
  rule_accepts (numpy_rule self) W0 batch.
Proof.
  intros Hk1 HkH (HB & HD1 & HD). split; [exact HB |].
  intros W Hr Hc.
  assert (valid_call self (fst batch) W) as Hv
      by (unfold valid_call; repeat split; try assumption; try congruence; lia).
  destruct (update_Ok Hv) as [d Hd]. exists d.
  destruct (@update_shape self (fst batch) W d Hd) as (Hdr & Hdc & _).
  split; [| split; assumption].
  unfold numpy_rule. simpl rule_update. rewrite Hd. reflexivity.
Qed.

Lemma data_one_accepted :
  Forall (rule_accepts (learning_rule engine_np) (layer_weight state_one)) data_one.
Proof.
  repeat constructor; apply numpy_rule_accepts;
    try (unfold batch_fits); concrete.
Qed.

Lemma engine_np_schedule : forall e, exists f, lr_lambda engine_np e = Ok f.
Proof. intros e. eexists. reflexivity. Qed.

(** ** The cadence of evaluation and checkpointing *)











(** ** An epoch up to the step of the schedule *)

(** Lines 56-72 on batches that fit: the rate is logged, every batch is
    stepped and the schedule advances; what is left of the epoch are the
    evaluation and the checkpoint (lines 75-86). *)
Lemma train_epoch_steps (eng : HebbianEngine)
    (data_loader : DataLoader) (eval_every checkpoint_every : option Z)
    (epoch : nat) (s : EngineState) :
  Forall (rule_accepts (learning_rule eng) (layer_weight s)) data_loader ->
  (forall e, exists f, lr_lambda eng e = Ok f) ->
  exists s3,
    train_epoch eng data_loader eval_every checkpoint_every epoch s =
    (stats <~ match eval_every with
              | Some every =>
                  r <~ lift (py_mod (Z.of_nat (epoch + 1)) every) ;;
                  if (r =? 0)%Z then eval eng else retM None
              | None => retM None
              end ;;
     match checkpoint_every with
     | Some every =>
         r <~ lift (py_mod (Z.of_nat (epoch + 1)) every) ;;
         if (r =? 0)%Z then checkpoint stats else retM tt
     | None => retM tt
     end) s3 /\
    last_epoch s3 = S (last_epoch s) /\
    events s3 = events s
                ++ [LogLearningRate (optimizer_lr s)]
                ++ (if visualizer eng
                    then [VisualizeLearningRate (optimizer_lr s) (epoch * length data_loader)]
                    else [])
                ++ flat_map (batch_events (visualizer eng)
                               (fun n => (epoch * length data_loader
                                          + progress_n eng epoch n)%nat))
                            (seq 0 (length data_loader))
                ++ [SchedulerStep].
Proof.
  intros Hfit Hlam. unfold train_epoch.
  unfold bindM at 1. unfold get_last_lr at 1.
  unfold bindM at 1. unfold log at 1.
  set (s0 := mkEngineState (layer_weight s) (optimizer_lr s) (last_epoch s)
                           (events s ++ [LogLearningRate (optimizer_lr s)])).
  destruct (when_log_total (visualizer eng)
              (VisualizeLearningRate (optimizer_lr s) (epoch * length data_loader)) s0)
    as [s1 H1].
  pose proof (when_log_Ok _ _ _ H1) as (Hw1 & _ & Hle1 & Hev1).
  rewrite (@bindM_Ok _ _ _ _ _ _ _ _ H1).
  destruct (@batches_total eng
              (fun n => (epoch * length data_loader + progress_n eng epoch n)%nat)
              data_loader 0%nat s1) as [s2 H2].
  { rewrite Hw1. exact Hfit. }
  pose proof (@batches_Ok _ _ _ _ _ _ _ H2) as (_ & _ & _ & Hle2 & Hev2).
  rewrite (@bindM_Ok _ _ _ _ _ _ _ _ H2).
  destruct (Hlam (S (last_epoch s2))) as [f Hf].
  assert (exists s3, scheduler_step eng s2 = (Ok tt, s3)) as [s3 H3]
      by (unfold scheduler_step; rewrite Hf; eexists; reflexivity).
  pose proof (@scheduler_step_Ok _ _ _ _ H3) as (f' & _ & _ & _ & Hle3 & Hev3).
  rewrite (@bindM_Ok _ _ _ _ _ _ _ _ H3).
  exists s3. split; [reflexivity |].
  split; [rewrite Hle3, Hle2, Hle1; reflexivity |].
  rewrite Hev3, Hev2, Hev1. simpl events. rewrite <- !app_assoc. reflexivity.
Qed.

(** X12.  A cadence of 0 is not refused when [train] is called.  On a run
    that would otherwise complete (a learning rule that accepts every
    batch), [vis_epoch % 0] raises the
    [ZeroDivisionError] at the end of the first epoch (line 77 or 82): by
    then the rate has been logged, every batch of the epoch has been
    stepped, and the schedule has advanced. *)
Theorem X12_zero_cadence_fails_late (eng : HebbianEngine)
    (noise : nat -> nat -> Q) (data_loader : DataLoader) (epochs : nat)
    (eval_every checkpoint_every : option Z) (st : EngineState) :
  data_loader <> [] ->
  Forall (rule_accepts (learning_rule eng) (layer_weight st)) data_loader ->
  (forall e, exists f, lr_lambda eng e = Ok f) ->
  (1 <= epochs)%nat ->
  eval_every = Some 0%Z \/ checkpoint_every = Some 0%Z ->
  exists st',
    train eng noise data_loader epochs eval_every checkpoint_every st
    = (Err ZeroDivisionError, st') /\
    last_epoch st' = S (last_epoch st) /\
    filter is_schedule_event (events st') =
    filter is_schedule_event (events st)
    ++ LogLearningRate (optimizer_lr st)
       :: repeat LocalStep (length data_loader) ++ [SchedulerStep].
Proof.
  intros Hne Hfit Hlam Hep Hzero. unfold train.
  destruct data_loader as [| b0 rest]; [congruence |].
  destruct epochs as [| n]; [lia |].
  unfold bindM at 1. unfold lift at 1.
  unfold bindM at 1. unfold get_weight at 1.
  unfold bindM at 1. unfold set_weight at 1.
  set (s0 := mkEngineState _ _ _ _).
  destruct (when_log_total (visualizer eng) (VisualizeWeights 0) s0) as [s1 H1].
  pose proof (when_log_Ok _ _ _ H1) as (Hw1 & Hlr1 & Hle1 & Hev1).
  rewrite (@bindM_Ok _ _ _ _ _ _ _ _ H1).
  change (seq 0 (S n)) with (0%nat :: seq 1 n). simpl for_each.
  destruct (@train_epoch_steps eng (b0 :: rest) eval_every checkpoint_every 0 s1)
    as (s3 & Hstep & Hle3 & Hev3); try exact Hlam.
  { rewrite Hw1. eapply Forall_impl; [| exact Hfit]. intros b Hb.
    apply (@rule_accepts_shape _ (layer_weight st)); [| | exact Hb]; reflexivity. }
  assert (filter is_schedule_event (events s3) =
          filter is_schedule_event (events st)
          ++ LogLearningRate (optimizer_lr st)
             :: repeat LocalStep (length (b0 :: rest)) ++ [SchedulerStep]) as Htrace.
  { rewrite Hev3, Hev1, Hlr1. simpl events. simpl optimizer_lr.
    rewrite !filter_app, filter_flat_map.
    rewrite (flat_map_ext _ (fun _ => [LocalStep]))
      by (intros i; destruct (visualizer eng); reflexivity).
    rewrite flat_map_singleton, length_seq.
    destruct (visualizer eng); simpl; rewrite ?app_nil_r; reflexivity. }
  assert (eval_every = Some 0%Z \/
          (eval_every <> Some 0%Z /\ checkpoint_every = Some 0%Z)) as [Hee | [Hee Hce]].
  { destruct eval_every as [z |].
    - destruct (Z.eq_dec z 0) as [-> | Hz]; [left; reflexivity |].
      right. split; [congruence |]. destruct Hzero as [E | E]; [congruence | exact E].
    - right. split; [discriminate |]. destruct Hzero as [E | E]; [discriminate | exact E]. }
  - exists s3. split; [| split; [rewrite Hle3, Hle1; reflexivity | exact Htrace]].
    apply bindM_Err. rewrite Hstep. subst eval_every. reflexivity.
  - assert (exists stats s4,
               match eval_every with
               | Some every =>
                   r <~ lift (py_mod (Z.of_nat (0 + 1)) every) ;;
                   if (r =? 0)%Z then eval eng else retM None
               | None => retM None
               end s3 = (Ok stats, s4)) as (stats & s4 & H4).
    { destruct eval_every as [every |]; [| eexists; eexists; reflexivity].
      unfold bindM, lift, py_mod.
      destruct (Z.eqb_spec every 0) as [-> | _]; [congruence |].
      destruct (Z.of_nat (0 + 1) mod every =? 0)%Z; eexists; eexists; reflexivity. }
    pose proof (@eval_phase_Ok _ _ _ _ _ _ H4) as (_ & _ & Hle4 & Hev4 & _).
    exists s4. split; [| split].
    + apply bindM_Err. rewrite Hstep.
      rewrite (@bindM_Ok _ _ _ _ _ _ _ _ H4). subst checkpoint_every. reflexivity.
    + rewrite Hle4, Hle3, Hle1. reflexivity.
    + rewrite Hev4, filter_app, Htrace.
      destruct (due eval_every (0 + 1)); simpl; rewrite ?app_nil_r; reflexivity.
Qed.

Lemma X12_witness :
  exists st',
    train engine_np noise_one data_one 4 (Some 0%Z) None state_one
    = (Err ZeroDivisionError, st') /\
    last_epoch st' = S (last_epoch state_one) /\
    filter is_schedule_event (events st') =
    filter is_schedule_event (events state_one)
    ++ LogLearningRate (optimizer_lr state_one)
       :: repeat LocalStep (length data_one) ++ [SchedulerStep].
Proof.
  apply (@X12_zero_cadence_fails_late engine_np noise_one data_one 4
           (Some 0%Z) None state_one).
  - discriminate.
  - exact data_one_accepted.
  - exact engine_np_schedule.
  - lia.
  - left. reflexivity.
Defined.

(** ** The state a completed run leaves *)

Lemma epochs_rate (eng : HebbianEngine) (data_loader : DataLoader)
    (eval_every checkpoint_every : option Z) (n : nat) :
  forall (e0 i : nat) (s s' : EngineState) (u : unit),
    for_each (seq e0 n) i
      (fun _ epoch => train_epoch eng data_loader eval_every checkpoint_every epoch) s
    = (Ok u, s') ->
    optimizer_lr s' = lr_at eng s n.
Proof.
  induction n as [| n IH]; intros e0 i s s' u H; simpl in H.
  - unfold retM in H. injection H as _ <-. reflexivity.
  - invM H. apply train_epoch_Ok in Hm.
    destruct Hm as (f & Hf & _ & _ & Hlr & Hle & _).
    apply IH in H. rewrite H. unfold lr_at. destruct n as [| n].
    + rewrite Hlr. rewrite Nat.add_1_r, Hf. reflexivity.
    + rewrite Hle.
      replace (S (last_epoch s) + S n)%nat with (last_epoch s + S (S n))%nat by lia.
      reflexivity.
Qed.

Lemma train_Ok_state (eng : HebbianEngine) (noise : nat -> nat -> Q)
    (data_loader : DataLoader) (epochs : nat) (eval_every checkpoint_every : option Z)
    (s s' : EngineState) (u : unit) :
  train eng noise data_loader epochs eval_every checkpoint_every s = (Ok u, s') ->
  nrows (layer_weight s') = nrows (layer_weight s) /\
  ncols (layer_weight s') = ncols (layer_weight s) /\
  last_epoch s' = (last_epoch s + epochs)%nat /\
  optimizer_lr s' = lr_at eng s epochs.
Proof.
  unfold train. intros H.
  invM H. unfold lift in Hm. injection Hm as _ <-.
  invM H. unfold get_weight in Hm. injection Hm as <- <-.
  invM H. unfold set_weight in Hm. injection Hm as _ <-.
  invM H. apply when_log_Ok in Hm. destruct Hm as (Hw1 & Hlr1 & Hle1 & _).
  pose proof (@epochs_rate _ _ _ _ _ _ _ _ _ _ H) as Hrate.
  apply epochs_Ok in H. destruct H as (Hr & Hc & Hle & _).
  simpl in Hw1, Hlr1, Hle1.
  rewrite Hw1 in Hr, Hc. simpl in Hr, Hc.
  split; [exact Hr |]. split; [exact Hc |].
  split; [rewrite Hle, Hle1; reflexivity |].
  rewrite Hrate. unfold lr_at. rewrite Hlr1, Hle1. reflexivity.
Qed.

Lemma inject_Z_pos_neq (n : nat) : n <> 0%nat -> ~ inject_Z (Z.of_nat n) == 0.
Proof.
  intros Hn E. unfold Qeq in E. simpl in E. lia.
Qed.

(** X13.  The state a completed run under the schedule of [main] leaves:
    with the factor [1 - epoch / epochs] and a learning rule that accepts
    every batch, after the [epochs] epochs of [train] the scheduler stands
    at epoch [epochs], the learning rate left in the optimizer is 0 (the
    last step of the schedule, line 72, sets it), and the layer weight has
    the shape it had. *)
Theorem X13_main_schedule_final_state (eng : HebbianEngine) (epochs : nat)
    (W : Tensor) (noise : nat -> nat -> Q)
    (data_loader : DataLoader) (eval_every checkpoint_every : option Z)
    (st0 : EngineState) :
  lr_lambda eng = main_lr_lambda epochs ->
  LambdaLR (base_lr eng) (lr_lambda eng) W = Ok st0 ->
  data_loader <> [] ->
  Forall (rule_accepts (learning_rule eng) W) data_loader ->
  eval_every <> Some 0%Z -> checkpoint_every <> Some 0%Z ->
  exists st',
    train eng noise data_loader epochs eval_every checkpoint_every st0 = (Ok tt, st') /\
    last_epoch st' = epochs /\
    optimizer_lr st' == 0 /\
    nrows (layer_weight st') = nrows W /\ ncols (layer_weight st') = ncols W.
Proof.
  intros Hsched Hinit Hne Hfit Hee Hce. rewrite Hsched in Hinit.
  unfold LambdaLR, main_lr_lambda in Hinit.
  destruct (Nat.eqb_spec epochs 0) as [E0 | E0]; [discriminate Hinit |].
  simpl in Hinit. injection Hinit as <-.
  match goal with
  | |- exists st', train _ _ _ _ _ _ ?s0 = _ /\ _ =>
      destruct (@train_total eng noise data_loader epochs eval_every
                  checkpoint_every s0 Hne Hfit) as [st' Hrun];
        try assumption
  end.
  { intros e. rewrite Hsched. unfold main_lr_lambda.
    destruct (Nat.eqb_spec epochs 0) as [E1 | _]; [contradiction |].
    eexists. reflexivity. }
  exists st'. split; [exact Hrun |].
  apply train_Ok_state in Hrun. simpl in Hrun.
  destruct Hrun as (Hr & Hc & Hle & Hlr).
  split; [exact Hle |]. split; [| split; assumption].
  rewrite Hlr. unfold lr_at. destruct epochs as [| e]; [contradiction |].
  simpl. rewrite Hsched. unfold main_lr_lambda. simpl Nat.eqb. cbv iota.
  pose proof (@inject_Z_pos_neq (S e) E0) as Hnz.
  field. exact Hnz.
Qed.

Lemma X13_witness :
  exists st',
    train engine_np noise_one data_one 4 (Some 50%Z) None state_one = (Ok tt, st') /\
    last_epoch st' = 4%nat /\
    optimizer_lr st' == 0 /\
    nrows (layer_weight st') = nrows W_one /\ ncols (layer_weight st') = ncols W_one.
Proof.
  apply (@X13_main_schedule_final_state engine_np 4 W_one noise_one data_one
           (Some 50%Z) None state_one).
  - reflexivity.
  - vm_compute. reflexivity.
  - discriminate.
  - exact data_one_accepted.
  - discriminate.
  - discriminate.
Defined.

(** ** What a run does not depend on *)

Lemma same_but_events_refl (s : EngineState) : same_but_events s s.
Proof. repeat split. Qed.

Lemma blind_ret {A : Type} (a : A) : blind_to_events (retM a).
Proof. intros s1 s2 H. split; [reflexivity | exact H]. Qed.

Lemma blind_lift {A : Type} (r : result A) : blind_to_events (lift r).
Proof. intros s1 s2 H. split; [reflexivity | exact H]. Qed.

Lemma blind_bind {A B : Type} (m : M A) (f : A -> M B) :
  blind_to_events m -> (forall a, blind_to_events (f a)) -> blind_to_events (bindM m f).
Proof.
  intros Hm Hf s1 s2 Hs. destruct (Hm s1 s2 Hs) as [Hr Hs']. unfold bindM.
  destruct (m s1) as [[a1 | e1] t1], (m s2) as [[a2 | e2] t2]; simpl in Hr, Hs';
    try discriminate Hr.
  - injection Hr as ->. apply Hf, Hs'.
  - injection Hr as ->. split; [reflexivity | exact Hs'].
Qed.

Lemma blind_when (c : bool) (m : M unit) : blind_to_events m -> blind_to_events (when c m).
Proof. destruct c; simpl; [auto | intros _; apply blind_ret]. Qed.

Lemma blind_for_each {A : Type} (body : nat -> A -> M unit) (xs : list A) :
  (forall i x, blind_to_events (body i x)) ->
  forall i, blind_to_events (for_each xs i body).
Proof.
  intros Hb. induction xs as [| x xs IH]; intros i; simpl.
  - apply blind_ret.
  - apply blind_bind; [apply Hb | intros _; apply IH].
Qed.

Lemma blind_log (e : event) : blind_to_events (log e).
Proof. intros s1 s2 (Hw & Hlr & Hle). unfold log, same_but_events. simpl. auto. Qed.

Lemma blind_get_weight : blind_to_events get_weight.
Proof.
  intros s1 s2 Hs. pose proof Hs as (Hw & _). unfold get_weight. simpl.
  rewrite Hw. split; [reflexivity | exact Hs].
Qed.

Lemma blind_get_last_lr : blind_to_events get_last_lr.
Proof.
  intros s1 s2 Hs. pose proof Hs as (_ & Hlr & _). unfold get_last_lr. simpl.
  rewrite Hlr. split; [reflexivity | exact Hs].
Qed.

Lemma blind_local_step (d_p : Tensor) : blind_to_events (local_step d_p).
Proof.
  intros s1 s2 (Hw & Hlr & Hle). unfold local_step, same_but_events. simpl.
  rewrite Hw, Hlr. auto.
Qed.

Lemma blind_scheduler_step (eng : HebbianEngine) : blind_to_events (scheduler_step eng).
Proof.
  intros s1 s2 (Hw & Hlr & Hle). unfold scheduler_step, same_but_events.
  rewrite Hle. destruct (lr_lambda eng (S (last_epoch s2))); simpl; auto.
Qed.

Lemma blind_train_step (eng : HebbianEngine) (inputs : Tensor) (labels : list Z) :
  blind_to_events (_train_step eng inputs labels).
Proof.
  unfold _train_step.
  apply blind_bind; [apply blind_lift | intros X].
  apply blind_bind; [apply blind_get_weight | intros W].
  apply blind_bind; [apply blind_lift | intros d].
  apply blind_bind; [apply blind_lift | intros d_p].
  apply blind_local_step.
Qed.

Lemma blind_train_epoch (eng : HebbianEngine) (data_loader : DataLoader)
    (eval_every checkpoint_every : option Z) (epoch : nat) :
  blind_to_events (train_epoch eng data_loader eval_every checkpoint_every epoch).
Proof.
  unfold train_epoch.
  apply blind_bind; [apply blind_get_last_lr | intros lr].
  apply blind_bind; [apply blind_log | intros _].
  apply blind_bind; [apply blind_when, blind_log | intros _].
  apply blind_bind.
  { apply blind_for_each. intros n batch.
    apply blind_bind; [apply blind_train_step | intros _].
    apply blind_when, blind_log. }
  intros _. apply blind_bind; [apply blind_scheduler_step | intros _].
  apply blind_bind.
  { destruct eval_every as [every |]; [| apply blind_ret].
    apply blind_bind; [apply blind_lift | intros r].
    destruct (r =? 0)%Z; [| apply blind_ret].
    unfold eval.
    apply blind_bind; [apply blind_log | intros _].
    apply blind_bind; [apply blind_get_weight | intros W].
    apply blind_ret. }
  intros stats. destruct checkpoint_every as [every |]; [| apply blind_ret].
  apply blind_bind; [apply blind_lift | intros r].
  destruct (r =? 0)%Z; [apply blind_log | apply blind_ret].
Qed.

Lemma train_loop (eng : HebbianEngine) (noise : nat -> nat -> Q)
    (data_loader : DataLoader) (epochs : nat) (eval_every checkpoint_every : option Z)
    (s : EngineState) :
  data_loader <> [] ->
  train eng noise data_loader epochs eval_every checkpoint_every s =
  (_ <~ when (visualizer eng) (log (VisualizeWeights 0)) ;;
   for_each (seq 0 epochs) 0
     (fun _ epoch => train_epoch eng data_loader eval_every checkpoint_every epoch))
    (mkEngineState
       (tabulate (nrows (layer_weight s)) (ncols (layer_weight s)) noise)
       (optimizer_lr s) (last_epoch s) (events s)).
Proof.
  intros Hne. destruct data_loader as [| b0 rest]; [congruence |]. reflexivity.
Qed.

(** X14.  [train] draws new weights for the layer before the first epoch
    (lines 42-48), and nothing it computes reads what the collaborators
    were told before.  So the outcome of a run on a loader with batches,
    whether it returns or raises, and the weights, the rate and the epoch
    counter it leaves, depend on the state it starts from only through the
    shape of the weights, the rate and the epoch counter: not on the values
    of the weights the model had, nor on the events so far. *)
Theorem X14_train_overwrites_weights (eng : HebbianEngine) (noise : nat -> nat -> Q)
    (data_loader : DataLoader) (epochs : nat) (eval_every checkpoint_every : option Z)
    (s1 s2 : EngineState) :
  data_loader <> [] ->
  nrows (layer_weight s1) = nrows (layer_weight s2) ->
  ncols (layer_weight s1) = ncols (layer_weight s2) ->
  optimizer_lr s1 = optimizer_lr s2 ->
  last_epoch s1 = last_epoch s2 ->
  let run1 := train eng noise data_loader epochs eval_every checkpoint_every s1 in
  let run2 := train eng noise data_loader epochs eval_every checkpoint_every s2 in
  fst run1 = fst run2 /\
  layer_weight (snd run1) = layer_weight (snd run2) /\
  optimizer_lr (snd run1) = optimizer_lr (snd run2) /\
  last_epoch (snd run1) = last_epoch (snd run2).
Proof.
  intros Hne Hr Hc Hlr Hle run1 run2. subst run1 run2.
  rewrite !train_loop by exact Hne.
  match goal with
  | |- fst (?m ?t1) = fst (?m ?t2) /\ _ =>
      assert (blind_to_events m) as Hblind;
        [| assert (same_but_events t1 t2) as Hsame;
           [| exact (Hblind t1 t2 Hsame)]]
  end.
  - apply blind_bind; [apply blind_when, blind_log | intros _].
    apply blind_for_each. intros _ epoch. apply blind_train_epoch.
  - unfold same_but_events. simpl. rewrite Hr, Hc, Hlr, Hle. auto.
Qed.

Lemma X14_witness :
  let run1 := train engine_one noise_one data_one 4 (Some 2%Z) None state_one in
  let run2 := train engine_one noise_one data_one 4 (Some 2%Z) None state_other in
  fst run1 = fst run2 /\
  layer_weight (snd run1) = layer_weight (snd run2) /\
  optimizer_lr (snd run1) = optimizer_lr (snd run2) /\
  last_epoch (snd run1) = last_epoch (snd run2).
Proof.
  apply (@X14_train_overwrites_weights engine_one noise_one data_one 4 (Some 2%Z) None
           state_one state_other).
  - discriminate.
  - reflexivity.
  - reflexivity.
  - reflexivity.
  - reflexivity.
Defined.

(** ** One training step *)

(** A step either completes, with one optimizer step, or raises and leaves
    the state of the engine exactly as it was (lines 24-27). *)
Lemma train_step_all_or_nothing (eng : HebbianEngine) (inputs : Tensor)
    (labels : list Z) (st : EngineState) :
  (exists e, _train_step eng inputs labels st = (Err e, st)) \/
  (exists st', _train_step eng inputs labels st = (Ok tt, st')).
Proof.
  unfold _train_step, bindM, lift, reshape_flat, get_weight.
  destruct (nrows inputs =? 0)%nat.
  - left. eexists. reflexivity.
  - destruct (rule_update (learning_rule eng) inputs (np_ndarray (layer_weight st)))
      as [[d_w | d_w] | e].
    + left. eexists. reflexivity.
    + right. eexists. reflexivity.
    + left. eexists. reflexivity.
Qed.

(** X15.  The loop over the batches of an epoch (lines 65-70), for any
    learning rule and whatever step numbers the progress bar gives: either every batch is stepped, or the loop raises at
    some batch [j]; then the state left is exactly the state after the
    steps of the batches before [j] (they are not undone), and the failing
    step itself has changed nothing. *)
Theorem X15_failing_batch_keeps_earlier_steps (eng : HebbianEngine) (step : nat -> nat)
    (data_loader : DataLoader) (i : nat) (st : EngineState) :
  let body := fun (n : nat) (batch : Tensor * list Z) =>
                _ <~ _train_step eng (fst batch) (snd batch) ;;
                when (visualizer eng) (log (VisualizeWeights (step n))) in
  (exists st', for_each data_loader i body st = (Ok tt, st')) \/
  (exists e st' j inputs labels,
      nth_error data_loader j = Some (inputs, labels) /\
      for_each data_loader i body st = (Err e, st') /\
      for_each (firstn j data_loader) i body st = (Ok tt, st') /\
      _train_step eng inputs labels st' = (Err e, st')).
Proof.
  intros body. revert i st.
  induction data_loader as [| [X ls] rest IH]; intros i st.
  - left. eexists. reflexivity.
  - destruct (train_step_all_or_nothing eng X ls st) as [[e Hstep] | [s1 Hstep]].
    + right. exists e, st, 0%nat, X, ls.
      split; [reflexivity |]. split; [| split; [reflexivity | exact Hstep]].
      simpl for_each. apply bindM_Err. unfold body. apply bindM_Err. exact Hstep.
    + destruct (when_log_total (visualizer eng) (VisualizeWeights (step i)) s1)
        as [s2 Hlog].
      assert (body i (X, ls) st = (Ok tt, s2)) as Hbody.
      { unfold body. simpl fst. simpl snd.
        rewrite (@bindM_Ok _ _ _ _ _ _ _ _ Hstep). exact Hlog. }
      destruct (IH (S i) s2) as [[st' Hall] | (e & st' & j & X' & ls' & Hj & Herr & Hpre & Hfail)].
      * left. exists st'. simpl for_each.
        rewrite (@bindM_Ok _ _ _ _ _ _ _ _ Hbody). exact Hall.
      * right. exists e, st', (S j), X', ls'.
        split; [exact Hj |]. split; [| split; [| exact Hfail]].
        -- simpl for_each. rewrite (@bindM_Ok _ _ _ _ _ _ _ _ Hbody). exact Herr.
        -- simpl firstn. simpl for_each.
           rewrite (@bindM_Ok _ _ _ _ _ _ _ _ Hbody). exact Hpre.
Qed.

(** X16.  With Krotov's rule as the learning rule of the engine, a
    training step on a valid batch raises [TypeError] and leaves the state
    of the engine as it was: line 25 hands the weights to [update] as a
    numpy array, and line 39 of [update] applies [torch.sign] to them.  The
    optimizer is not reached, although [update] called with the same
    weights as a tensor returns a delta. *)
Theorem X16_krotov_step_raises_type_error (rule : KrotovsRule) (eng : HebbianEngine)
    (inputs : Tensor) (labels : list Z) (st : EngineState) :
  learning_rule eng = KrotovsRule_rule rule ->
  valid_call rule inputs (layer_weight st) ->
  _train_step eng inputs labels st = (Err TypeError, st) /\
  rule_update (learning_rule eng) inputs (np_ndarray (layer_weight st)) = Err TypeError /\
  exists d_w, update rule inputs (layer_weight st) = Ok d_w.
Proof.
  intros Hrule Hv. pose proof (update_Ok Hv) as Hupd.
  destruct Hv as (HB & _ & _ & _ & HkH).
  split; [apply (@train_step_krotov rule eng inputs labels st Hrule HB HkH) |].
  split; [| exact Hupd].
  rewrite Hrule. cbn [rule_update KrotovsRule_rule].
  apply update_called_ndarray; assumption.
Qed.

Lemma X16_witness :
  _train_step engine_one X_one [1%Z] state_one = (Err TypeError, state_one) /\
  rule_update (learning_rule engine_one) X_one (np_ndarray (layer_weight state_one))
  = Err TypeError /\
  exists d_w, update rule_default X_one (layer_weight state_one) = Ok d_w.
Proof.
  apply (@X16_krotov_step_raises_type_error rule_default engine_one X_one [1%Z] state_one).
  - reflexivity.
  - unfold valid_call. concrete.
Defined.



(** X18.  With the scheduler built as in [main] (factor
    [1 - epoch / epochs]) and a learning rule that accepts every batch, a
    run of [train] over [epochs] epochs completes and, for every epoch [e]
    from 0, in this order: reads the rate [lr * (1 - e / epochs)] at the
    start of the epoch, steps every batch of the epoch, and then advances
    the schedule, once (lines 55-72). *)
Theorem X18_linear_decay_schedule (eng : HebbianEngine) (epochs : nat)
    (W : Tensor) (noise : nat -> nat -> Q)
    (data_loader : DataLoader) (eval_every checkpoint_every : option Z)
    (st0 : EngineState) :
  lr_lambda eng = main_lr_lambda epochs ->
  LambdaLR (base_lr eng) (lr_lambda eng) W = Ok st0 ->
  data_loader <> [] ->
  Forall (rule_accepts (learning_rule eng) W) data_loader ->
  eval_every <> Some 0%Z -> checkpoint_every <> Some 0%Z ->
  exists st',
    train eng noise data_loader epochs eval_every checkpoint_every st0 = (Ok tt, st') /\
    filter is_schedule_event (events st') =
    flat_map (fun e =>
                LogLearningRate
                  (base_lr eng
                   * (1 - inject_Z (Z.of_nat e) / inject_Z (Z.of_nat epochs)))
                :: repeat LocalStep (length data_loader) ++ [SchedulerStep])
             (seq 0 epochs).
Proof.
  intros Hsched Hinit Hne Hfit Hee Hce. rewrite Hsched in Hinit.
  unfold LambdaLR, main_lr_lambda in Hinit.
  destruct (Nat.eqb_spec epochs 0) as [E0 | E0]; [discriminate Hinit |].
  simpl in Hinit. injection Hinit as <-.
  match goal with
  | |- exists st', train _ _ _ _ _ _ ?s0 = _ /\ _ =>
      destruct (@train_total eng noise data_loader epochs eval_every
                  checkpoint_every s0 Hne Hfit) as [st' Hrun];
        try assumption
  end.
  { intros e. rewrite Hsched. unfold main_lr_lambda.
    destruct (Nat.eqb_spec epochs 0) as [E1 | _]; [contradiction |].
    eexists. reflexivity. }
  exists st'. split; [exact Hrun |].
  apply train_Ok in Hrun. rewrite Hrun. rewrite !filter_app, filter_flat_map.
  rewrite (flat_map_ext _ _ (fun e => schedule_of_epoch _ _ _ _ _ e _)).
  assert (filter is_schedule_event (if visualizer eng then [VisualizeWeights 0] else []) = [])
    as -> by (destruct (visualizer eng); reflexivity).
  cbn [events filter app].
  apply flat_map_ext. intros e. f_equal. f_equal.
  unfold lr_at. destruct e as [| e]; [reflexivity |].
  cbn [last_epoch Nat.add]. rewrite Hsched. unfold main_lr_lambda.
  destruct (Nat.eqb_spec epochs 0) as [E1 | _]; [contradiction | reflexivity].
Qed.

Lemma X18_witness :
  exists st',
    train engine_np noise_one data_one 4 (Some 50%Z) None state_one = (Ok tt, st') /\
    filter is_schedule_event (events st') =
    flat_map (fun e =>
                LogLearningRate
                  (base_lr engine_np
                   * (1 - inject_Z (Z.of_nat e) / inject_Z (Z.of_nat 4)))
                :: repeat LocalStep (length data_one) ++ [SchedulerStep])
             (seq 0 4).
Proof.
  apply (@X18_linear_decay_schedule engine_np 4 W_one noise_one data_one
           (Some 50%Z) None state_one).
  - reflexivity.
  - vm_compute. reflexivity.
  - discriminate.
  - exact data_one_accepted.
  - discriminate.
  - discriminate.
Defined.
